(** * Quant-Strategies: the quantitative core, embedded and verified

    The development follows the TypeScript sources module by module:

    - [BlackScholesModel]           features/black_scholes/BlackScholesModel.tsx
    - [BinomialOptionPricingModel]  features/binomial_option_pricing/BinomialOptionPricingModel.tsx
    - [VaRCVaRModel]                features/var_cvar/VaRCVaRModel.tsx
    - [GarchModel], [MonteCarloModel], [MertonJumpDiffusionModel]   features/models.ts
    - [InterestRateModel]           features/interest_rate_models/InterestRateModel.tsx
    - [PortfolioSimulator], [StochasticControlModel]
                                    features/portfolio_simulator/PortfolioSimulator.tsx
    - [PairsTradingModel]           the pairs-trading component
    - [AmericanOptionsModel]        features/american_options/AmericanOptionsModel.tsx

    Numbers.  A JavaScript [number] is modelled by a real number of the
    Standard Library: [+ - * /] are the field operations, [Math.exp],
    [Math.log], [Math.sqrt], [Math.abs], [Math.max] are [exp], [ln], [sqrt],
    [Rabs], [Rmax], and [x ** n] for a literal or loop-counter exponent [n]
    is [x ^ n].  Arithmetic is therefore exact: the rounding of IEEE doubles,
    NaN and the infinities are outside the model (a quotient by zero is the
    library's [x * / 0], the root of a negative number the library's
    [sqrt]).  Comparisons are the decidable orders of [R], used as booleans
    exactly where the source branches on them.

    Where the code would compute a NaN or an infinity the real-valued
    definitions part from it, so the statements keep to the inputs on
    which every quotient has a non-zero divisor and every root a
    non-negative argument, and say so in their hypotheses.  Where a
    statement needs the NaN itself, the code is embedded once more with
    the NaN tracked ([JS.num], [MonteCarloModel.generatePaths_nan]), and
    where an exception depends on it the definition branches on the zero
    divisor ([VaRCVaRModel.count_return]).

    Loop counters, array indices and lengths are [nat].  The static price
    tables the components import ([SP500_DATA], [STOCK_DATA]) are
    parameters of the functions that read them.

    Randomness.  The simulators call [randomNormal()] and [Math.random()];
    the results of the successive calls are supplied by an oracle
    [draws : nat -> R] threaded through the loops together with the number
    of calls made so far, so every statement about a simulator is a
    statement about every possible run. *)

From Stdlib Require Import String.
From Stdlib Require Import Reals Lra Lia List Bool ZArith Sorted.
Import ListNotations.

Open Scope R_scope.

(* ================================================================== *)
(** * JavaScript primitives *)

Module JS.

(** Relational operators, as booleans. *)
Definition lt (x y : R) : bool := if Rlt_dec x y then true else false.
Definition le (x y : R) : bool := if Rle_dec x y then true else false.
Definition gt (x y : R) : bool := lt y x.
Definition ge (x y : R) : bool := le y x.

(** [Math.floor] of a non-negative number used as an array index. *)
Definition floor_index (x : R) : nat := Z.to_nat (Zfloor x).

(** [xs.reduce((a, b) => a + b, 0)]. *)
Definition sum (xs : list R) : R := fold_left Rplus xs 0.

(** [xs[xs.length - 1]] (the model reads [0] from an empty array). *)
Definition last_elt (xs : list R) : R := nth (length xs - 1) xs 0.

(** Arrays created by [new Array(n)]: a cell is a hole until written. *)
Definition array := list (option R).

Definition new_Array (n : nat) : array := repeat None n.

(** [a[i]]: the stored number; a hole or an index past the end reads
    [undefined], which the model reports as [None]. *)
Definition get (a : array) (i : nat) : option R :=
  match nth_error a i with
  | Some (Some v) => Some v
  | _ => None
  end.

(** [a[i] = v]: overwrite in range; past the end JavaScript grows the
    array, leaving holes in between. *)
Fixpoint set (a : array) (i : nat) (v : R) : array :=
  match a, i with
  | [], O => [Some v]
  | [], S i' => None :: set [] i' v
  | _ :: t, O => Some v :: t
  | h :: t, S i' => h :: set t i' v
  end.

(** [for (let i = start; i < start + count; i++) body(i)], where the body
    may stop the computation. *)
Fixpoint for_up {St : Type} (body : nat -> St -> option St)
         (start count : nat) (s : St) : option St :=
  match count with
  | O => Some s
  | S c =>
      match body start s with
      | Some s' => for_up body (S start) c s'
      | None => None
      end
  end.

(** [for (let j = count - 1; j >= 0; j--) body(j)]. *)
Fixpoint for_down {St : Type} (body : nat -> St -> option St)
         (count : nat) (s : St) : option St :=
  match count with
  | O => Some s
  | S c =>
      match body c s with
      | Some s' => for_down body c s'
      | None => None
      end
  end.

(** The same loops with a body that cannot stop. *)
Fixpoint loop_up {St : Type} (body : nat -> St -> St)
         (start count : nat) (s : St) : St :=
  match count with
  | O => s
  | S c => loop_up body (S start) c (body start s)
  end.

(** [xs.slice(start, stop)] for [0 <= start]. *)
Definition slice {A : Type} (xs : list A) (start stop : nat) : list A :=
  firstn (stop - start) (skipn start xs).

(** [xs.sort((a, b) => a - b)]: the ascending rearrangement of [xs]. *)
Fixpoint insert_sorted (x : R) (xs : list R) : list R :=
  match xs with
  | [] => [x]
  | y :: ys => if le x y then x :: xs else y :: insert_sorted x ys
  end.

Definition sort (xs : list R) : list R := fold_right insert_sorted [] xs.

(** ** The random source

    A computation that draws random numbers maps the oracle and the
    number of draws made so far to its result and the new count. *)
Definition Rand (A : Type) : Type := (nat -> R) -> nat -> A * nat.

Definition ret {A : Type} (a : A) : Rand A := fun _ k => (a, k).

Definition bind {A B : Type} (c : Rand A) (f : A -> Rand B) : Rand B :=
  fun draws k => let (a, k') := c draws k in f a draws k'.

(** One call of [Math.random()]. *)
Definition Math_random : Rand R := fun draws k => (draws k, S k).

(** One call of [randomNormal()], the Box-Muller sampler each simulator
    file defines.  The sampler re-draws while a uniform draw is exactly 0
    and returns [sqrt(-2 ln u) * cos(2 pi v)] for the two draws it keeps;
    the number a call returns is the oracle's next value, so a statement
    for every oracle covers every run in which the sampler returns. *)
Definition randomNormal : Rand R := fun draws k => (draws k, S k).

Fixpoint for_rand {St : Type} (body : nat -> St -> Rand St)
         (start count : nat) (s : St) : Rand St :=
  match count with
  | O => ret s
  | S c => bind (body start s) (for_rand body (S start) c)
  end.

(** [Math.min(...xs)] and [Math.max(...xs)] of a non-empty array (for an
    empty one JavaScript returns an infinity, outside the model; the model
    reads [0]). *)
Definition min_of (xs : list R) : R :=
  match xs with
  | [] => 0
  | x :: rest => fold_left Rmin rest x
  end.

Definition max_of (xs : list R) : R :=
  match xs with
  | [] => 0
  | x :: rest => fold_left Rmax rest x
  end.

(** A [forEach] whose callback may throw. *)
Fixpoint for_each {A St : Type} (body : A -> St -> option St)
         (xs : list A) (s : St) : option St :=
  match xs with
  | [] => Some s
  | x :: rest =>
      match body x s with
      | Some s' => for_each body rest s'
      | None => None
      end
  end.

(** [xs.sort((a, b) => key(a) - key(b))]: the ascending rearrangement
    of [xs] by a numeric key; rows with equal keys keep their order. *)
Fixpoint insert_by {A : Type} (key : A -> R) (x : A) (xs : list A) : list A :=
  match xs with
  | [] => [x]
  | y :: ys => if le (key x) (key y) then x :: xs else y :: insert_by key x ys
  end.

Definition sort_by {A : Type} (key : A -> R) (xs : list A) : list A :=
  fold_right (insert_by key) [] xs.

(** ** Numbers that may be [NaN]

    Where a statement turns on it, a number that may be [NaN] is an
    [option R] with [None] for [NaN]: [Math.sqrt] of a negative number is
    [NaN], and an operation with a [NaN] operand gives [NaN]. *)
Definition num : Type := option R.




End JS.

Notation "x <- c ;; k" := (JS.bind c (fun x => k))
  (at level 61, c at next level, right associativity).

(* ================================================================== *)
(** * types.ts *)

Record StockDataPoint : Type := { date : string; price : R }.

(* ================================================================== *)
(** * features/black_scholes/BlackScholesModel.tsx *)

Module BlackScholesModel.

Definition normalCDF (x : R) : R :=
  let t := 1 / (1 + 0.2316419 * Rabs x) in
  let d := 0.3989423 * exp (- x * x / 2) in
  let prob := d * t * (0.3193815 + t * (-0.3565638 + t * (1.781478
                + t * (-1.821256 + t * 1.330274)))) in
  if JS.gt x 0 then 1 - prob else prob.

Record Prices : Type := { callPrice : R; putPrice : R }.

(** The [useMemo] block computing [{ callPrice, putPrice }] from the
    component state; [r] and [sigma] are the slider values in percent. *)
Definition prices (S K T r sigma : R) : Prices :=
  let rDecimal := r / 100 in
  let sigmaDecimal := sigma / 100 in
  if JS.le T 0 || JS.le sigmaDecimal 0 then
    {| callPrice := 0; putPrice := 0 |}
  else
    let d1 := (ln (S / K) + (rDecimal + 0.5 * sigmaDecimal ^ 2) * T)
              / (sigmaDecimal * sqrt T) in
    let d2 := d1 - sigmaDecimal * sqrt T in
    {| callPrice := S * normalCDF d1 - K * exp (- rDecimal * T) * normalCDF d2;
       putPrice := K * exp (- rDecimal * T) * normalCDF (- d2)
                   - S * normalCDF (- d1) |}.

End BlackScholesModel.

(* ================================================================== *)
(** * features/binomial_option_pricing/BinomialOptionPricingModel.tsx *)

Module BinomialOptionPricingModel.

Definition normalCDF (x : R) : R :=
  let t := 1 / (1 + 0.2316419 * Rabs x) in
  let d := 0.3989423 * exp (- x * x / 2) in
  let prob := d * t * (0.3193815 + t * (-0.3565638 + t * (1.781478
                + t * (-1.821256 + t * 1.330274)))) in
  if JS.gt x 0 then 1 - prob else prob.

Definition blackScholesCall (S K T r sigma : R) : R :=
  if JS.le T 0 || JS.le sigma 0 then Rmax 0 (S - K * exp (- r * T))
  else
    let d1 := (ln (S / K) + (r + 0.5 * sigma ^ 2) * T) / (sigma * sqrt T) in
    let d2 := d1 - sigma * sqrt T in
    S * normalCDF d1 - K * exp (- r * T) * normalCDF d2.

(** The four lattice constants computed at the top of
    [calculateBinomialPrice].  They are the numbers of the code for
    [steps >= 1], [T > 0] and [sigma <> 0]; for [T <= 0] or [sigma = 0] the
    code has [u = d] or a NaN root, and its [p] is a NaN or an infinity. *)
Definition dt (T : R) (steps : nat) : R := T / INR steps.
Definition u (T sigma : R) (steps : nat) : R := exp (sigma * sqrt (dt T steps)).
Definition d (T sigma : R) (steps : nat) : R := 1 / u T sigma steps.
Definition p (T r sigma : R) (steps : nat) : R :=
  (exp (r * dt T steps) - d T sigma steps) / (u T sigma steps - d T sigma steps).

(** Body of the payoff loop: [prices[i] = Math.max(0, S*u**(steps-i)*d**i - K)]. *)
Definition payoff_body (S K uu dd : R) (steps : nat)
           (i : nat) (prices : JS.array) : option JS.array :=
  Some (JS.set prices i (Rmax 0 (S * uu ^ (steps - i) * dd ^ i - K))).

(** Body of the inner backward loop:
    [prices[i] = (p*prices[i] + (1-p)*prices[i+1]) * Math.exp(-r*dt)]. *)
Definition induction_body (pp r dtt : R)
           (i : nat) (prices : JS.array) : option JS.array :=
  match JS.get prices i, JS.get prices (i + 1) with
  | Some a, Some b =>
      Some (JS.set prices i ((pp * a + (1 - pp) * b) * exp (- r * dtt)))
  | _, _ => None
  end.

(** [calculateBinomialPrice].  The result is [None] only if a cell of
    [prices] were read before being written. *)
Definition calculateBinomialPrice (S K T r sigma : R) (steps : nat) : option R :=
  let dtt := dt T steps in
  let uu := u T sigma steps in
  let dd := d T sigma steps in
  let pp := p T r sigma steps in
  if JS.lt pp 0 || JS.gt pp 1 then Some 0
  else
    match JS.for_up (payoff_body S K uu dd steps) 0 (steps + 1)
                    (JS.new_Array (steps + 1)) with
    | None => None
    | Some prices0 =>
        match JS.for_down
                (fun j => JS.for_up (induction_body pp r dtt) 0 (j + 1))
                steps prices0 with
        | None => None
        | Some prices => JS.get prices 0
        end
    end.

(** ** The lattice as the specification words it

    Terminal layer of [n + 1] nodes, then one layer at a time replaced by
    the discounted expectation of its two children, down to the root. *)

Definition terminal_layer (S K uu dd : R) (n : nat) : list R :=
  map (fun i => Rmax 0 (S * uu ^ (n - i) * dd ^ i - K)) (seq 0 (n + 1)).

Fixpoint roll_back (disc pp : R) (layer : list R) : list R :=
  match layer with
  | up :: ((down :: _) as rest) =>
      disc * (pp * up + (1 - pp) * down) :: roll_back disc pp rest
  | _ => []
  end.

Definition root_layer (S K T r sigma : R) (n : nat) : list R :=
  let dtt := dt T n in
  let uu := u T sigma n in
  let dd := d T sigma n in
  let pp := p T r sigma n in
  Nat.iter n (roll_back (exp (- r * dtt)) pp) (terminal_layer S K uu dd n).

(** The root value (the layer that reaches the root has one node). *)
Definition lattice_root (S K T r sigma : R) (n : nat) : R :=
  hd 0 (root_layer S K T r sigma n).

End BinomialOptionPricingModel.

(* ================================================================== *)
(** * features/var_cvar/VaRCVaRModel.tsx *)

Module VaRCVaRModel.

Definition normalInverseCDF (p : R) : R :=
  let a1 := -39.69683028665376 in let a2 := 220.9460984245205 in
  let a3 := -275.9285104469687 in let a4 := 138.3577518672690 in
  let a5 := -30.66479806614716 in let a6 := 2.506628277459239 in
  let b1 := -54.47609879822406 in let b2 := 161.5858368580409 in
  let b3 := -155.6989798598866 in let b4 := 66.80131188771972 in
  let b5 := -13.28068155288572 in
  let c1 := -0.007784894002430293 in let c2 := -0.3223964580411365 in
  let c3 := -2.400758277161838 in let c4 := -2.549732539343734 in
  let c5 := 4.374664141464968 in let c6 := 2.938163982698783 in
  let d1 := 0.007784695709041462 in let d2 := 0.3224671290700398 in
  let d3 := 2.445134137142996 in let d4 := 3.754408661907416 in
  let p_low := 0.02425 in
  let p_high := 1 - p_low in
  if JS.lt p p_low then
    let q := sqrt (-2 * ln p) in
    (((((c1 * q + c2) * q + c3) * q + c4) * q + c5) * q + c6)
    / ((((d1 * q + d2) * q + d3) * q + d4) * q + 1)
  else if JS.le p p_high then
    let q := p - 0.5 in
    let r := q * q in
    (((((a1 * r + a2) * r + a3) * r + a4) * r + a5) * r + a6) * q
    / (((((b1 * r + b2) * r + b3) * r + b4) * r + b5) * r + 1)
  else
    let q := sqrt (-2 * ln (1 - p)) in
    - (((((c1 * q + c2) * q + c3) * q + c4) * q + c5) * q + c6)
    / ((((d1 * q + d2) * q + d3) * q + d4) * q + 1).

(** [for (i = 1; i < data.length; i++)
      push(Math.log(data[i].price / data[i-1].price))]. *)
Fixpoint logReturns (data : list StockDataPoint) : list R :=
  match data with
  | prev :: ((cur :: _) as rest) =>
      ln (price cur / price prev) :: logReturns rest
  | _ => []
  end.

Record RiskMeasures : Type :=
  { returns : list R;
    histVaR : R; histCVaR : R;
    paraVaR : R; paraCVaR : R }.

(** The risk measures of the [useMemo] block from the point where the
    sorted series, [alpha] and [varIndex] are known. *)
Definition riskMeasures_at (dailyReturns : list R) (alpha horizon : R)
           (varIndex : nat) : RiskMeasures :=
  (* Historical Method *)
  let historicalVaR := - nth varIndex dailyReturns 0 * sqrt horizon in
  let losses := JS.slice dailyReturns 0 varIndex in
  let historicalCVaR :=
    if (0 <? length losses)%nat
    then - JS.sum losses / INR (length losses) * sqrt horizon
    else 0 in
  (* Parametric Method *)
  let mean := JS.sum dailyReturns / INR (length dailyReturns) in
  let variance :=
    fold_left (fun acc val => acc + (val - mean) ^ 2) dailyReturns 0
    / (INR (length dailyReturns) - 1) in
  let stdDev := sqrt variance in
  let parametricVaR :=
    - (mean + stdDev * normalInverseCDF alpha) * sqrt horizon in
  let parametricCVaR :=
    / alpha * stdDev * (1 / sqrt (2 * PI))
    * exp (- (normalInverseCDF alpha ^ 2) / 2) * sqrt horizon in
  {| returns := dailyReturns;
     histVaR := historicalVaR; histCVaR := historicalCVaR;
     paraVaR := parametricVaR; paraCVaR := parametricCVaR |}.

(** The risk part of the [useMemo] block, from the unsorted return
    series on; [confidence] is the slider value in percent.  The index
    [Math.floor(alpha * length)] is taken here over exact reals: where
    [alpha * length] is a whole number the doubles of the code can land on
    the index below, so what is proved about the tail of the series is
    proved of [riskMeasures_at], for every index. *)
Definition riskMeasures (unsorted : list R) (confidence horizon : R)
  : RiskMeasures :=
  let dailyReturns := JS.sort unsorted in
  let alpha := 1 - confidence / 100 in
  let varIndex := JS.floor_index (alpha * INR (length dailyReturns)) in
  riskMeasures_at dailyReturns alpha horizon varIndex.

(** The risk measures of the block, over the static price table it
    imports.  The block goes on to build the histogram below, whose
    increment throws on a series of equal returns. *)
Definition VaRCVaRModel (SP500_DATA : list StockDataPoint)
           (confidence horizon : R) : RiskMeasures :=
  riskMeasures (logReturns SP500_DATA) confidence horizon.

(** ** The histogram of the same [useMemo] block *)

Record Bin : Type := { range : R; count : nat }.

(** [bins[binIndex].count++]: a [binIndex] outside the array reads
    [undefined], and the increment throws. *)
Fixpoint bump (bins : list Bin) (binIndex : nat) : option (list Bin) :=
  match bins, binIndex with
  | [], _ => None
  | b :: rest, O => Some ({| range := range b; count := S (count b) |} :: rest)
  | b :: rest, S i =>
      match bump rest i with
      | Some rest' => Some (b :: rest')
      | None => None
      end
  end.

(** [Math.min(numBins - 1, Math.floor((r - minReturn) / binWidth))], for
    [binWidth <> 0]. *)
Definition binIndex_of (numBins : nat) (minReturn binWidth r : R) : Z :=
  Z.min (Z.of_nat numBins - 1) (Zfloor ((r - minReturn) / binWidth)).

(** The callback of [dailyReturns.forEach].  For [binWidth = 0] the
    quotient [(r - minReturn) / binWidth] is not a real number: it is
    [NaN] for [r = minReturn] and [-Infinity] below it, which index no bin,
    so the increment throws; [+Infinity] is clamped to the last bin. *)
Definition count_return (numBins : nat) (minReturn binWidth : R)
           (r : R) (bins : list Bin) : option (list Bin) :=
  if Req_dec_T binWidth 0 then
    if Rlt_dec 0 (r - minReturn) then bump bins (numBins - 1) else None
  else
    let binIndex := binIndex_of numBins minReturn binWidth r in
    if (binIndex <? 0)%Z then None else bump bins (Z.to_nat binIndex).

(** The histogram of the sorted returns; [None] when an increment throws. *)
Definition histogram (dailyReturns : list R) : option (list Bin) :=
  let minReturn := JS.min_of dailyReturns in
  let maxReturn := JS.max_of dailyReturns in
  let numBins := 20%nat in
  let binWidth := (maxReturn - minReturn) / INR numBins in
  let bins :=
    map (fun i => {| range := minReturn + INR i * binWidth; count := 0 |})
        (seq 0 numBins) in
  JS.for_each (count_return numBins minReturn binWidth) dailyReturns bins.

(** [histData] as the block returns it. *)
Definition histData (SP500_DATA : list StockDataPoint) : option (list Bin) :=
  histogram (JS.sort (logReturns SP500_DATA)).

End VaRCVaRModel.

(* ================================================================== *)
(** * features/models.ts: GarchModel *)

Module GarchModel.

Definition omega : R := 0.000001.
Definition alpha : R := 0.1.
Definition beta : R := 0.88.

(** Forecast rows; the calendar date of a row, [lastDate] plus [i] days, is
    kept as the day offset [i]. *)
Record ForecastPoint : Type := { day : nat; volatility : R }.
Record ConePoint : Type := { cone_day : nat; range : R * R }.

Record ForecastState : Type :=
  { lastVariance : R;
    volForecast : list ForecastPoint;
    priceForecast : list ConePoint }.

(** Seed: [returns.reduce((acc, val) => acc + val*val, 0) / returns.length]. *)
Definition seedVariance (returns : list R) : R :=
  fold_left (fun acc val => acc + val * val) returns 0 / INR (length returns).

(** Body of the forecast loop for day [i]. *)
Definition forecast_body (returns : list R) (lastPrice : R)
           (i : nat) (st : ForecastState) : ForecastState :=
  let lastVariance' :=
    omega + alpha * (JS.last_elt returns ^ 2) + beta * lastVariance st in
  let dailyVol := sqrt lastVariance' in
  let annualizedVol := dailyVol * sqrt 252 in
  let centerPrice := lastPrice in
  let coneWidth := centerPrice * annualizedVol * sqrt (INR i / 252) in
  {| lastVariance := lastVariance';
     volForecast := volForecast st
                    ++ [{| day := i; volatility := annualizedVol * 100 |}];
     priceForecast := priceForecast st
                    ++ [{| cone_day := i;
                           range := (centerPrice - coneWidth,
                                     centerPrice + coneWidth) |}] |}.

(** [for (let i = 1; i <= forecastDays; i++) ...] from the seed. *)
Definition forecast (returns : list R) (lastPrice : R) (forecastDays : nat)
  : ForecastState :=
  JS.loop_up (forecast_body returns lastPrice) 1 forecastDays
    {| lastVariance := seedVariance returns;
       volForecast := []; priceForecast := [] |}.

(** The component runs the loop for [forecastDays = 60]. *)
Definition GarchModel (SP500_DATA : list StockDataPoint) : ForecastState :=
  forecast (VaRCVaRModel.logReturns SP500_DATA)
           (price (last SP500_DATA {| date := EmptyString; price := 0 |}))
           60.

(** The running variance estimate after [n] forecast steps. *)
Definition variance_after (returns : list R) (lastPrice : R) (n : nat) : R :=
  lastVariance (forecast returns lastPrice n).

End GarchModel.

(* ================================================================== *)
(** * features/models.ts: MonteCarloModel (GBM, Asian option)

    In this and the next three simulators [sqrt dt] is the [Math.sqrt(dt)]
    of the code for [dt >= 0], that is for a horizon [T >= 0]; for a
    negative horizon the code's root is NaN. *)

Module MonteCarloModel.

Record PathPoint : Type := { time : R; price : R }.

Record PathState : Type :=
  { currentPrice : R; priceSum : R; path : list PathPoint }.

Definition step_body (dt drift diffusion : R)
           (j : nat) (st : PathState) : JS.Rand PathState :=
  z <- JS.randomNormal ;;
  let currentPrice' := currentPrice st * exp (drift + diffusion * z) in
  JS.ret {| currentPrice := currentPrice';
            priceSum := priceSum st + currentPrice';
            path := path st
                    ++ [{| time := INR j * dt; price := currentPrice' |}] |}.

Record Acc : Type := { allPaths : list (list PathPoint); totalPayoff : R }.

Definition path_body (S0 K dt drift diffusion : R) (steps : nat)
           (i : nat) (acc : Acc) : JS.Rand Acc :=
  st <- JS.for_rand (step_body dt drift diffusion) 1 steps
          {| currentPrice := S0; priceSum := S0;
             path := [{| time := 0; price := S0 |}] |} ;;
  let avgPrice := priceSum st / (INR steps + 1) in
  JS.ret {| allPaths := allPaths acc ++ [path st];
            totalPayoff := totalPayoff acc + Rmax 0 (avgPrice - K) |}.

Record Result : Type :=
  { chartPaths : list (list PathPoint); asianOptionPrice : R }.

Definition generatePaths (S0 K T r sigma : R) (steps paths : nat)
  : JS.Rand Result :=
  let dt := T / INR steps in
  let drift := (r - 0.5 * sigma * sigma) * dt in
  let diffusion := sigma * sqrt dt in
  acc <- JS.for_rand (path_body S0 K dt drift diffusion steps) 0 paths
           {| allPaths := []; totalPayoff := 0 |} ;;
  JS.ret {| chartPaths := JS.slice (allPaths acc) 0 25;
            asianOptionPrice :=
              (totalPayoff acc / INR paths) * exp (- r * T) |}.

(** ** The simulator with [NaN] tracked

    [generatePaths] once more, operation by operation, with the square
    root of [dt] kept as the [NaN] it is when [dt] is negative.  With zero
    paths the final quotient is [0 / 0]. *)








End MonteCarloModel.

(* ================================================================== *)
(** * features/models.ts: MertonJumpDiffusionModel *)

Module MertonJumpDiffusionModel.

Record PathPoint : Type := { time : R; price : R }.

Record PathState : Type := { currentPrice : R; path : list PathPoint }.

Definition step_body (r sigma lambda mu delta dt : R)
           (j : nat) (st : PathState) : JS.Rand PathState :=
  poissonDraw <- JS.Math_random ;;
  jump <- (if JS.lt poissonDraw (lambda * dt)
           then (z <- JS.randomNormal ;; JS.ret (exp (mu + delta * z) - 1))
           else JS.ret 0) ;;
  let drift := (r - 0.5 * sigma * sigma
                - lambda * (exp (mu + 0.5 * delta * delta) - 1)) * dt in
  z <- JS.randomNormal ;;
  let diffusion := sigma * sqrt dt * z in
  let currentPrice' := currentPrice st * (exp (drift + diffusion) * (1 + jump)) in
  JS.ret {| currentPrice := currentPrice';
            path := path st
                    ++ [{| time := INR j * dt; price := currentPrice' |}] |}.

Definition path_body (S0 r sigma lambda mu delta dt : R) (steps : nat)
           (i : nat) (paths : list (list PathPoint))
  : JS.Rand (list (list PathPoint)) :=
  st <- JS.for_rand (step_body r sigma lambda mu delta dt) 1 steps
          {| currentPrice := S0; path := [{| time := 0; price := S0 |}] |} ;;
  JS.ret (paths ++ [path st]).

Definition generateJumpPaths (S0 T r sigma lambda mu delta : R)
  : JS.Rand (list (list PathPoint)) :=
  let steps := 252%nat in
  let dt := T / INR steps in
  JS.for_rand (path_body S0 r sigma lambda mu delta dt steps) 0 20 [].

End MertonJumpDiffusionModel.

(* ================================================================== *)
(** * features/interest_rate_models/InterestRateModel.tsx *)

Module InterestRateModel.

Record PathPoint : Type := { time : R; rate : R }.

Record PathState : Type := { currentRate : R; path : list PathPoint }.

Definition step_body (a b sigma dt : R)
           (j : nat) (st : PathState) : JS.Rand PathState :=
  z <- JS.randomNormal ;;
  let dW := z * sqrt dt in
  let drift := a * (b - currentRate st) * dt in
  let diffusion := sigma * sqrt (Rmax 0 (currentRate st)) * dW in
  let currentRate1 := currentRate st + (drift + diffusion) in
  let currentRate2 := Rmax 0 currentRate1 in
  JS.ret {| currentRate := currentRate2;
            path := path st
                    ++ [{| time := INR j * dt; rate := currentRate2 |}] |}.

Definition path_body (r0 a b sigma dt : R) (steps : nat)
           (i : nat) (paths : list (list PathPoint))
  : JS.Rand (list (list PathPoint)) :=
  st <- JS.for_rand (step_body a b sigma dt) 1 steps
          {| currentRate := r0; path := [{| time := 0; rate := r0 |}] |} ;;
  JS.ret (paths ++ [path st]).

Definition generateCIRPaths (r0 a b sigma T : R)
  : JS.Rand (list (list PathPoint)) :=
  let steps := 252%nat in
  let dt := T / INR steps in
  JS.for_rand (path_body r0 a b sigma dt steps) 0 25 [].

(** Component state; [r0], [b] and [sigma] are slider values in percent. *)
Record ModelParams : Type := { r0 : R; T : R; a : R; b : R; sigma : R }.

Record ChartPaths : Type :=
  { paths : list (list PathPoint); fellerMet : bool }.

(** The [chartPaths] [useMemo] block. *)
Definition chartPaths (debouncedParams : ModelParams) : JS.Rand ChartPaths :=
  let fellerConditionMet :=
    JS.ge (2 * a debouncedParams * b debouncedParams)
          (sigma debouncedParams ^ 2) in
  ps <- generateCIRPaths (r0 debouncedParams / 100) (a debouncedParams)
          (b debouncedParams / 100) (sigma debouncedParams / 100)
          (T debouncedParams) ;;
  JS.ret {| paths := ps; fellerMet := fellerConditionMet |}.

End InterestRateModel.

(* ================================================================== *)
(** * features/portfolio_simulator/PortfolioSimulator.tsx *)

Module PortfolioSimulator.

Record PathPoint : Type := { time : R; value : R }.

Record PathState : Type := { currentValue : R; path : list PathPoint }.

Definition step_body (mean vol dt : R)
           (j : nat) (st : PathState) : JS.Rand PathState :=
  let drift := (mean - 0.5 * vol ^ 2) * dt in
  z <- JS.randomNormal ;;
  let diffusion := vol * sqrt dt * z in
  let currentValue' := currentValue st * exp (drift + diffusion) in
  JS.ret {| currentValue := currentValue';
            path := path st
                    ++ [{| time := INR j * dt; value := currentValue' |}] |}.

Record Acc : Type :=
  { allPaths : list (list PathPoint); finalValues : list R }.

Definition path_body (initialValue mean vol dt : R) (steps : nat)
           (i : nat) (acc : Acc) : JS.Rand Acc :=
  st <- JS.for_rand (step_body mean vol dt) 1 steps
          {| currentValue := initialValue;
             path := [{| time := 0; value := initialValue |}] |} ;;
  JS.ret {| allPaths := allPaths acc ++ [path st];
            finalValues := finalValues acc ++ [currentValue st] |}.

Record Percentiles : Type := { p5 : R; p50 : R; p95 : R }.
Record ConePoint : Type := { cone_time : R; range : R * R }.

Definition cone_body (initialValue mean vol dt : R)
           (j : nat) (coneData : list ConePoint) : list ConePoint :=
  let time := INR j * dt in
  let center := initialValue * exp (mean * time) in
  let width := initialValue * exp (mean * time) * vol * sqrt time * 1.645 in
  coneData ++ [{| cone_time := time;
                  range := (Rmax 0 (center - width), center + width) |}].

Record Result : Type :=
  { paths : list (list PathPoint);
    percentiles : Percentiles;
    coneData : list ConePoint }.

Definition generatePortfolioPaths (initialValue mean vol T : R) (npaths : nat)
  : JS.Rand Result :=
  let steps := 100%nat in
  let dt := T / INR steps in
  acc <- JS.for_rand (path_body initialValue mean vol dt steps) 0 npaths
           {| allPaths := []; finalValues := [] |} ;;
  let sorted := JS.sort (finalValues acc) in
  JS.ret {| paths := JS.slice (allPaths acc) 0 50;
            percentiles :=
              {| p5 := nth (JS.floor_index (INR npaths * 0.05)) sorted 0;
                 p50 := nth (JS.floor_index (INR npaths * 0.5)) sorted 0;
                 p95 := nth (JS.floor_index (INR npaths * 0.95)) sorted 0 |};
            coneData :=
              JS.loop_up (cone_body initialValue mean vol dt) 0 (steps + 1) [] |}.

(** ** Portfolio statistics

    [STOCK_DATA] is the imported price table, an object keyed by ticker:
    a lookup yields the series or [undefined]. *)

Record PortfolioAsset : Type := { ticker : string; weight : R }.

Record AssetStat : Type :=
  { stat_ticker : string; stat_weight : R; annualReturn : R; annualVol : R }.

Record Stats : Type := { mean : R; vol : R }.

(** The callback of [portfolio.map(asset => ...)]. *)
Definition assetStat (STOCK_DATA : string -> option (list StockDataPoint))
           (asset : PortfolioAsset) : AssetStat :=
  let flat := {| stat_ticker := ticker asset; stat_weight := weight asset;
                 annualReturn := 0; annualVol := 0 |} in
  match STOCK_DATA (ticker asset) with
  | None => flat
  | Some assetData =>
      if (length assetData <? 2)%nat then flat
      else
        let returns := VaRCVaRModel.logReturns assetData in
        if (length returns <? 2)%nat then flat
        else
          let meanDailyReturn := JS.sum returns / INR (length returns) in
          let variance :=
            fold_left (fun acc val => acc + (val - meanDailyReturn) ^ 2)
                      returns 0
            / (INR (length returns) - 1) in
          let dailyVol := sqrt variance in
          {| stat_ticker := ticker asset; stat_weight := weight asset;
             annualReturn := meanDailyReturn * 252;
             annualVol := dailyVol * sqrt 252 |}
  end.

Definition no_stat : AssetStat :=
  {| stat_ticker := EmptyString; stat_weight := 0;
     annualReturn := 0; annualVol := 0 |}.

(** Body of the inner loop over [j] for a fixed [i]. *)
Definition variance_body (assetStats : list AssetStat) (i : nat)
           (j : nat) (portfolioVariance : R) : R :=
  let avgCorrelation := 0.4 in
  let si := nth i assetStats no_stat in
  let sj := nth j assetStats no_stat in
  if (i =? j)%nat then
    portfolioVariance + stat_weight si ^ 2 * annualVol si ^ 2
  else
    portfolioVariance
    + stat_weight si * stat_weight sj * annualVol si * annualVol sj
      * avgCorrelation.

(** The double loop over the asset statistics. *)
Definition portfolioVariance (assetStats : list AssetStat) : R :=
  JS.loop_up
    (fun i => JS.loop_up (variance_body assetStats i) 0 (length assetStats))
    0 (length assetStats) 0.

Definition calculatePortfolioStats
           (STOCK_DATA : string -> option (list StockDataPoint))
           (portfolio : list PortfolioAsset) : Stats :=
  if (length portfolio =? 0)%nat then {| mean := 0; vol := 0 |}
  else
    let assetStats := map (assetStat STOCK_DATA) portfolio in
    let portfolioMeanReturn :=
      fold_left (fun acc stat => acc + annualReturn stat * stat_weight stat)
                assetStats 0 in
    let safeVariance := Rmax 0 (portfolioVariance assetStats) in
    {| mean := portfolioMeanReturn; vol := sqrt safeVariance |}.

(** ** The portfolio editor

    The handlers of the component, as functions from the component state
    to the state they set. *)

Record EditorState : Type :=
  { portfolio : list PortfolioAsset; newTicker : string }.

Definition totalWeight (assets : list PortfolioAsset) : R :=
  fold_left (fun sum a => sum + weight a) assets 0.

(** [normalizeWeights(assets)]: the portfolio it sets. *)
Definition normalizeWeights (assets : list PortfolioAsset)
  : list PortfolioAsset :=
  let total := totalWeight assets in
  if JS.gt total 0 then
    map (fun a => {| ticker := ticker a; weight := weight a / total |}) assets
  else assets.

(** [handleAddAsset]; [toUpperCase] is the string method it calls. *)
Definition handleAddAsset (toUpperCase : string -> string)
           (STOCK_DATA : string -> option (list StockDataPoint))
           (st : EditorState) : EditorState :=
  let tickerUpper := toUpperCase (newTicker st) in
  let nonEmpty := negb (String.eqb tickerUpper EmptyString) in
  let known := match STOCK_DATA tickerUpper with
               | Some _ => true | None => false end in
  let present := match find (fun a => String.eqb (ticker a) tickerUpper)
                            (portfolio st) with
                 | Some _ => true | None => false end in
  if nonEmpty && known && negb present then
    let newPortfolio :=
      portfolio st ++ [{| ticker := tickerUpper; weight := 0 |}] in
    {| portfolio := normalizeWeights newPortfolio; newTicker := EmptyString |}
  else st.

Definition handleRemoveAsset (t : string) (st : EditorState) : EditorState :=
  let newPortfolio :=
    filter (fun a => negb (String.eqb (ticker a) t)) (portfolio st) in
  {| portfolio := normalizeWeights newPortfolio; newTicker := newTicker st |}.

Definition handleWeightChange (t : string) (newWeight : R) (st : EditorState)
  : EditorState :=
  let newPortfolio :=
    map (fun a => if String.eqb (ticker a) t
                  then {| ticker := ticker a; weight := newWeight / 100 |}
                  else a)
        (portfolio st) in
  {| portfolio := newPortfolio; newTicker := newTicker st |}.

(** The statistics and simulation [useMemo] block: the volatility handed
    to the simulator is capped at 5. *)
Definition simulate (STOCK_DATA : string -> option (list StockDataPoint))
           (pf : list PortfolioAsset) (initialValue T : R) (debouncedPaths : nat)
  : JS.Rand (Stats * Result) :=
  let stats := calculatePortfolioStats STOCK_DATA pf in
  let cappedVol := Rmin (vol stats) 5.0 in
  sim <- generatePortfolioPaths initialValue (mean stats) cappedVol T
           debouncedPaths ;;
  JS.ret (stats, sim).

End PortfolioSimulator.

(* ================================================================== *)
(** * The pairs-trading component (PairsTradingModel) *)

Module PairsTradingModel.

Record Merged : Type := { mdate : string; price1 : R; price2 : R }.

(** [data1.forEach(p1 => { const p2 = data2.find(p => p.date === p1.date);
      if (p2) mergedData.push({ date, price1, price2 }) })]. *)
Definition merge (data1 data2 : list StockDataPoint) : list Merged :=
  fold_left
    (fun mergedData p1 =>
       match find (fun p => String.eqb (date p) (date p1)) data2 with
       | Some p2 => mergedData ++ [{| mdate := date p1;
                                      price1 := price p1;
                                      price2 := price p2 |}]
       | None => mergedData
       end)
    data1 [].

(** [inTrade]: [0] no trade, [1] short spread, [-1] long spread. *)
Inductive Position : Type := Flat | ShortSpread | LongSpread.

(** The [type] field of a trade signal: ['SHORT'], ['LONG'], ['EXIT']. *)
Inductive SignalType : Type := SHORT | LONG | EXIT.

Record TradeSignal : Type :=
  { sdate : string; type : SignalType; z : R; ratio : R }.

Record SpreadPoint : Type :=
  { pdate : string; pratio : R;
    ma : option R; upperBand : option R; lowerBand : option R;
    zScore : option R }.

Record LoopState : Type :=
  { spreadAnalysisData : list SpreadPoint;
    tradeSignals : list TradeSignal;
    inTrade : Position }.

Definition ratio_of (d : Merged) : R := price1 d / price2 d.

Definition no_data : Merged :=
  {| mdate := EmptyString; price1 := 0; price2 := 0 |}.

(** The rolling statistics of point [i], computed when the window is full.
    Under the guard [i >= lookback - 1] the start of the window,
    [i - lookback + 1], is the natural number [i + 1 - lookback].  The
    z-score is the number of the code on a window whose deviation is not
    zero; on a constant window the code divides zero by zero, its z-score
    is NaN and every comparison with it is false. *)
Definition movingAvg_at (lookback : nat) (mergedData : list Merged) (i : nat) : R :=
  let window := map ratio_of (JS.slice mergedData (i + 1 - lookback) (i + 1)) in
  JS.sum window / INR lookback.

Definition movingStd_at (lookback : nat) (mergedData : list Merged) (i : nat) : R :=
  let window := map ratio_of (JS.slice mergedData (i + 1 - lookback) (i + 1)) in
  let movingAvg := movingAvg_at lookback mergedData i in
  let variance :=
    fold_left (fun acc val => acc + (val - movingAvg) ^ 2) window 0
    / INR lookback in
  sqrt variance.

Definition zScore_at (lookback : nat) (mergedData : list Merged) (i : nat) : R :=
  (ratio_of (nth i mergedData no_data) - movingAvg_at lookback mergedData i)
  / movingStd_at lookback mergedData i.

(** The block under the comment "Signal Logic". *)
Definition signal_logic (entryZ exitZ : R) (d : string) (zs rt : R)
           (inTrade : Position) (tradeSignals : list TradeSignal)
  : Position * list TradeSignal :=
  match inTrade with
  | Flat =>
      if JS.gt zs entryZ then
        (ShortSpread,
         tradeSignals ++ [{| sdate := d; type := SHORT; z := zs; ratio := rt |}])
      else if JS.lt zs (- entryZ) then
        (LongSpread,
         tradeSignals ++ [{| sdate := d; type := LONG; z := zs; ratio := rt |}])
      else (inTrade, tradeSignals)
  | ShortSpread =>
      if JS.lt zs exitZ then
        (Flat,
         tradeSignals ++ [{| sdate := d; type := EXIT; z := zs; ratio := rt |}])
      else (inTrade, tradeSignals)
  | LongSpread =>
      if JS.gt zs (- exitZ) then
        (Flat,
         tradeSignals ++ [{| sdate := d; type := EXIT; z := zs; ratio := rt |}])
      else (inTrade, tradeSignals)
  end.

(** JavaScript truthiness of a number: zero is falsy. *)
Definition truthy (x : R) : bool := if Req_dec_T x 0 then false else true.

(** Body of [for (let i = 0; i < mergedData.length; i++)]. *)
Definition loop_body (lookback : nat) (entryZ exitZ : R)
           (mergedData : list Merged) (i : nat) (st : LoopState) : LoopState :=
  let cur := nth i mergedData no_data in
  let rt := ratio_of cur in
  if (lookback - 1 <=? i)%nat then
    let movingAvg := movingAvg_at lookback mergedData i in
    let movingStd := movingStd_at lookback mergedData i in
    let zs := zScore_at lookback mergedData i in
    let (inTrade', tradeSignals') :=
      signal_logic entryZ exitZ (mdate cur) zs rt
                   (inTrade st) (tradeSignals st) in
    let bands := truthy movingAvg && truthy movingStd in
    {| spreadAnalysisData :=
         spreadAnalysisData st
         ++ [{| pdate := mdate cur; pratio := rt;
                ma := Some movingAvg;
                upperBand := if bands then Some (movingAvg + entryZ * movingStd)
                             else None;
                lowerBand := if bands then Some (movingAvg - entryZ * movingStd)
                             else None;
                zScore := Some zs |}];
       tradeSignals := tradeSignals';
       inTrade := inTrade' |}
  else
    {| spreadAnalysisData :=
         spreadAnalysisData st
         ++ [{| pdate := mdate cur; pratio := rt;
                ma := None; upperBand := None; lowerBand := None;
                zScore := None |}];
       tradeSignals := tradeSignals st;
       inTrade := inTrade st |}.

Definition initial : LoopState :=
  {| spreadAnalysisData := []; tradeSignals := []; inTrade := Flat |}.

(** The loop over the merged series. *)
Definition run (lookback : nat) (entryZ exitZ : R) (mergedData : list Merged)
  : LoopState :=
  JS.loop_up (loop_body lookback entryZ exitZ mergedData)
             0 (length mergedData) initial.

(** The [useMemo] block over the two price tables it imports. *)
Definition PairsTradingModel (KO PEP : list StockDataPoint)
           (lookback : nat) (entryZ exitZ : R) : LoopState :=
  run lookback entryZ exitZ (merge KO PEP).

(** ** Reading the signal list *)

Definition is_enter (s : TradeSignal) : bool :=
  match type s with SHORT | LONG => true | EXIT => false end.

Definition is_exit (s : TradeSignal) : bool :=
  match type s with EXIT => true | _ => false end.

Definition count_enter (l : list TradeSignal) : nat :=
  length (filter is_enter l).

Definition count_exit (l : list TradeSignal) : nat :=
  length (filter is_exit l).

(** Enter and Exit alternate, starting with an Enter: the list is read
    from the front; [true] means the next signal must be an Enter. *)
Fixpoint alternates_from (expect_enter : bool) (l : list TradeSignal) : Prop :=
  match l with
  | [] => True
  | s :: rest =>
      is_enter s = expect_enter /\ alternates_from (negb expect_enter) rest
  end.

(** [mergedData.map(d => ({ ...d, ko: ..., pep: ... }))]: the two price
    series rebased on the first merged point. *)
Record PricePoint : Type :=
  { ndate : string; nprice1 : R; nprice2 : R; ko : R; pep : R }.

Definition normalizedPriceData (mergedData : list Merged) : list PricePoint :=
  map (fun d =>
         {| ndate := mdate d; nprice1 := price1 d; nprice2 := price2 d;
            ko := price1 d / price1 (nth 0 mergedData no_data) * 100;
            pep := price2 d / price2 (nth 0 mergedData no_data) * 100 |})
      mergedData.

End PairsTradingModel.

(* ================================================================== *)
(** * features/portfolio_simulator/PortfolioSimulator.tsx:
      StochasticControlModel *)

Module StochasticControlModel.

Record AllocationRow : Type := { name : string; value : R }.

Record Result : Type :=
  { allocation : list AllocationRow; riskyFraction : R }.

(** The [useMemo] block; [mu], [sigma] and [r] are slider values in
    percent. *)
Definition allocate (gamma mu sigma r : R) : Result :=
  let muDecimal := mu / 100 in
  let sigmaDecimal := sigma / 100 in
  let rDecimal := r / 100 in
  (* Merton's portfolio fraction formula *)
  let calculatedFraction :=
    (muDecimal - rDecimal) / (gamma * sigmaDecimal ^ 2) in
  let cappedRisky := Rmax (-1) (Rmin 2 calculatedFraction) in
  let allocationData :=
    [ {| name := "Risky Asset (Stocks)"; value := cappedRisky |};
      {| name := "Risk-Free Asset (Bonds)"; value := 1 - cappedRisky |} ] in
  {| allocation := allocationData; riskyFraction := calculatedFraction |}.

End StochasticControlModel.

(* ================================================================== *)
(** * features/american_options/AmericanOptionsModel.tsx *)

Module AmericanOptionsModel.

Record BoundaryPoint : Type :=
  { time : R; boundary : R * R; point : R }.

(** Body of [for (let i = 0; i <= steps; i++)] in [generateBoundary]. *)
Definition boundary_body (K T r sigma : R) (i : nat)
           (data : list BoundaryPoint) : list BoundaryPoint :=
  let steps := 50 in
  let r_div := r in
  let sigma_sq := sigma * sigma in
  let t_to_expiry := INR i / steps * T in
  if Req_dec_T t_to_expiry 0 then
    data ++ [{| time := T; boundary := (K, K * 1.5); point := K |}]
  else
    let M := 2 * r_div / sigma_sq in
    let N := 2 * r_div / sigma_sq in
    let K_val := 1 - exp (- r_div * t_to_expiry) in
    let q2 := (- (N - 1) + sqrt ((N - 1) ^ 2 + 4 * M / K_val)) / 2 in
    let S_crit := K * (q2 - 1) / q2 in
    data ++ [{| time := T - t_to_expiry; boundary := (0, S_crit);
                point := S_crit |}].

Definition generateBoundary (K T r sigma : R) : list BoundaryPoint :=
  JS.sort_by time (JS.loop_up (boundary_body K T r sigma) 0 51 []).

(** The component calls it with the rate and volatility sliders, which
    are in percent. *)
Definition boundaryData (K T r sigma : R) : list BoundaryPoint :=
  generateBoundary K T (r / 100) (sigma / 100).

End AmericanOptionsModel.

(* ================================================================== *)
(** * Quantities named in the statements *)

(** The value [normalCDF] calls [prob]. *)
Definition tail_prob (x : R) : R :=
  let t := 1 / (1 + 0.2316419 * Rabs x) in
  let d := 0.3989423 * exp (- x * x / 2) in
  d * t * (0.3193815 + t * (-0.3565638 + t * (1.781478
      + t * (-1.821256 + t * 1.330274)))).

(** The signal that [loop_body] pushes at point [i]. *)
Definition signal_at (lookback : nat) (mergedData : list PairsTradingModel.Merged)
           (i : nat) (ty : PairsTradingModel.SignalType)
  : PairsTradingModel.TradeSignal :=
  let cur := nth i mergedData PairsTradingModel.no_data in
  {| PairsTradingModel.sdate := PairsTradingModel.mdate cur;
     PairsTradingModel.type := ty;
     PairsTradingModel.z := PairsTradingModel.zScore_at lookback mergedData i;
     PairsTradingModel.ratio := PairsTradingModel.ratio_of cur |}.

(** What the loop maintains: the signals alternate from an Enter, and the
    position records whether the last signal was an Enter. *)
Definition signals_consistent (st : PairsTradingModel.LoopState) : Prop :=
  let sigs := PairsTradingModel.tradeSignals st in
  PairsTradingModel.alternates_from true sigs
  /\ match PairsTradingModel.inTrade st with
     | PairsTradingModel.Flat =>
         Nat.even (length sigs) = true
         /\ PairsTradingModel.count_enter sigs = PairsTradingModel.count_exit sigs
     | _ =>
         Nat.even (length sigs) = false
         /\ PairsTradingModel.count_enter sigs
            = S (PairsTradingModel.count_exit sigs)
     end.

(** A two-point merged series whose ratio jumps from 1 to 3. *)
Definition two_points : list PairsTradingModel.Merged :=
  [ {| PairsTradingModel.mdate := "2024-01-02";
       PairsTradingModel.price1 := 1; PairsTradingModel.price2 := 1 |};
    {| PairsTradingModel.mdate := "2024-01-03";
       PairsTradingModel.price1 := 3; PairsTradingModel.price2 := 1 |} ].

(** A path, or a family of paths, whose values are all non-negative. *)
Definition nonneg_path {Pt : Type} (val : Pt -> R) (path : list Pt) : Prop :=
  Forall (fun pt => 0 <= val pt) path.


(** One application of the GARCH update to a variance, with the shock held
    at the last observed return as the forecast loop does. *)
Definition garch_update (returns : list R) (v : R) : R :=
  GarchModel.omega + GarchModel.alpha * (JS.last_elt returns ^ 2)
  + GarchModel.beta * v.

(** The fixed point of that update. *)
Definition garch_limit (returns : list R) : R :=
  (GarchModel.omega + GarchModel.alpha * (JS.last_elt returns ^ 2))
  / (1 - GarchModel.beta).

(** The unconditional variance [omega / (1 - alpha - beta)]. *)
Definition unconditional_variance : R :=
  GarchModel.omega / (1 - GarchModel.alpha - GarchModel.beta).

(** The quantities the risk block names [varIndex], [mean] and [stdDev],
    and the standard normal density of its parametric CVaR. *)
Definition var_index (unsorted : list R) (confidence : R) : nat :=
  JS.floor_index ((1 - confidence / 100) * INR (length (JS.sort unsorted))).

Definition sample_mean (xs : list R) : R := JS.sum xs / INR (length xs).

Definition sample_stdDev (xs : list R) : R :=
  sqrt (fold_left (fun acc val => acc + (val - sample_mean xs) ^ 2) xs 0
        / (INR (length xs) - 1)).

Definition normal_density (z : R) : R := 1 / sqrt (2 * PI) * exp (- (z ^ 2) / 2).

(** A lattice layer of [m + 1] nodes holding the forward values
    [S * u^(m-i) * d^i - B]. *)
Definition forward_layer (S uu dd B : R) (m : nat) : list R :=
  map (fun i => S * uu ^ (m - i) * dd ^ i - B) (seq 0 (m + 1)).

(** The arguments [d1] and [d2] of the Black-Scholes pricer. *)
Definition bs_d1 (S K T r sigma : R) : R :=
  (ln (S / K) + (r / 100 + 0.5 * (sigma / 100) ^ 2) * T)
  / (sigma / 100 * sqrt T).

Definition bs_d2 (S K T r sigma : R) : R :=
  bs_d1 S K T r sigma - sigma / 100 * sqrt T.

(** The total of the bin counts of a histogram. *)
Definition total_count (bins : list VaRCVaRModel.Bin) : nat :=
  fold_right (fun b acc => (VaRCVaRModel.count b + acc)%nat) 0%nat bins.

(** A path of [steps + 1] points that starts at time [0] with the value
    [v0] and whose later points carry the times [j * dt], [j = 1..steps]. *)
Definition well_timed {Pt : Type} (time val : Pt -> R) (v0 dt : R)
           (steps : nat) (path : list Pt) : Prop :=
  exists first tail,
    path = first :: tail
    /\ time first = 0 /\ val first = v0
    /\ map time tail = map (fun j => INR j * dt) (seq 1 steps).

(** The sum of a list of numbers. *)
Definition list_sum (xs : list R) : R := fold_right Rplus 0 xs.

(** The volatility exposures [weight * annualVol] of a list of asset
    statistics. *)
Definition exposures (stats : list PortfolioSimulator.AssetStat) : list R :=
  map (fun s => PortfolioSimulator.stat_weight s * PortfolioSimulator.annualVol s)
      stats.

(** A portfolio with every weight multiplied by [c]. *)
Definition scale_weights (c : R) (pf : list PortfolioSimulator.PortfolioAsset)
  : list PortfolioSimulator.PortfolioAsset :=
  map (fun a => {| PortfolioSimulator.ticker := PortfolioSimulator.ticker a;
                   PortfolioSimulator.weight := c * PortfolioSimulator.weight a |})
      pf.

(** An entry signal lies beyond the entry threshold. *)
Definition beyond_entry (entryZ : R) (s : PairsTradingModel.TradeSignal) : Prop :=
  match PairsTradingModel.type s with
  | PairsTradingModel.SHORT => PairsTradingModel.z s > entryZ
  | PairsTradingModel.LONG => PairsTradingModel.z s < - entryZ
  | PairsTradingModel.EXIT => True
  end.

(** The date [d] occurs in the table [data]. *)
Definition has_date (data : list StockDataPoint) (d : string) : bool :=
  existsb (fun p => String.eqb (date p) d) data.

(** The z-score as the specification words it: the ratio at point [i]
    less the mean of the [lookback] ratios ending at [i], over their
    standard deviation (the mean squared deviation under the root). *)
Definition window_ratios (lookback : nat)
           (mergedData : list PairsTradingModel.Merged) (i : nat) : list R :=
  map (fun d => PairsTradingModel.price1 d / PairsTradingModel.price2 d)
      (firstn lookback (skipn (i + 1 - lookback) mergedData)).

Definition window_mean (lookback : nat)
           (mergedData : list PairsTradingModel.Merged) (i : nat) : R :=
  list_sum (window_ratios lookback mergedData i) / INR lookback.

Definition window_deviation (lookback : nat)
           (mergedData : list PairsTradingModel.Merged) (i : nat) : R :=
  sqrt (list_sum (map (fun v => (v - window_mean lookback mergedData i) ^ 2)
                      (window_ratios lookback mergedData i))
        / INR lookback).



(* ================================================================== *)
(** * Properties *)

(** ** Comparisons *)

Lemma lt_true_iff (x y : R) : JS.lt x y = true <-> x < y.
Proof. unfold JS.lt; destruct (Rlt_dec x y); split; intros; auto; discriminate. Qed.

Lemma le_true_iff (x y : R) : JS.le x y = true <-> x <= y.
Proof. unfold JS.le; destruct (Rle_dec x y); split; intros; auto; discriminate. Qed.

Lemma lt_false_iff (x y : R) : JS.lt x y = false <-> ~ x < y.
Proof. unfold JS.lt; destruct (Rlt_dec x y); split; intros; auto; try discriminate; contradiction. Qed.

Lemma le_false_iff (x y : R) : JS.le x y = false <-> ~ x <= y.
Proof. unfold JS.le; destruct (Rle_dec x y); split; intros; auto; try discriminate; contradiction. Qed.

Lemma gt_true_iff (x y : R) : JS.gt x y = true <-> x > y.
Proof. unfold JS.gt; rewrite lt_true_iff; reflexivity. Qed.

Lemma gt_false_iff (x y : R) : JS.gt x y = false <-> ~ x > y.
Proof. unfold JS.gt; rewrite lt_false_iff; reflexivity. Qed.

Lemma ge_true_iff (x y : R) : JS.ge x y = true <-> x >= y.
Proof. unfold JS.ge; rewrite le_true_iff; split; lra. Qed.

Lemma ge_false_iff (x y : R) : JS.ge x y = false <-> ~ x >= y.
Proof. unfold JS.ge; rewrite le_false_iff; split; lra. Qed.

(** Decide a comparison whose operands are known. *)
Ltac cmp :=
  repeat match goal with
    | |- context [JS.lt ?x ?y] =>
        let H := fresh in
        destruct (JS.lt x y) eqn:H;
        [apply lt_true_iff in H | apply lt_false_iff in H]
    | |- context [JS.le ?x ?y] =>
        let H := fresh in
        destruct (JS.le x y) eqn:H;
        [apply le_true_iff in H | apply le_false_iff in H]
    | |- context [JS.gt ?x ?y] =>
        let H := fresh in
        destruct (JS.gt x y) eqn:H;
        [apply gt_true_iff in H | apply gt_false_iff in H]
    | |- context [JS.ge ?x ?y] =>
        let H := fresh in
        destruct (JS.ge x y) eqn:H;
        [apply ge_true_iff in H | apply ge_false_iff in H]
    end.

(* ------------------------------------------------------------------ *)
(** ** Black-Scholes: the degenerate branch *)

Lemma degenerate_guard (T sigmaDecimal : R) :
  T <= 0 \/ sigmaDecimal <= 0 -> JS.le T 0 || JS.le sigmaDecimal 0 = true.
Proof.
  intros [HT | Hs]; apply orb_true_iff.
  - left. now apply le_true_iff.
  - right. now apply le_true_iff.
Qed.

Lemma prices_degenerate (S K T r sigma : R) :
  T <= 0 \/ sigma <= 0 ->
  BlackScholesModel.prices S K T r sigma
  = {| BlackScholesModel.callPrice := 0; BlackScholesModel.putPrice := 0 |}.
Proof.
  intros Hdeg. unfold BlackScholesModel.prices.
  rewrite degenerate_guard; [reflexivity |].
  destruct Hdeg; [left | right]; lra.
Qed.

Lemma blackScholesCall_degenerate (S K T r sigma : R) :
  T <= 0 \/ sigma <= 0 ->
  BinomialOptionPricingModel.blackScholesCall S K T r sigma
  = Rmax 0 (S - K * exp (- r * T)).
Proof.
  intros Hdeg. unfold BinomialOptionPricingModel.blackScholesCall.
  now rewrite degenerate_guard.
Qed.

(** C1, as the sources have it.  When [T <= 0] or [sigma <= 0] the
    Black-Scholes panel returns call 0 and put 0, and the comparison
    helper [blackScholesCall] of the lattice panel returns
    [max(0, S - K*exp(-r*T))], which is the intrinsic [max(0, S - K)] at
    [T = 0]; neither fails. *)
Theorem degenerate_prices (S K T r sigma : R) :
  T <= 0 \/ sigma <= 0 ->
  BlackScholesModel.prices S K T r sigma
  = {| BlackScholesModel.callPrice := 0; BlackScholesModel.putPrice := 0 |}
  /\ BinomialOptionPricingModel.blackScholesCall S K T (r / 100) (sigma / 100)
     = Rmax 0 (S - K * exp (- (r / 100) * T))
  /\ (T = 0 ->
      BinomialOptionPricingModel.blackScholesCall S K T (r / 100) (sigma / 100)
      = Rmax 0 (S - K)).
Proof.
  intros Hdeg.
  assert (Hdec : T <= 0 \/ sigma / 100 <= 0) by (destruct Hdeg; [left | right]; lra).
  split; [now apply prices_degenerate |].
  split; [now apply blackScholesCall_degenerate |].
  intros ->. rewrite blackScholesCall_degenerate by (left; lra).
  rewrite Rmult_0_r, exp_0. f_equal. lra.
Qed.

Lemma degenerate_prices_witness :
  (0 <= 0 \/ 20 <= 0)
  /\ BlackScholesModel.prices 110 100 0 5 20
     = {| BlackScholesModel.callPrice := 0; BlackScholesModel.putPrice := 0 |}.
Proof.
  split; [left; lra |].
  apply (degenerate_prices 110 100 0 5 20). left; lra.
Defined.

(** C1 as stated fails: at [S = 110], [K = 100], [T = 0] the intrinsic call
    value is [10], the pricer returns [0]. *)
Lemma degenerate_not_intrinsic :
  0 <= 0 /\
  ~ (BlackScholesModel.callPrice (BlackScholesModel.prices 110 100 0 5 20)
       = Rmax 0 (110 - 100)
     /\ BlackScholesModel.putPrice (BlackScholesModel.prices 110 100 0 5 20)
       = Rmax 0 (100 - 110)).
Proof.
  split; [lra |].
  rewrite (prices_degenerate 110 100 0 5 20) by (left; lra).
  simpl. intros [Hc _].
  rewrite Rmax_right in Hc by lra. lra.
Qed.

(* ------------------------------------------------------------------ *)
(** ** The normal-CDF approximation *)

Lemma normalCDF_unfold (x : R) :
  BlackScholesModel.normalCDF x
  = if JS.gt x 0 then 1 - tail_prob x else tail_prob x.
Proof. reflexivity. Qed.

Lemma normalCDF_copies (x : R) :
  BinomialOptionPricingModel.normalCDF x = BlackScholesModel.normalCDF x.
Proof. reflexivity. Qed.

Lemma tail_prob_even (x : R) : tail_prob (- x) = tail_prob x.
Proof.
  unfold tail_prob. rewrite Rabs_Ropp.
  replace (- - x * - x / 2) with (- x * x / 2) by lra.
  reflexivity.
Qed.

Lemma tail_prob_0 : tail_prob 0 = 0.3989423 * 1.2533137.
Proof.
  unfold tail_prob. rewrite Rabs_R0.
  replace (- 0 * 0 / 2) with 0 by lra. rewrite exp_0. lra.
Qed.

Lemma normalCDF_0 : BlackScholesModel.normalCDF 0 = 0.3989423 * 1.2533137.
Proof.
  rewrite normalCDF_unfold.
  replace (JS.gt 0 0) with false by (symmetry; apply gt_false_iff; lra).
  apply tail_prob_0.
Qed.

Lemma normalCDF_reflect (x : R) :
  x <> 0 -> BlackScholesModel.normalCDF (- x) = 1 - BlackScholesModel.normalCDF x.
Proof.
  intros Hx. rewrite !normalCDF_unfold, tail_prob_even.
  cmp; lra.
Qed.

(** C9, as the source has it.  [normalCDF(0)] is within [1e-6] of [0.5]
    (it is [0.3989423 * 1.2533137], not [0.5]); for every [x <> 0],
    [normalCDF(-x) = 1 - normalCDF(x)]; and for every [x],
    [normalCDF(x) + normalCDF(-x)] is within [1e-6] of [1].  Both copies of
    the function agree. *)
Theorem normalCDF_symmetry :
  Rabs (BlackScholesModel.normalCDF 0 - 0.5) < 0.000001
  /\ (forall x, x <> 0 ->
        BlackScholesModel.normalCDF (- x) = 1 - BlackScholesModel.normalCDF x)
  /\ (forall x,
        Rabs (BlackScholesModel.normalCDF x + BlackScholesModel.normalCDF (- x) - 1)
        < 0.000001)
  /\ (forall x,
        BinomialOptionPricingModel.normalCDF x = BlackScholesModel.normalCDF x).
Proof.
  split; [| split; [| split]].
  - rewrite normalCDF_0. apply Rabs_def1; lra.
  - apply normalCDF_reflect.
  - intros x. destruct (Req_dec x 0) as [-> | Hx].
    + rewrite Ropp_0, normalCDF_0. apply Rabs_def1; lra.
    + rewrite normalCDF_reflect by assumption.
      replace (_ - 1) with 0 by lra. rewrite Rabs_R0. lra.
  - apply normalCDF_copies.
Qed.

Lemma normalCDF_symmetry_witness :
  1 <> 0
  /\ BlackScholesModel.normalCDF (- 1) = 1 - BlackScholesModel.normalCDF 1.
Proof.
  split; [lra |].
  apply (proj1 (proj2 normalCDF_symmetry) 1). lra.
Defined.

(** C9 as stated fails at [x = 0]: the value is not [0.5], and
    [normalCDF(-0)] is not [1 - normalCDF(0)]. *)
Lemma normalCDF_0_not_half :
  BlackScholesModel.normalCDF 0 <> 0.5
  /\ BlackScholesModel.normalCDF (- 0) <> 1 - BlackScholesModel.normalCDF 0.
Proof.
  rewrite Ropp_0, normalCDF_0. split; lra.
Qed.

(* ------------------------------------------------------------------ *)
(** ** The binomial lattice *)

Section Lattice.

Import BinomialOptionPricingModel.

Lemma set_at_end (pre rest : JS.array) (c : option R) (v : R) (i : nat) :
  i = length pre ->
  JS.set (pre ++ c :: rest) i v = pre ++ Some v :: rest.
Proof.
  intros ->. induction pre as [| h pre IH]; simpl.
  - reflexivity.
  - now rewrite IH.
Qed.

Lemma get_at_end (pre rest : JS.array) (v : R) (i : nat) :
  i = length pre ->
  JS.get (pre ++ Some v :: rest) i = Some v.
Proof.
  intros ->. unfold JS.get. rewrite nth_error_app2 by lia.
  now rewrite Nat.sub_diag.
Qed.

(** The payoff loop fills the fresh array from left to right. *)
Lemma payoff_loop (f : nat -> R) (c k : nat) :
  JS.for_up (fun i a => Some (JS.set a i (f i))) k c
            (map Some (map f (seq 0 k)) ++ repeat None c)
  = Some (map Some (map f (seq 0 (k + c)))).
Proof.
  revert k. induction c as [| c IH]; intros k; cbn [JS.for_up repeat].
  - now rewrite Nat.add_0_r, app_nil_r.
  - rewrite set_at_end by now rewrite !length_map, length_seq.
    replace (map Some (map f (seq 0 k)) ++ Some (f k) :: repeat None c)
      with (map Some (map f (seq 0 (S k))) ++ repeat None c).
    + rewrite IH. now replace (S k + c)%nat with (k + S c)%nat by lia.
    + rewrite seq_S, !map_app, <- app_assoc. reflexivity.
Qed.

Lemma roll_back_length (disc pp : R) (l : list R) :
  length (roll_back disc pp l) = pred (length l).
Proof.
  induction l as [| a [| b t] IH]; simpl in *; auto.
Qed.

(** One backward pass over the first [c + 1] cells, written in place. *)
Lemma induction_loop (pp r dtt : R) (c : nat) :
  forall (done todo : list R) (rest : JS.array),
    length todo = S c ->
    JS.for_up (induction_body pp r dtt) (length done) c
              (map Some done ++ map Some todo ++ rest)
    = Some (map Some (done ++ roll_back (exp (- r * dtt)) pp todo)
            ++ Some (last todo 0) :: rest).
Proof.
  induction c as [| c IH]; intros done todo rest Hlen.
  - destruct todo as [| x [| y t]]; try discriminate.
    simpl. now rewrite app_nil_r.
  - destruct todo as [| x [| y t]]; try discriminate.
    cbn [JS.for_up]. unfold induction_body at 1.
    cbn [map app].
    rewrite get_at_end by now rewrite length_map.
    replace (map Some done ++ Some x :: Some y :: map Some t ++ rest)
      with ((map Some done ++ [Some x]) ++ Some y :: map Some t ++ rest) at 1
      by now rewrite <- app_assoc.
    rewrite get_at_end by now rewrite length_app, length_map.
    rewrite set_at_end by now rewrite length_map.
    set (v := (pp * x + (1 - pp) * y) * exp (- r * dtt)).
    specialize (IH (done ++ [v]) (y :: t) rest).
    rewrite length_app in IH. cbn [length] in IH.
    rewrite Nat.add_1_r in IH.
    replace (map Some done ++ Some v :: Some y :: map Some t ++ rest)
      with (map Some (done ++ [v]) ++ map Some (y :: t) ++ rest)
      by (rewrite map_app, <- app_assoc; reflexivity).
    rewrite IH by (simpl in Hlen |- *; lia).
    rewrite <- app_assoc.
    replace (roll_back (exp (- r * dtt)) pp (x :: y :: t))
      with (v :: roll_back (exp (- r * dtt)) pp (y :: t)).
    + reflexivity.
    + cbn [roll_back]. f_equal. unfold v. lra.
Qed.

(** The backward induction leaves the layers of the specification in the
    front of the array. *)
Lemma backward_induction (pp r dtt : R) (c : nat) :
  forall (layer : list R) (rest : JS.array),
    length layer = S c ->
    exists rest',
      JS.for_down (fun j => JS.for_up (induction_body pp r dtt) 0 (j + 1))
                  c (map Some layer ++ rest)
      = Some (map Some (Nat.iter c (roll_back (exp (- r * dtt)) pp) layer)
              ++ rest').
Proof.
  induction c as [| c IH]; intros layer rest Hlen.
  - exists rest. reflexivity.
  - cbn [JS.for_down].
    pose proof (induction_loop pp r dtt (c + 1) [] layer rest) as Hpass.
    cbn [length map app] in Hpass.
    rewrite Hpass by lia.
    destruct (IH (roll_back (exp (- r * dtt)) pp layer)
                 (Some (last layer 0) :: rest)) as [rest' Hrest].
    { rewrite roll_back_length, Hlen. reflexivity. }
    exists rest'. rewrite Hrest, Nat.iter_succ_r. reflexivity.
Qed.

Lemma iter_roll_back_length (disc pp : R) (c : nat) (l : list R) :
  length (Nat.iter c (roll_back disc pp) l) = (length l - c)%nat.
Proof.
  induction c as [| c IH]; simpl.
  - lia.
  - rewrite roll_back_length, IH. lia.
Qed.

Lemma terminal_layer_length (S K uu dd : R) (n : nat) :
  length (terminal_layer S K uu dd n) = (n + 1)%nat.
Proof. unfold terminal_layer. now rewrite length_map, length_seq. Qed.

Lemma root_layer_length (S K T r sigma : R) (n : nat) :
  length (root_layer S K T r sigma n) = 1%nat.
Proof.
  unfold root_layer.
  rewrite iter_roll_back_length, terminal_layer_length. lia.
Qed.

(** Past the no-arbitrage guard the two loops compute the root of the
    specification's lattice, for every step count. *)
Lemma lattice_loops (S K T r sigma : R) (steps : nat) :
  JS.lt (p T r sigma steps) 0 || JS.gt (p T r sigma steps) 1 = false ->
  calculateBinomialPrice S K T r sigma steps
  = Some (lattice_root S K T r sigma steps).
Proof.
  intros Hguard. unfold calculateBinomialPrice. rewrite Hguard.
  unfold payoff_body.
  pose proof (payoff_loop
                (fun i => Rmax 0 (S * u T sigma steps ^ (steps - i)
                                  * d T sigma steps ^ i - K))
                (steps + 1) 0) as Hfill.
  cbn [seq map app plus] in Hfill. unfold JS.new_Array. rewrite Hfill.
  fold (terminal_layer S K (u T sigma steps) (d T sigma steps) steps).
  destruct (backward_induction (p T r sigma steps) r (dt T steps) steps
              (terminal_layer S K (u T sigma steps) (d T sigma steps) steps) [])
    as [rest' Hback].
  { rewrite terminal_layer_length. lia. }
  rewrite app_nil_r in Hback. rewrite Hback.
  fold (root_layer S K T r sigma steps). unfold lattice_root.
  pose proof (root_layer_length S K T r sigma steps) as Hlen.
  destruct (root_layer S K T r sigma steps) as [| v [| w t]]; try discriminate.
  reflexivity.
Qed.

End Lattice.

Lemma guard_passes (pp : R) :
  0 <= pp <= 1 -> JS.lt pp 0 || JS.gt pp 1 = false.
Proof.
  intros [H0 H1]. apply orb_false_iff. split.
  - apply lt_false_iff. lra.
  - apply gt_false_iff. lra.
Qed.

Lemma guard_fails (pp : R) :
  pp < 0 \/ pp > 1 -> JS.lt pp 0 || JS.gt pp 1 = true.
Proof.
  intros [H | H]; apply orb_true_iff.
  - left. now apply lt_true_iff.
  - right. now apply gt_true_iff.
Qed.

(** The shape of [p] for an up factor above one. *)
Lemma p_shape_inside (e uu : R) :
  1 < uu -> 1 / uu <= e <= uu ->
  0 <= (e - 1 / uu) / (uu - 1 / uu) <= 1.
Proof.
  intros Hu [Hlo Hhi].
  assert (Hd : 1 / uu < 1).
  { unfold Rdiv. rewrite Rmult_1_l. rewrite <- Rinv_1.
    apply Rinv_0_lt_contravar; lra. }
  set (dd := 1 / uu) in *.
  assert (Hpos : 0 < / (uu - dd)) by (apply Rinv_0_lt_compat; lra).
  assert (Hone : (uu - dd) * / (uu - dd) = 1) by (apply Rinv_r; lra).
  unfold Rdiv. split.
  - apply Rmult_le_pos; lra.
  - rewrite <- Hone. apply Rmult_le_compat_r; lra.
Qed.

Lemma p_shape_above (e uu : R) :
  1 < uu -> uu < e -> (e - 1 / uu) / (uu - 1 / uu) > 1.
Proof.
  intros Hu He.
  assert (Hd : 1 / uu < 1).
  { unfold Rdiv. rewrite Rmult_1_l. rewrite <- Rinv_1.
    apply Rinv_0_lt_contravar; lra. }
  set (dd := 1 / uu) in *.
  assert (Hpos : 0 < / (uu - dd)) by (apply Rinv_0_lt_compat; lra).
  assert (Hone : (uu - dd) * / (uu - dd) = 1) by (apply Rinv_r; lra).
  unfold Rdiv. rewrite <- Hone. apply Rmult_lt_compat_r; lra.
Qed.

Lemma dt_one_step : BinomialOptionPricingModel.dt 1 1 = 1.
Proof. unfold BinomialOptionPricingModel.dt. simpl INR. lra. Qed.

(** With [T = 1], one step, [r = 0] and [sigma = 1] the probability is valid. *)
Lemma p_valid_example : 0 <= BinomialOptionPricingModel.p 1 0 1 1 <= 1.
Proof.
  unfold BinomialOptionPricingModel.p, BinomialOptionPricingModel.d,
    BinomialOptionPricingModel.u.
  rewrite dt_one_step, sqrt_1, Rmult_0_l, exp_0, Rmult_1_l.
  pose proof (exp_ineq1 1 ltac:(lra)) as He.
  apply p_shape_inside; [lra |].
  split; [| lra].
  assert (Hinv : / exp 1 <= / 1) by (apply Rinv_le_contravar; lra).
  rewrite Rinv_1 in Hinv. lra.
Qed.

(** With [T = 1], one step, [r = 1] and [sigma = 1/2] it exceeds one. *)
Lemma p_invalid_example : BinomialOptionPricingModel.p 1 1 (1 / 2) 1 > 1.
Proof.
  unfold BinomialOptionPricingModel.p, BinomialOptionPricingModel.d,
    BinomialOptionPricingModel.u.
  rewrite dt_one_step, sqrt_1, !Rmult_1_r.
  pose proof (exp_ineq1 (1 / 2) ltac:(lra)) as He.
  apply p_shape_above; [lra |].
  apply exp_increasing. lra.
Qed.

(** The up factor differs from the down factor as soon as
    [sigma * sqrt dt] is not zero, so the quotient that defines the
    probability has a non-zero denominator. *)
Lemma up_differs_from_down (x : R) : x <> 0 -> exp x <> 1 / exp x.
Proof.
  intros Hx. pose proof (exp_pos x) as Hpos.
  assert (Hone : exp x <> 1).
  { destruct (Rtotal_order x 0) as [Hneg | [Hzero | Hgt]]; [| contradiction |].
    - pose proof (exp_increasing x 0 Hneg) as H. rewrite exp_0 in H. lra.
    - pose proof (exp_increasing 0 x Hgt) as H. rewrite exp_0 in H. lra. }
  intros Heq. apply Hone.
  assert (Hsq : exp x * exp x = 1).
  { rewrite Heq at 2. field. lra. }
  nra.
Qed.

(** C3.  For every step count [n >= 1], maturity [T > 0] and volatility
    [sigma <> 0] (so that [u <> d] and the probability is a number), with
    [dt = T/n], [u = exp(sigma * sqrt dt)], [d = 1/u] and
    [p = (exp(r*dt) - d)/(u - d)] in [[0, 1]], [calculateBinomialPrice]
    returns the root of the lattice built as the specification says: the
    [n + 1] terminal payoffs [max(0, S*u^(n-i)*d^i - K)], rolled back [n]
    times by [exp(-r*dt) * (p*up + (1-p)*down)], with no exercise
    comparison; the layer that reaches the root has exactly one node. *)
Theorem lattice_price_is_backward_induction (S K T r sigma : R) (n : nat) :
  (1 <= n)%nat -> 0 < T -> sigma <> 0 ->
  let dt := T / INR n in
  let u := exp (sigma * sqrt dt) in
  let d := 1 / u in
  let p := (exp (r * dt) - d) / (u - d) in
  0 <= p <= 1 ->
  let root :=
    Nat.iter n (BinomialOptionPricingModel.roll_back (exp (- r * dt)) p)
      (map (fun i => Rmax 0 (S * u ^ (n - i) * d ^ i - K)) (seq 0 (n + 1))) in
  u <> d
  /\ BinomialOptionPricingModel.calculateBinomialPrice S K T r sigma n
     = Some (hd 0 root)
  /\ length root = 1%nat.
Proof.
  intros Hn HT Hsigma dt u d p Hp root.
  split; [| split].
  - apply up_differs_from_down.
    assert (Hdt : 0 < dt).
    { unfold dt. apply Rdiv_lt_0_compat; [exact HT |].
      apply lt_0_INR. lia. }
    pose proof (sqrt_lt_R0 dt Hdt) as Hsq.
    intros Hzero. apply Rmult_integral in Hzero. destruct Hzero; lra.
  - rewrite lattice_loops by (apply guard_passes; exact Hp). reflexivity.
  - apply (root_layer_length S K T r sigma n).
Qed.

Lemma lattice_price_is_backward_induction_witness :
  BinomialOptionPricingModel.calculateBinomialPrice 100 100 1 0 1 1
  = Some (BinomialOptionPricingModel.lattice_root 100 100 1 0 1 1).
Proof.
  exact (proj1 (proj2 (lattice_price_is_backward_induction 100 100 1 0 1 1
                         ltac:(lia) ltac:(lra) ltac:(lra) p_valid_example))).
Defined.

(** C4.  Whenever the risk-neutral probability is below zero or above one,
    [calculateBinomialPrice] returns the number [0]. *)
Theorem invalid_probability_gives_zero (S K T r sigma : R) (steps : nat) :
  BinomialOptionPricingModel.p T r sigma steps < 0
  \/ BinomialOptionPricingModel.p T r sigma steps > 1 ->
  BinomialOptionPricingModel.calculateBinomialPrice S K T r sigma steps = Some 0.
Proof.
  intros Hp. unfold BinomialOptionPricingModel.calculateBinomialPrice.
  now rewrite guard_fails.
Qed.

Lemma invalid_probability_gives_zero_witness :
  BinomialOptionPricingModel.calculateBinomialPrice 100 105 1 1 (1 / 2) 1
  = Some 0.
Proof.
  apply (invalid_probability_gives_zero 100 105 1 1 (1 / 2) 1).
  right. exact p_invalid_example.
Defined.

(* ------------------------------------------------------------------ *)
(** ** The Feller flag of the CIR panel *)

Lemma fellerMet_value (P : InterestRateModel.ModelParams)
      (draws : nat -> R) (k : nat) :
  InterestRateModel.fellerMet (fst (InterestRateModel.chartPaths P draws k))
  = JS.ge (2 * InterestRateModel.a P * InterestRateModel.b P)
          (InterestRateModel.sigma P ^ 2).
Proof.
  unfold InterestRateModel.chartPaths, JS.bind, JS.ret.
  destruct (InterestRateModel.generateCIRPaths _ _ _ _ _ draws k).
  reflexivity.
Qed.

(** C6 fails on the code.  With the sliders at [a = 0.3], [b = 3] (percent)
    and [sigma = 2] (percent) the flag is [false] on every run, although
    the decimals handed to the path generator, [a = 0.3], [b = 0.03],
    [sigma = 0.02], satisfy [2*a*b >= sigma^2]: the flag is computed from
    the percent values. *)
Theorem feller_flag_ignores_conversion :
  let P := {| InterestRateModel.r0 := 2; InterestRateModel.T := 5;
              InterestRateModel.a := 0.3; InterestRateModel.b := 3;
              InterestRateModel.sigma := 2 |} in
  (forall draws k,
      InterestRateModel.fellerMet (fst (InterestRateModel.chartPaths P draws k))
      = false)
  /\ 2 * InterestRateModel.a P * (InterestRateModel.b P / 100)
     >= (InterestRateModel.sigma P / 100) ^ 2.
Proof.
  cbv zeta. split.
  - intros draws k. rewrite fellerMet_value. apply ge_false_iff.
    simpl. lra.
  - simpl. lra.
Qed.

(* ------------------------------------------------------------------ *)
(** ** The pairs-trading signal machine *)

Section Signals.

Import PairsTradingModel.

Lemma loop_body_before_window (lookback : nat) (entryZ exitZ : R)
      (mergedData : list Merged) (i : nat) (st : LoopState) :
  (i < lookback - 1)%nat ->
  inTrade (loop_body lookback entryZ exitZ mergedData i st) = inTrade st
  /\ tradeSignals (loop_body lookback entryZ exitZ mergedData i st)
     = tradeSignals st.
Proof.
  intros Hi. unfold loop_body.
  replace (lookback - 1 <=? i)%nat with false
    by (symmetry; apply Nat.leb_gt; exact Hi).
  split; reflexivity.
Qed.

Lemma loop_body_in_window (lookback : nat) (entryZ exitZ : R)
      (mergedData : list Merged) (i : nat) (st : LoopState) :
  (lookback - 1 <= i)%nat ->
  (inTrade (loop_body lookback entryZ exitZ mergedData i st),
   tradeSignals (loop_body lookback entryZ exitZ mergedData i st))
  = signal_logic entryZ exitZ (mdate (nth i mergedData no_data))
      (zScore_at lookback mergedData i) (ratio_of (nth i mergedData no_data))
      (inTrade st) (tradeSignals st).
Proof.
  intros Hi. unfold loop_body.
  replace (lookback - 1 <=? i)%nat with true
    by (symmetry; apply Nat.leb_le; exact Hi).
  destruct (signal_logic _ _ _ _ _ _ _); reflexivity.
Qed.

Lemma fold_left_sum_map (f : R -> R) (xs : list R) :
  forall acc,
    fold_left (fun acc val => acc + f val) xs acc
    = acc + list_sum (map f xs).
Proof.
  induction xs as [| x xs IH]; intros acc;
    cbn [fold_left map list_sum fold_right].
  - lra.
  - rewrite IH. unfold list_sum. lra.
Qed.

Lemma sum_from (xs : list R) :
  forall acc, fold_left Rplus xs acc = acc + list_sum xs.
Proof.
  induction xs as [| x xs IH]; intros acc;
    cbn [fold_left list_sum fold_right].
  - lra.
  - rewrite IH. unfold list_sum. lra.
Qed.

Lemma sum_list_sum (xs : list R) : JS.sum xs = list_sum xs.
Proof. unfold JS.sum. rewrite sum_from. lra. Qed.

(** Once the window is full, the slice the loop takes is the [lookback]
    points ending at [i], and the three statistics are the mean, the
    deviation and the z-score of the specification. *)
Lemma window_slice (lookback : nat) (mergedData : list Merged) (i : nat) :
  (lookback - 1 <= i)%nat ->
  map ratio_of (JS.slice mergedData (i + 1 - lookback) (i + 1))
  = window_ratios lookback mergedData i.
Proof.
  intros Hi. unfold JS.slice, window_ratios.
  replace (i + 1 - (i + 1 - lookback))%nat with lookback by lia.
  reflexivity.
Qed.

Lemma movingAvg_at_spec (lookback : nat) (mergedData : list Merged) (i : nat) :
  (lookback - 1 <= i)%nat ->
  movingAvg_at lookback mergedData i = window_mean lookback mergedData i.
Proof.
  intros Hi. unfold movingAvg_at, window_mean. cbv zeta.
  rewrite window_slice by exact Hi. rewrite sum_list_sum. reflexivity.
Qed.

Lemma movingStd_at_spec (lookback : nat) (mergedData : list Merged) (i : nat) :
  (lookback - 1 <= i)%nat ->
  movingStd_at lookback mergedData i = window_deviation lookback mergedData i.
Proof.
  intros Hi. unfold movingStd_at, window_deviation. cbv zeta.
  rewrite window_slice by exact Hi.
  rewrite movingAvg_at_spec by exact Hi.
  rewrite (fold_left_sum_map
             (fun val => (val - window_mean lookback mergedData i) ^ 2)).
  rewrite Rplus_0_l. reflexivity.
Qed.

Lemma zScore_at_spec (lookback : nat) (mergedData : list Merged) (i : nat) :
  (lookback - 1 <= i)%nat ->
  zScore_at lookback mergedData i
  = (price1 (nth i mergedData no_data) / price2 (nth i mergedData no_data)
     - window_mean lookback mergedData i)
    / window_deviation lookback mergedData i.
Proof.
  intros Hi. unfold zScore_at.
  rewrite movingAvg_at_spec, movingStd_at_spec by exact Hi.
  reflexivity.
Qed.


End Signals.

Section SignalExample.

Import PairsTradingModel.

Lemma window_two_points :
  window_mean 2 two_points 1 = 2 /\ window_deviation 2 two_points 1 = 1.
Proof.
  assert (Hmean : window_mean 2 two_points 1 = 2).
  { unfold window_mean, window_ratios, list_sum, two_points. simpl. lra. }
  split; [exact Hmean |].
  unfold window_deviation. rewrite Hmean.
  unfold window_ratios, list_sum, two_points. simpl.
  replace (((1 / 1 - 2) * ((1 / 1 - 2) * 1)
            + ((3 / 1 - 2) * ((3 / 1 - 2) * 1) + 0)) / (1 + 1))
    with 1 by lra.
  apply sqrt_1.
Qed.

Lemma zScore_two_points : zScore_at 2 two_points 1 = 1.
Proof.
  rewrite zScore_at_spec by (simpl; lia).
  destruct window_two_points as [-> ->].
  unfold two_points. simpl. lra.
Qed.




End SignalExample.

Section Alternation.

Import PairsTradingModel.

Lemma loop_up_invariant {St : Type} (P : St -> Prop) (body : nat -> St -> St) :
  (forall i s, P s -> P (body i s)) ->
  forall count start s, P s -> P (JS.loop_up body start count s).
Proof.
  intros Hbody. induction count as [| c IH]; intros start s Hs; simpl; auto.
Qed.

Lemma is_exit_negb (s : TradeSignal) : is_exit s = negb (is_enter s).
Proof. unfold is_exit, is_enter. destruct (type s); reflexivity. Qed.

Lemma count_enter_snoc (l : list TradeSignal) (s : TradeSignal) :
  count_enter (l ++ [s])
  = (count_enter l + if is_enter s then 1 else 0)%nat.
Proof.
  unfold count_enter. rewrite filter_app, length_app. simpl.
  destruct (is_enter s); reflexivity.
Qed.

Lemma count_exit_snoc (l : list TradeSignal) (s : TradeSignal) :
  count_exit (l ++ [s])
  = (count_exit l + if is_enter s then 0 else 1)%nat.
Proof.
  unfold count_exit. rewrite filter_app, length_app. simpl.
  rewrite is_exit_negb. destruct (is_enter s); reflexivity.
Qed.

Lemma even_snoc (l : list TradeSignal) (s : TradeSignal) :
  Nat.even (length (l ++ [s])) = negb (Nat.even (length l)).
Proof.
  rewrite length_app, Nat.add_1_r, Nat.even_succ, <- Nat.negb_even.
  reflexivity.
Qed.

Lemma alternates_snoc (l : list TradeSignal) (s : TradeSignal) :
  forall b,
    alternates_from b l ->
    is_enter s = (if Nat.even (length l) then b else negb b) ->
    alternates_from b (l ++ [s]).
Proof.
  induction l as [| a l IH]; intros b Hl Hs.
  - simpl in *. auto.
  - destruct Hl as [Ha Hl]. split; [exact Ha |].
    apply IH; [exact Hl |].
    rewrite Hs. cbn [length]. rewrite Nat.even_succ, <- Nat.negb_even.
    destruct (Nat.even (length l)), b; reflexivity.
Qed.

Lemma alternates_head (b : bool) (s : TradeSignal) (rest : list TradeSignal) :
  alternates_from b (s :: rest) -> is_enter s = b.
Proof. now intros [H _]. Qed.

Lemma alternates_adjacent (pre post : list TradeSignal) (s1 s2 : TradeSignal) :
  forall b,
    alternates_from b (pre ++ s1 :: s2 :: post) ->
    is_enter s2 = negb (is_enter s1).
Proof.
  induction pre as [| a pre IH]; intros b H.
  - destruct H as [H1 [H2 _]]. now rewrite H1, H2.
  - destruct H as [_ H]. exact (IH _ H).
Qed.

Lemma signals_consistent_step (lookback : nat) (entryZ exitZ : R)
      (mergedData : list Merged) (i : nat) (st : LoopState) :
  signals_consistent st ->
  signals_consistent (loop_body lookback entryZ exitZ mergedData i st).
Proof.
  unfold signals_consistent. cbv zeta. intros [Halt Hpos].
  destruct (Nat.lt_ge_cases i (lookback - 1)) as [Hi | Hi].
  - destruct (loop_body_before_window lookback entryZ exitZ mergedData i st Hi)
      as [-> ->].
    split; assumption.
  - pose proof (loop_body_in_window lookback entryZ exitZ mergedData i st Hi)
      as Hstep.
    unfold signal_logic in Hstep.
    destruct (inTrade st); destruct Hpos as [Heven Hcount];
      revert Hstep; cmp; intros Hstep; injection Hstep as Hp Hs;
      rewrite Hp, Hs;
      try (split; [assumption | split; assumption]);
      (split;
       [ apply alternates_snoc; [assumption | now rewrite Heven]
       | rewrite even_snoc, count_enter_snoc, count_exit_snoc, Heven;
         cbn; split; [reflexivity | lia] ]).
Qed.

Lemma run_consistent (lookback : nat) (entryZ exitZ : R)
      (mergedData : list Merged) :
  signals_consistent (run lookback entryZ exitZ mergedData).
Proof.
  unfold run. apply loop_up_invariant.
  - intros i s. apply signals_consistent_step.
  - unfold signals_consistent, initial. simpl. auto.
Qed.

(** C10.  For every merged series and every lookback, entry and exit
    setting, the emitted signals alternate: the first signal, if any, is an
    Enter (SHORT or LONG); of two consecutive signals exactly one is an
    Enter, so an Exit directly follows an Enter and an Enter directly
    follows an Exit; and the loop ends Flat exactly when the number of
    Enter signals equals the number of Exit signals. *)
Theorem signals_alternate (lookback : nat) (entryZ exitZ : R)
        (mergedData : list Merged) :
  let out := run lookback entryZ exitZ mergedData in
  let sigs := tradeSignals out in
  (forall s rest, sigs = s :: rest -> is_enter s = true)
  /\ (forall pre s1 s2 post,
         sigs = pre ++ s1 :: s2 :: post ->
         (is_exit s2 = true -> is_enter s1 = true)
         /\ (is_enter s2 = true -> is_exit s1 = true))
  /\ alternates_from true sigs
  /\ (inTrade out = Flat <-> count_enter sigs = count_exit sigs).
Proof.
  cbv zeta.
  destruct (run_consistent lookback entryZ exitZ mergedData) as [Halt Hpos].
  split; [| split; [| split]].
  - intros s rest Heq. rewrite Heq in Halt. exact (alternates_head _ _ _ Halt).
  - intros pre s1 s2 post Heq. rewrite Heq in Halt.
    pose proof (alternates_adjacent _ _ _ _ _ Halt) as Hadj.
    rewrite !is_exit_negb, Hadj.
    destruct (is_enter s1); simpl; split; auto.
  - exact Halt.
  - destruct (inTrade (run lookback entryZ exitZ mergedData));
      destruct Hpos as [_ Hcount]; split; intros H;
      try reflexivity; try assumption; try discriminate; lia.
Qed.

Lemma run_two_points :
  tradeSignals (run 2 (1 / 2) (1 / 4) two_points)
  = [signal_at 2 two_points 1 SHORT].
Proof.
  change (run 2 (1 / 2) (1 / 4) two_points)
    with (loop_body 2 (1 / 2) (1 / 4) two_points 1
            (loop_body 2 (1 / 2) (1 / 4) two_points 0 initial)).
  pose proof (loop_body_in_window 2 (1 / 2) (1 / 4) two_points 1
                (loop_body 2 (1 / 2) (1 / 4) two_points 0 initial)
                ltac:(simpl; lia)) as Hstep.
  destruct (loop_body_before_window 2 (1 / 2) (1 / 4) two_points 0 initial
              ltac:(simpl; lia)) as [Hp Hs].
  rewrite Hp, Hs in Hstep. unfold signal_logic, initial in Hstep.
  cbn [inTrade tradeSignals] in Hstep.
  replace (JS.gt (zScore_at 2 two_points 1) (1 / 2)) with true in Hstep
    by (symmetry; apply gt_true_iff; rewrite zScore_two_points; lra).
  now inversion Hstep.
Qed.

Lemma signals_alternate_witness :
  is_enter (signal_at 2 two_points 1 SHORT) = true.
Proof.
  apply (proj1 (signals_alternate 2 (1 / 2) (1 / 4) two_points) _ []).
  exact run_two_points.
Defined.

End Alternation.

(* ------------------------------------------------------------------ *)
(** ** The path simulators never leave the non-negative half line *)

Lemma for_rand_invariant {St : Type} (P : St -> Prop)
      (body : nat -> St -> JS.Rand St) :
  (forall i s draws k, P s -> P (fst (body i s draws k))) ->
  forall count start s draws k,
    P s -> P (fst (JS.for_rand body start count s draws k)).
Proof.
  intros Hbody. induction count as [| c IH]; intros start s draws k Hs.
  - exact Hs.
  - cbn [JS.for_rand]. unfold JS.bind.
    specialize (Hbody start s draws k Hs).
    destruct (body start s draws k) as [s' k']. now apply IH.
Qed.

Lemma Forall_snoc {A : Type} (P : A -> Prop) (l : list A) (x : A) :
  Forall P l -> P x -> Forall P (l ++ [x]).
Proof. intros Hl Hx. apply Forall_app. split; [exact Hl | now constructor]. Qed.

Lemma Forall_slice {A : Type} (P : A -> Prop) (l : list A) (start stop : nat) :
  Forall P l -> Forall P (JS.slice l start stop).
Proof.
  intros Hl. unfold JS.slice.
  rewrite <- (firstn_skipn start l) in Hl.
  apply Forall_app in Hl. destruct Hl as [_ Hl].
  rewrite <- (firstn_skipn (stop - start) (skipn start l)) in Hl.
  apply Forall_app in Hl. now destruct Hl.
Qed.

(** Run the inner loop of a simulator under an invariant of its state. *)
Ltac inner_loop P :=
  match goal with
  | |- context [JS.for_rand ?body ?start ?count ?s ?draws ?k] =>
      let Hin := fresh "Hin" in
      pose proof (for_rand_invariant P body) as Hin;
      specialize (fun H => Hin H count start s draws k);
      let st := fresh "st" in
      let k' := fresh "k'" in
      destruct (JS.for_rand body start count s draws k) as [st k'];
      cbn [fst] in Hin
  end.

(** *** GBM (Asian Monte Carlo) *)




(** *** GBM (portfolio value) *)

Lemma portfolio_step_nonneg (mean vol dt : R) (j : nat)
      (st : PortfolioSimulator.PathState) (draws : nat -> R) (k : nat) :
  0 <= PortfolioSimulator.currentValue st
  /\ nonneg_path PortfolioSimulator.value (PortfolioSimulator.path st) ->
  0 <= PortfolioSimulator.currentValue
         (fst (PortfolioSimulator.step_body mean vol dt j st draws k))
  /\ nonneg_path PortfolioSimulator.value
       (PortfolioSimulator.path
          (fst (PortfolioSimulator.step_body mean vol dt j st draws k))).
Proof.
  intros [Hcur Hpath]. cbn.
  match goal with
  | |- 0 <= ?v /\ _ => assert (Hnew : 0 <= v)
  end.
  { apply Rmult_le_pos; [exact Hcur | left; apply exp_pos]. }
  split; [exact Hnew |]. apply Forall_snoc; [exact Hpath | exact Hnew].
Qed.



(** *** Merton jump diffusion *)




(** *** CIR short rate *)

Lemma cir_step_clamps (a b sigma dt : R) (j : nat)
      (st : InterestRateModel.PathState) (draws : nat -> R) (k : nat) :
  InterestRateModel.currentRate
    (fst (InterestRateModel.step_body a b sigma dt j st draws k))
  = Rmax 0 (InterestRateModel.currentRate st
            + (a * (b - InterestRateModel.currentRate st) * dt
               + sigma * sqrt (Rmax 0 (InterestRateModel.currentRate st))
                 * (draws k * sqrt dt))).
Proof. reflexivity. Qed.





Section NanTracking.

Import MonteCarloModel.







End NanTracking.




(* ------------------------------------------------------------------ *)
(** ** The GARCH(1,1) variance recursion *)

Lemma forecast_variance (returns : list R) (lastPrice : R) (n : nat) :
  forall start st,
    GarchModel.lastVariance
      (JS.loop_up (GarchModel.forecast_body returns lastPrice) start n st)
    = Nat.iter n (garch_update returns) (GarchModel.lastVariance st).
Proof.
  induction n as [| n IH]; intros start st.
  - reflexivity.
  - cbn [JS.loop_up]. rewrite IH, Nat.iter_succ_r. reflexivity.
Qed.

Lemma variance_after_iter (returns : list R) (lastPrice : R) (n : nat) :
  GarchModel.variance_after returns lastPrice n
  = Nat.iter n (garch_update returns) (GarchModel.seedVariance returns).
Proof.
  unfold GarchModel.variance_after, GarchModel.forecast.
  now rewrite forecast_variance.
Qed.

(** The recursion in closed form. *)
Lemma garch_closed_form (returns : list R) (v : R) (n : nat) :
  Nat.iter n (garch_update returns) v
  = garch_limit returns + GarchModel.beta ^ n * (v - garch_limit returns).
Proof.
  induction n as [| n IH].
  - simpl. lra.
  - rewrite Nat.iter_succ, IH. unfold garch_update, garch_limit.
    set (c := GarchModel.omega + GarchModel.alpha * JS.last_elt returns ^ 2).
    cbn [pow]. unfold GarchModel.beta. field; lra.
Qed.

Lemma garch_converges (returns : list R) (lastPrice : R) :
  Un_cv (GarchModel.variance_after returns lastPrice) (garch_limit returns).
Proof.
  intros eps Heps.
  set (gap := GarchModel.seedVariance returns - garch_limit returns).
  assert (Hbeta : Rabs GarchModel.beta < 1).
  { unfold GarchModel.beta. apply Rabs_def1; lra. }
  assert (Hy : 0 < eps / (Rabs gap + 1)).
  { apply Rdiv_lt_0_compat; [lra |]. pose proof (Rabs_pos gap). lra. }
  destruct (pow_lt_1_zero _ Hbeta _ Hy) as [N HN].
  exists N. intros n Hn. specialize (HN n Hn).
  rewrite variance_after_iter, garch_closed_form. fold gap.
  unfold Rdist.
  replace (garch_limit returns + GarchModel.beta ^ n * gap - garch_limit returns)
    with (GarchModel.beta ^ n * gap) by lra.
  rewrite Rabs_mult.
  pose proof (Rabs_pos gap) as Hgap.
  pose proof (Rabs_pos (GarchModel.beta ^ n)) as Hpow.
  apply Rle_lt_trans with (Rabs (GarchModel.beta ^ n) * (Rabs gap + 1)).
  - apply Rmult_le_compat_l; lra.
  - replace eps with (eps / (Rabs gap + 1) * (Rabs gap + 1)) at 1
      by (field; lra).
    apply Rmult_lt_compat_r; lra.
Qed.

Lemma garch_limit_offset (returns : list R) :
  garch_limit returns
  = unconditional_variance
    + GarchModel.alpha / (1 - GarchModel.beta)
      * (JS.last_elt returns ^ 2 - unconditional_variance).
Proof.
  unfold garch_limit, unconditional_variance,
    GarchModel.omega, GarchModel.alpha, GarchModel.beta.
  set (e2 := JS.last_elt returns ^ 2). lra.
Qed.

(** C5, as the source has it.  The forecast loop keeps the squared shock
    at the last observed return [e], so the variance estimates
    [omega + alpha*e^2 + beta*v] iterated from the seed converge to
    [(omega + alpha*e^2) / (1 - beta)]; that limit lies
    [alpha/(1-beta) * (e^2 - U)] away from the unconditional variance
    [U = omega / (1 - alpha - beta)], so it is [U] exactly when [e^2 = U]. *)
Theorem garch_variance_limit (returns : list R) (lastPrice : R) :
  (forall n, GarchModel.variance_after returns lastPrice (S n)
             = GarchModel.omega
               + GarchModel.alpha * (JS.last_elt returns ^ 2)
               + GarchModel.beta * GarchModel.variance_after returns lastPrice n)
  /\ Un_cv (GarchModel.variance_after returns lastPrice)
       ((GarchModel.omega + GarchModel.alpha * (JS.last_elt returns ^ 2))
        / (1 - GarchModel.beta))
  /\ (GarchModel.omega + GarchModel.alpha * (JS.last_elt returns ^ 2))
     / (1 - GarchModel.beta)
     = GarchModel.omega / (1 - GarchModel.alpha - GarchModel.beta)
       + GarchModel.alpha / (1 - GarchModel.beta)
         * (JS.last_elt returns ^ 2
            - GarchModel.omega / (1 - GarchModel.alpha - GarchModel.beta)).
Proof.
  split; [| split].
  - intros n. rewrite !variance_after_iter. reflexivity.
  - apply garch_converges.
  - apply garch_limit_offset.
Qed.

(** C5 as stated fails: for the returns [0.01, 0] the seed is the
    unconditional variance itself, and the estimates do not converge to
    it. *)
Lemma garch_not_unconditional :
  GarchModel.variance_after [0.01; 0] 100 0
  = GarchModel.omega / (1 - GarchModel.alpha - GarchModel.beta)
  /\ ~ Un_cv (GarchModel.variance_after [0.01; 0] 100)
         (GarchModel.omega / (1 - GarchModel.alpha - GarchModel.beta)).
Proof.
  split.
  - unfold GarchModel.variance_after, GarchModel.forecast,
      GarchModel.seedVariance, GarchModel.omega, GarchModel.alpha,
      GarchModel.beta.
    simpl. lra.
  - intros Hcv.
    pose proof (UL_sequence _ _ _ (garch_converges [0.01; 0] 100) Hcv) as Heq.
    unfold garch_limit, GarchModel.omega, GarchModel.alpha,
      GarchModel.beta, JS.last_elt in Heq.
    simpl in Heq. lra.
Qed.

(* ------------------------------------------------------------------ *)
(** ** Value-at-Risk and conditional Value-at-Risk *)

Lemma insert_sorted_length (x : R) (xs : list R) :
  length (JS.insert_sorted x xs) = S (length xs).
Proof.
  induction xs as [| y ys IH]; simpl.
  - reflexivity.
  - destruct (JS.le x y); simpl; [reflexivity | now rewrite IH].
Qed.

Lemma sort_length (xs : list R) : length (JS.sort xs) = length xs.
Proof.
  induction xs as [| x xs IH]; simpl.
  - reflexivity.
  - now rewrite insert_sorted_length, IH.
Qed.

Lemma insert_sorted_Forall (P : R -> Prop) (x : R) (xs : list R) :
  P x -> Forall P xs -> Forall P (JS.insert_sorted x xs).
Proof.
  intros Hx Hxs. induction Hxs as [| y ys Hy Hys IH]; simpl.
  - constructor; [exact Hx | constructor].
  - destruct (JS.le x y).
    + constructor; [exact Hx |]. constructor; assumption.
    + constructor; assumption.
Qed.

Lemma insert_sorted_sorted (x : R) (xs : list R) :
  StronglySorted Rle xs -> StronglySorted Rle (JS.insert_sorted x xs).
Proof.
  intros Hs. induction Hs as [| y ys Hys IH Hy]; simpl.
  - constructor; constructor.
  - destruct (JS.le x y) eqn:Hxy.
    + apply le_true_iff in Hxy. constructor.
      * constructor; assumption.
      * constructor; [exact Hxy |].
        eapply Forall_impl; [| exact Hy]. intros z Hz. simpl in Hz. lra.
    + apply le_false_iff in Hxy. constructor; [exact IH |].
      apply insert_sorted_Forall; [lra | exact Hy].
Qed.

Lemma sort_sorted (xs : list R) : StronglySorted Rle (JS.sort xs).
Proof.
  induction xs as [| x xs IH]; simpl.
  - constructor.
  - now apply insert_sorted_sorted.
Qed.

(** In an ascending list everything before index [k] is at most the
    element at [k]. *)
Lemma sorted_prefix_below (xs : list R) :
  StronglySorted Rle xs ->
  forall k, (k < length xs)%nat ->
            Forall (fun x => x <= nth k xs 0) (firstn k xs).
Proof.
  intros Hs. induction Hs as [| y ys Hys IH Hy]; intros k Hk.
  - simpl in Hk. lia.
  - destruct k as [| k]; [constructor |].
    simpl in Hk |- *. assert (Hk' : (k < length ys)%nat) by lia.
    constructor; [| now apply IH].
    apply (proj1 (Forall_forall _ _) Hy).
    now apply nth_In.
Qed.

Lemma fold_sum_bound (m : R) (xs : list R) :
  Forall (fun x => x <= m) xs ->
  forall acc, fold_left Rplus xs acc <= acc + INR (length xs) * m.
Proof.
  intros Hxs. induction Hxs as [| x xs Hx Hxs' IH]; intros acc.
  - simpl. lra.
  - cbn [fold_left length]. rewrite S_INR.
    specialize (IH (acc + x)). lra.
Qed.

Lemma sum_bound (m : R) (xs : list R) :
  Forall (fun x => x <= m) xs -> JS.sum xs <= INR (length xs) * m.
Proof.
  intros Hxs. unfold JS.sum.
  pose proof (fold_sum_bound m xs Hxs 0). lra.
Qed.

Lemma floor_index_below (x : R) (n : nat) :
  x < INR n -> (0 < n)%nat -> (JS.floor_index x < n)%nat.
Proof.
  intros Hx Hn. unfold JS.floor_index.
  pose proof (Zfloor_bound x) as [Hlo _].
  assert (Hz : (Zfloor x < Z.of_nat n)%Z).
  { apply lt_IZR. rewrite <- INR_IZR_INZ. lra. }
  lia.
Qed.

Lemma floor_index_zero (x : R) : 0 <= x < 1 -> JS.floor_index x = 0%nat.
Proof.
  intros Hx. unfold JS.floor_index.
  rewrite (Zfloor_eq 0 x); [reflexivity | simpl; lra].
Qed.

Lemma slice_from_zero {A : Type} (xs : list A) (n : nat) :
  JS.slice xs 0 n = firstn n xs.
Proof. unfold JS.slice. now rewrite Nat.sub_0_r. Qed.

Section HistogramLoop.

Import VaRCVaRModel.

Lemma fold_Rmin_le (xs : list R) :
  forall a, fold_left Rmin xs a <= a
            /\ Forall (fun x => fold_left Rmin xs a <= x) xs.
Proof.
  induction xs as [| x xs IH]; intros a; cbn [fold_left].
  - split; [lra | constructor].
  - destruct (IH (Rmin a x)) as [Hacc Hall]. split.
    + pose proof (Rmin_l a x). lra.
    + constructor; [| exact Hall]. pose proof (Rmin_r a x). lra.
Qed.

Lemma min_of_below (xs : list R) : Forall (fun x => JS.min_of xs <= x) xs.
Proof.
  destruct xs as [| a xs]; [constructor |].
  unfold JS.min_of. destruct (fold_Rmin_le xs a) as [Ha Hall].
  constructor; assumption.
Qed.

Lemma bump_in_range (bins : list Bin) :
  forall i, (i < length bins)%nat ->
    exists bins',
      bump bins i = Some bins'
      /\ map range bins' = map range bins
      /\ total_count bins' = S (total_count bins).
Proof.
  induction bins as [| b bins IH]; intros i Hi; [simpl in Hi; lia |].
  destruct i as [| i]; cbn [bump].
  - eexists. split; [reflexivity |]. split; reflexivity.
  - destruct (IH i ltac:(simpl in Hi; lia)) as [rest' [-> [Hr Hc]]].
    eexists. split; [reflexivity |]. cbn [map total_count fold_right].
    split; [now rewrite Hr |].
    unfold total_count in Hc. rewrite Hc. lia.
Qed.

Lemma binIndex_in_range (numBins : nat) (minReturn binWidth r : R) :
  (0 < numBins)%nat -> 0 < binWidth -> minReturn <= r ->
  (0 <= binIndex_of numBins minReturn binWidth r < Z.of_nat numBins)%Z.
Proof.
  intros Hn Hw Hr. unfold binIndex_of.
  assert (Hq : 0 <= (r - minReturn) / binWidth).
  { apply Rmult_le_pos; [lra |]. left. now apply Rinv_0_lt_compat. }
  pose proof (Zfloor_lub 0 _ Hq). lia.
Qed.

Lemma count_returns (numBins : nat) (minReturn binWidth : R) (xs : list R) :
  (0 < numBins)%nat -> 0 < binWidth ->
  Forall (fun x => minReturn <= x) xs ->
  forall bins, length bins = numBins ->
    exists bins',
      JS.for_each (count_return numBins minReturn binWidth) xs bins = Some bins'
      /\ map range bins' = map range bins
      /\ total_count bins' = (total_count bins + length xs)%nat.
Proof.
  intros Hn Hw Hxs. induction Hxs as [| x xs Hx Hxs IH]; intros bins Hlen.
  - exists bins. cbn. split; [reflexivity |]. split; [reflexivity | lia].
  - cbn [JS.for_each]. unfold count_return at 1. cbv zeta.
    destruct (Req_dec_T binWidth 0) as [Hzero | _]; [lra |].
    pose proof (binIndex_in_range numBins minReturn binWidth x Hn Hw Hx)
      as [Hlo Hhi].
    replace (binIndex_of numBins minReturn binWidth x <? 0)%Z with false
      by (symmetry; apply Z.ltb_ge; exact Hlo).
    destruct (bump_in_range bins
                (Z.to_nat (binIndex_of numBins minReturn binWidth x))
                ltac:(lia)) as [bins1 [-> [Hr1 Hc1]]].
    destruct (IH bins1) as [bins' [-> [Hr Hc]]].
    { rewrite <- (length_map range), Hr1, length_map. exact Hlen. }
    exists bins'. split; [reflexivity |].
    split; [now rewrite Hr, Hr1 |].
    rewrite Hc, Hc1. cbn [length]. lia.
Qed.

(** On a series that is not constant every increment finds its bin. *)
Lemma histogram_returns (dailyReturns : list R) :
  JS.min_of dailyReturns < JS.max_of dailyReturns ->
  exists bins, histogram dailyReturns = Some bins.
Proof.
  intros Hlt. unfold histogram. cbv zeta.
  assert (H20 : INR 20 = 20) by (simpl; lra).
  rewrite H20.
  set (w := (JS.max_of dailyReturns - JS.min_of dailyReturns) / 20).
  assert (Hw : 0 < w) by (unfold w; lra).
  destruct (count_returns 20 (JS.min_of dailyReturns) w dailyReturns
              ltac:(lia) Hw (min_of_below dailyReturns)
              (map (fun i => {| range := JS.min_of dailyReturns + INR i * w;
                                count := 0 |}) (seq 0 20)))
    as [bins [Hrun _]].
  { now rewrite length_map, length_seq. }
  exists bins. exact Hrun.
Qed.

End HistogramLoop.

Section Risk.

Import VaRCVaRModel.

Lemma historical_values (unsorted : list R) (confidence horizon : R) :
  let rm := riskMeasures unsorted confidence horizon in
  let xs := JS.sort unsorted in
  let losses := firstn (var_index unsorted confidence) xs in
  histVaR rm = - nth (var_index unsorted confidence) xs 0 * sqrt horizon
  /\ histCVaR rm
     = if (0 <? length losses)%nat
       then - JS.sum losses / INR (length losses) * sqrt horizon
       else 0.
Proof.
  cbv zeta. unfold riskMeasures, riskMeasures_at. cbn [histVaR histCVaR].
  rewrite slice_from_zero. split; reflexivity.
Qed.

Lemma parametric_values (unsorted : list R) (confidence horizon : R) :
  let rm := riskMeasures unsorted confidence horizon in
  let xs := JS.sort unsorted in
  let alpha := 1 - confidence / 100 in
  let zq := normalInverseCDF alpha in
  paraVaR rm = - (sample_mean xs + sample_stdDev xs * zq) * sqrt horizon
  /\ paraCVaR rm
     = / alpha * sample_stdDev xs * (1 / sqrt (2 * PI))
       * exp (- (zq ^ 2) / 2) * sqrt horizon.
Proof. cbv zeta. split; reflexivity. Qed.

Lemma var_index_in_range (unsorted : list R) (confidence : R) :
  (0 < length unsorted)%nat -> 0 < confidence ->
  (var_index unsorted confidence < length unsorted)%nat.
Proof.
  intros Hlen Hc. unfold var_index. rewrite sort_length.
  apply floor_index_below; [| exact Hlen].
  assert (HN : 0 < INR (length unsorted)) by now apply lt_0_INR.
  nra.
Qed.

Lemma historical_tail_at (xs : list R) (alpha horizon : R) (idx : nat) :
  StronglySorted Rle xs ->
  (idx < length xs)%nat -> (1 <= idx)%nat -> 0 <= horizon ->
  histCVaR (riskMeasures_at xs alpha horizon idx)
  >= histVaR (riskMeasures_at xs alpha horizon idx).
Proof.
  intros Hsorted Hrange Hidx Hh.
  unfold riskMeasures_at. cbn [histVaR histCVaR].
  rewrite slice_from_zero.
  assert (Hlen : length (firstn idx xs) = idx)
    by (rewrite length_firstn; lia).
  rewrite Hlen.
  replace (0 <? idx)%nat with true by (symmetry; apply Nat.ltb_lt; lia).
  assert (Hsum : JS.sum (firstn idx xs) <= INR idx * nth idx xs 0).
  { rewrite <- Hlen at 2. apply sum_bound.
    apply sorted_prefix_below; assumption. }
  assert (Hpos : 0 < INR idx) by (apply lt_0_INR; lia).
  assert (Hinv : 0 < / INR idx) by now apply Rinv_0_lt_compat.
  assert (Hone : INR idx * / INR idx = 1) by (apply Rinv_r; lra).
  pose proof (sqrt_pos horizon) as Hsq.
  apply Rle_ge. apply Rmult_le_compat_r; [exact Hsq |].
  unfold Rdiv.
  set (s := JS.sum (firstn idx xs)) in *. set (x := nth idx xs 0) in *.
  assert (Hs : s * / INR idx <= x).
  { replace x with (INR idx * x * / INR idx)
      by (rewrite (Rmult_comm (INR idx) x), Rmult_assoc, Hone; lra).
    apply Rmult_le_compat_r; lra. }
  lra.
Qed.

Lemma historical_empty_tail_at (xs : list R) (alpha horizon : R) :
  histCVaR (riskMeasures_at xs alpha horizon 0) = 0
  /\ histVaR (riskMeasures_at xs alpha horizon 0)
     = - nth 0 xs 0 * sqrt horizon.
Proof.
  unfold riskMeasures_at. cbn [histVaR histCVaR].
  rewrite slice_from_zero. split; reflexivity.
Qed.

Lemma parametric_gap_at (xs : list R) (alpha horizon : R) (idx : nat) :
  let zq := normalInverseCDF alpha in
  paraCVaR (riskMeasures_at xs alpha horizon idx)
  - paraVaR (riskMeasures_at xs alpha horizon idx)
  = sqrt horizon
    * (sample_mean xs + sample_stdDev xs * (zq + normal_density zq / alpha)).
Proof.
  cbv zeta. unfold riskMeasures_at. cbn [paraVaR paraCVaR].
  fold (sample_mean xs). fold (sample_stdDev xs).
  unfold normal_density, Rdiv. ring.
Qed.

End Risk.

(** C2, as the source has it.  For a return series of length at least 2
    that is not constant (on a constant series the histogram of the same
    block throws), a confidence strictly between 0 and 100 percent and a
    horizon of at least one day, and for whichever index inside the
    sorted series [Math.floor(alpha * length)] yields: the block returns;
    the historical CVaR is at least the historical VaR whenever the tail
    below the VaR index is non-empty; with an empty tail the historical
    CVaR is 0, and it is at least the VaR exactly when the smallest return
    is non-negative; the parametric CVaR, which leaves the mean out, is at
    least the parametric VaR exactly when
    [mean + stdDev * (z + density(z)/alpha) >= 0] for
    [z = normalInverseCDF(alpha)]. *)
Theorem cvar_versus_var (unsorted : list R) (confidence horizon : R)
        (varIndex : nat) :
  (2 <= length unsorted)%nat ->
  0 < confidence < 100 ->
  1 <= horizon ->
  JS.min_of (JS.sort unsorted) < JS.max_of (JS.sort unsorted) ->
  (varIndex < length unsorted)%nat ->
  let xs := JS.sort unsorted in
  let alpha := 1 - confidence / 100 in
  let rm := VaRCVaRModel.riskMeasures_at xs alpha horizon varIndex in
  let zq := VaRCVaRModel.normalInverseCDF alpha in
  (exists bins, VaRCVaRModel.histogram xs = Some bins)
  /\ ((1 <= varIndex)%nat ->
      VaRCVaRModel.histCVaR rm >= VaRCVaRModel.histVaR rm)
  /\ (varIndex = 0%nat ->
      VaRCVaRModel.histCVaR rm = 0
      /\ (VaRCVaRModel.histCVaR rm >= VaRCVaRModel.histVaR rm
          <-> 0 <= nth 0 xs 0))
  /\ (VaRCVaRModel.paraCVaR rm >= VaRCVaRModel.paraVaR rm
      <-> sample_mean xs
          + sample_stdDev xs * (zq + normal_density zq / alpha) >= 0).
Proof.
  intros Hlen [Hc0 Hc1] Hh Hspread Hrange. cbv zeta.
  assert (Hsq : 0 < sqrt horizon) by (apply sqrt_lt_R0; lra).
  split; [apply histogram_returns; exact Hspread |].
  split.
  { intros Hidx. apply historical_tail_at.
    - apply sort_sorted.
    - now rewrite sort_length.
    - exact Hidx.
    - lra. }
  split.
  - intros ->.
    destruct (historical_empty_tail_at (JS.sort unsorted)
                (1 - confidence / 100) horizon) as [-> ->].
    split; [reflexivity |].
    set (x := nth 0 (JS.sort unsorted) 0). split; intros H; nra.
  - pose proof (parametric_gap_at (JS.sort unsorted) (1 - confidence / 100)
                  horizon varIndex) as Hgap.
    cbv zeta in Hgap.
    set (t := sample_mean _ + _) in *.
    set (cv := VaRCVaRModel.paraCVaR _) in *.
    set (v := VaRCVaRModel.paraVaR _) in *.
    split; intros H; nra.
Qed.

Lemma sort_minus_one_zero : JS.sort [-1; 0] = [-1; 0].
Proof.
  unfold JS.sort. simpl.
  now replace (JS.le (-1) 0) with true by (symmetry; apply le_true_iff; lra).
Qed.

Lemma var_index_two_returns (unsorted : list R) :
  length unsorted = 2%nat -> var_index unsorted 95 = 0%nat.
Proof.
  intros Hlen. unfold var_index. rewrite sort_length, Hlen.
  apply floor_index_zero. simpl. lra.
Qed.

Lemma spread_minus_one_zero :
  JS.min_of (JS.sort [-1; 0]) < JS.max_of (JS.sort [-1; 0]).
Proof.
  rewrite sort_minus_one_zero. unfold JS.min_of, JS.max_of. cbn [fold_left].
  rewrite Rmin_left, Rmax_right by lra. lra.
Qed.

(** The risk measures of the returns [-1, 0] at 95 percent over one day:
    the exact floor of [0.05 * 2] and the floor the code takes are both
    [0]. *)
Lemma risk_minus_one_zero :
  VaRCVaRModel.riskMeasures [-1; 0] 95 1
  = VaRCVaRModel.riskMeasures_at [-1; 0] (1 - 95 / 100) 1 0.
Proof.
  unfold VaRCVaRModel.riskMeasures. cbv zeta.
  fold (var_index [-1; 0] 95).
  rewrite (var_index_two_returns [-1; 0] eq_refl), sort_minus_one_zero.
  reflexivity.
Qed.

Lemma cvar_versus_var_witness :
  VaRCVaRModel.histCVaR
    (VaRCVaRModel.riskMeasures_at (JS.sort [-1; 0]) (1 - 95 / 100) 1 0) = 0.
Proof.
  exact (proj1 (proj1 (proj2 (proj2
           (cvar_versus_var [-1; 0] 95 1 0
              ltac:(simpl; lia) ltac:(lra) ltac:(lra)
              spread_minus_one_zero ltac:(simpl; lia)))) eq_refl)).
Defined.

(** The rational approximation of the inverse normal CDF at 5 percent. *)
Lemma inverse_cdf_at_5_percent :
  -1.645 <= VaRCVaRModel.normalInverseCDF (1 - 95 / 100) <= -1.6448.
Proof.
  unfold VaRCVaRModel.normalInverseCDF. cbv zeta.
  replace (JS.lt (1 - 95 / 100) 0.02425) with false
    by (symmetry; apply lt_false_iff; lra).
  replace (JS.le (1 - 95 / 100) (1 - 0.02425)) with true
    by (symmetry; apply le_true_iff; lra).
  match goal with
  | |- _ <= ?n / ?d <= _ =>
      assert (Hd : 0 < d) by lra;
      assert (Hn : -1.645 * d <= n <= -1.6448 * d) by lra;
      set (num := n) in *; set (den := d) in *
  end.
  assert (Hq : num = num / den * den) by (field; lra).
  revert Hq. generalize (num / den). intros q Hq. split; nra.
Qed.

Lemma exp_pow_INR (x : R) (n : nat) : exp x ^ n = exp (INR n * x).
Proof.
  induction n as [| n IH].
  - simpl. now rewrite Rmult_0_l, exp_0.
  - rewrite S_INR. cbn [pow]. rewrite IH, <- exp_plus. f_equal. ring.
Qed.

(** [exp] dominates the sixteenth power of its tangent at zero. *)
Lemma exp_lower_bound (a : R) : 0 < a -> (1 + a / 16) ^ 16 <= exp a.
Proof.
  intros Ha.
  replace (exp a) with (exp (a / 16) ^ 16)
    by (rewrite exp_pow_INR; f_equal; simpl; field).
  apply pow_incr. split; [lra |].
  left. apply exp_ineq1. lra.
Qed.

Lemma density_factor_at_5_percent (zq : R) :
  zq <= -1.6448 -> exp (- (zq ^ 2) / 2) <= 0.274.
Proof.
  intros Hz.
  assert (Hsq : 1.3526 <= zq ^ 2 / 2) by nra.
  replace (- (zq ^ 2) / 2) with (- (zq ^ 2 / 2)) by lra.
  rewrite exp_Ropp.
  pose proof (exp_lower_bound 1.3526 ltac:(lra)) as Hlow.
  assert (Hmono : exp 1.3526 <= exp (zq ^ 2 / 2)).
  { destruct Hsq as [Hlt | Heq]; [left; now apply exp_increasing |].
    rewrite Heq. lra. }
  assert (Hnum : 3.66 <= (1 + 1.3526 / 16) ^ 16) by (simpl; lra).
  assert (Hexp : 3.66 <= exp (zq ^ 2 / 2)) by lra.
  assert (Hinv : / exp (zq ^ 2 / 2) <= / 3.66)
    by (apply Rinv_le_contravar; lra).
  lra.
Qed.

(** C2 as stated fails for both methods on the returns [-1, 0] at
    confidence 95 percent and a horizon of one day: the historical tail is
    empty, so the historical CVaR is 0 while the VaR is 1; the parametric
    CVaR stays below 1.58 while the parametric VaR exceeds 1.66. *)
Lemma cvar_below_var :
  ~ (VaRCVaRModel.histCVaR (VaRCVaRModel.riskMeasures [-1; 0] 95 1)
     >= VaRCVaRModel.histVaR (VaRCVaRModel.riskMeasures [-1; 0] 95 1))
  /\ ~ (VaRCVaRModel.paraCVaR (VaRCVaRModel.riskMeasures [-1; 0] 95 1)
        >= VaRCVaRModel.paraVaR (VaRCVaRModel.riskMeasures [-1; 0] 95 1)).
Proof.
  rewrite risk_minus_one_zero. split.
  - destruct (historical_empty_tail_at [-1; 0] (1 - 95 / 100) 1) as [-> ->].
    rewrite sqrt_1. simpl. lra.
  - unfold VaRCVaRModel.riskMeasures_at.
    cbn [VaRCVaRModel.paraVaR VaRCVaRModel.paraCVaR].
    rewrite sqrt_1.
    pose proof inverse_cdf_at_5_percent as [Hz1 Hz2].
    pose proof (density_factor_at_5_percent _ Hz2) as He.
    pose proof (exp_pos (- (VaRCVaRModel.normalInverseCDF (1 - 95 / 100) ^ 2)
                         / 2)) as Hepos.
    set (zq := VaRCVaRModel.normalInverseCDF (1 - 95 / 100)) in *.
    set (e := exp (- (zq ^ 2) / 2)) in *.
    assert (Hmean : JS.sum [-1; 0] / INR (length [-1; 0]) = -0.5)
      by (unfold JS.sum; simpl; lra).
    rewrite Hmean.
    replace (fold_left (fun acc val => acc + (val - -0.5) ^ 2) [-1; 0] 0
             / (INR (length [-1; 0]) - 1))
      with 0.5 by (simpl; lra).
    assert (Hs : 0.7071 <= sqrt 0.5 <= 0.70711).
    { split.
      - rewrite <- (sqrt_square 0.7071) at 1 by lra.
        apply sqrt_le_1; lra.
      - rewrite <- (sqrt_square 0.70711) by lra.
        apply sqrt_le_1; lra. }
    set (sd := sqrt 0.5) in *.
    assert (Hpi : 0 < 1 / sqrt (2 * PI) <= 0.4084).
    { pose proof PI2_3_2 as Hp.
      assert (Hroot : 2.449 <= sqrt (2 * PI)).
      { rewrite <- (sqrt_square 2.449) at 1 by lra.
        apply sqrt_le_1; lra. }
      split.
      - apply Rdiv_lt_0_compat; lra.
      - unfold Rdiv. rewrite Rmult_1_l.
        assert (Hinv : / sqrt (2 * PI) <= / 2.449)
          by (apply Rinv_le_contravar; lra).
        lra. }
    set (c := 1 / sqrt (2 * PI)) in *.
    assert (Hce : c * e <= 0.4084 * 0.274)
      by (apply Rmult_le_compat; lra).
    assert (Hsce : sd * (c * e) <= 0.70711 * (0.4084 * 0.274))
      by (apply Rmult_le_compat; try lra; apply Rmult_le_pos; lra).
    assert (Hsz : 0.7071 * 1.6448 <= sd * - zq)
      by (apply Rmult_le_compat; lra).
    intros Hge. apply Rge_le in Hge.
    replace (/ (1 - 95 / 100) * sd * c * e * 1) with (20 * (sd * (c * e)))
      in Hge by (field; lra).
    lra.
Qed.

(* ================================================================== *)
(** * Further properties of the pricing code *)

(* ------------------------------------------------------------------ *)
(** ** Put-call parity of the Black-Scholes panel *)

Lemma prices_regular (S K T r sigma : R) :
  0 < T -> 0 < sigma ->
  BlackScholesModel.prices S K T r sigma
  = {| BlackScholesModel.callPrice :=
         S * BlackScholesModel.normalCDF (bs_d1 S K T r sigma)
         - K * exp (- (r / 100) * T)
           * BlackScholesModel.normalCDF (bs_d2 S K T r sigma);
       BlackScholesModel.putPrice :=
         K * exp (- (r / 100) * T)
         * BlackScholesModel.normalCDF (- bs_d2 S K T r sigma)
         - S * BlackScholesModel.normalCDF (- bs_d1 S K T r sigma) |}.
Proof.
  intros HT Hs. unfold BlackScholesModel.prices.
  replace (JS.le T 0) with false by (symmetry; apply le_false_iff; lra).
  replace (JS.le (sigma / 100) 0) with false
    by (symmetry; apply le_false_iff; lra).
  reflexivity.
Qed.

(** X1.  For positive spot, strike, maturity and volatility, and when
    neither [d1] nor [d2] is exactly zero, the call and put returned by the
    Black-Scholes panel satisfy put-call parity:
    [call - put = S - K * exp(-r*T)]. *)
Theorem put_call_parity (S K T r sigma : R) :
  0 < S -> 0 < K -> 0 < T -> 0 < sigma ->
  bs_d1 S K T r sigma <> 0 -> bs_d2 S K T r sigma <> 0 ->
  BlackScholesModel.callPrice (BlackScholesModel.prices S K T r sigma)
  - BlackScholesModel.putPrice (BlackScholesModel.prices S K T r sigma)
  = S - K * exp (- (r / 100) * T).
Proof.
  intros _ _ HT Hs H1 H2. rewrite prices_regular by assumption.
  cbn [BlackScholesModel.callPrice BlackScholesModel.putPrice].
  rewrite (normalCDF_reflect _ H1), (normalCDF_reflect _ H2). ring.
Qed.

Lemma bs_d1_example : bs_d1 100 100 1 0 100 = 1 / 2.
Proof.
  unfold bs_d1. replace (100 / 100) with 1 by lra.
  rewrite ln_1, sqrt_1. lra.
Qed.

Lemma put_call_parity_witness :
  BlackScholesModel.callPrice (BlackScholesModel.prices 100 100 1 0 100)
  - BlackScholesModel.putPrice (BlackScholesModel.prices 100 100 1 0 100)
  = 100 - 100 * exp (- (0 / 100) * 1).
Proof.
  apply (put_call_parity 100 100 1 0 100); try lra.
  - rewrite bs_d1_example. lra.
  - unfold bs_d2. rewrite bs_d1_example, sqrt_1. lra.
Defined.

(* ------------------------------------------------------------------ *)
(** ** The lattice price: sign and closed forms *)

Section LatticeValues.

Import BinomialOptionPricingModel.

Lemma roll_back_nonneg (disc pp : R) (layer : list R) :
  0 <= disc -> 0 <= pp <= 1 ->
  Forall (Rle 0) layer -> Forall (Rle 0) (roll_back disc pp layer).
Proof.
  intros Hd [Hp0 Hp1] Hl.
  induction Hl as [| x l Hx Hl IH]; [constructor |].
  destruct l as [| y t]; [constructor |].
  cbn [roll_back]. constructor; [| exact IH].
  inversion Hl; subst.
  apply Rmult_le_pos; [exact Hd |].
  apply Rplus_le_le_0_compat; apply Rmult_le_pos; lra.
Qed.

Lemma iter_roll_back_nonneg (disc pp : R) (c : nat) (layer : list R) :
  0 <= disc -> 0 <= pp <= 1 ->
  Forall (Rle 0) layer ->
  Forall (Rle 0) (Nat.iter c (roll_back disc pp) layer).
Proof.
  intros Hd Hp Hl. induction c as [| c IH]; [exact Hl |].
  cbn [Nat.iter nat_rect]. now apply roll_back_nonneg.
Qed.

Lemma terminal_layer_nonneg (S K uu dd : R) (n : nat) :
  Forall (Rle 0) (terminal_layer S K uu dd n).
Proof.
  unfold terminal_layer. apply Forall_forall. intros x Hx.
  apply in_map_iff in Hx. destruct Hx as [i [<- _]]. apply Rmax_l.
Qed.

Lemma guard_false_bounds (pp : R) :
  JS.lt pp 0 || JS.gt pp 1 = false -> 0 <= pp <= 1.
Proof.
  intros H. apply orb_false_iff in H. destruct H as [H0 H1].
  apply lt_false_iff in H0. apply gt_false_iff in H1. lra.
Qed.

(** X2.  For at least one step, positive maturity and non-zero
    volatility, [calculateBinomialPrice] returns a number (no hole of the
    [prices] array is ever read) and that number is never negative,
    whether or not the no-arbitrage guard fires. *)
Theorem lattice_price_nonnegative (S K T r sigma : R) (steps : nat) :
  (1 <= steps)%nat -> 0 < T -> sigma <> 0 ->
  exists v,
    calculateBinomialPrice S K T r sigma steps = Some v /\ 0 <= v.
Proof.
  intros _ _ _.
  destruct (JS.lt (p T r sigma steps) 0 || JS.gt (p T r sigma steps) 1)
    eqn:Hguard.
  - exists 0. split; [| lra].
    unfold calculateBinomialPrice. now rewrite Hguard.
  - exists (lattice_root S K T r sigma steps).
    split; [now apply lattice_loops |].
    unfold lattice_root.
    assert (Hall : Forall (Rle 0) (root_layer S K T r sigma steps)).
    { unfold root_layer. apply iter_roll_back_nonneg.
      - left. apply exp_pos.
      - now apply guard_false_bounds.
      - apply terminal_layer_nonneg. }
    destruct (root_layer S K T r sigma steps) as [| v t]; simpl; [lra |].
    now inversion Hall.
Qed.

Lemma lattice_price_nonnegative_witness :
  exists v, calculateBinomialPrice 100 105 1 0.05 0.2 50 = Some v /\ 0 <= v.
Proof.
  apply (lattice_price_nonnegative 100 105 1 0.05 0.2 50); [lia | lra | lra].
Defined.

End LatticeValues.

Section LatticeClosedForms.

Import BinomialOptionPricingModel.

Lemma roll_back_zero (disc pp : R) (layer : list R) :
  Forall (eq 0) layer -> Forall (eq 0) (roll_back disc pp layer).
Proof.
  intros Hl. induction Hl as [| x l Hx Hl IH]; [constructor |].
  destruct l as [| y t]; [constructor |].
  cbn [roll_back]. constructor; [| exact IH].
  inversion Hl; subst. lra.
Qed.

Lemma iter_roll_back_zero (disc pp : R) (c : nat) (layer : list R) :
  Forall (eq 0) layer -> Forall (eq 0) (Nat.iter c (roll_back disc pp) layer).
Proof.
  intros Hl. induction c as [| c IH]; [exact Hl |].
  cbn [Nat.iter nat_rect]. now apply roll_back_zero.
Qed.

Lemma up_factor_ge_1 (T sigma : R) (steps : nat) :
  0 <= sigma -> 1 <= u T sigma steps.
Proof.
  intros Hs. unfold u. rewrite <- exp_0.
  destruct (Req_dec (sigma * sqrt (dt T steps)) 0) as [-> | Hne]; [lra |].
  left. apply exp_increasing.
  pose proof (sqrt_pos (dt T steps)).
  assert (0 <= sigma * sqrt (dt T steps)) by now apply Rmult_le_pos.
  lra.
Qed.

Lemma down_factor_bounds (T sigma : R) (steps : nat) :
  0 <= sigma -> 0 < d T sigma steps <= 1.
Proof.
  intros Hs. pose proof (up_factor_ge_1 T sigma steps Hs) as Hu.
  unfold d. unfold Rdiv. rewrite Rmult_1_l. split.
  - apply Rinv_0_lt_compat. lra.
  - rewrite <- Rinv_1. apply Rinv_le_contravar; lra.
Qed.

(** Every node price lies between [S * d^n] and [S * u^n]. *)
Lemma node_price_bounds (S uu dd : R) (n i : nat) :
  0 <= S -> 1 <= uu -> 0 < dd <= 1 -> (i <= n)%nat ->
  S * dd ^ n <= S * uu ^ (n - i) * dd ^ i <= S * uu ^ n.
Proof.
  intros HS Hu [Hd0 Hd1] Hi.
  assert (Hdi : 0 < dd ^ i) by now apply pow_lt.
  assert (Hdi1 : dd ^ i <= 1).
  { rewrite <- (pow1 i). apply pow_incr. lra. }
  assert (Hdn : dd ^ n <= dd ^ i).
  { replace n with (i + (n - i))%nat at 1 by lia.
    rewrite pow_add.
    assert (dd ^ (n - i) <= 1).
    { rewrite <- (pow1 (n - i)). apply pow_incr. lra. }
    assert (0 < dd ^ (n - i)) by now apply pow_lt.
    nra. }
  assert (Hu1 : 1 <= uu ^ (n - i)) by now apply pow_R1_Rle.
  assert (Hun : uu ^ (n - i) <= uu ^ n) by (apply Rle_pow; [exact Hu | lia]).
  split.
  - rewrite Rmult_assoc. apply Rmult_le_compat_l; [exact HS |]. nra.
  - rewrite Rmult_assoc. apply Rmult_le_compat_l; [exact HS |]. nra.
Qed.

(** X3.  Deep out of the money: for at least one step, positive maturity
    and volatility and a non-negative spot, if even the highest terminal
    node [S * u^steps] does not exceed the strike, the lattice price is
    exactly [0]. *)
Theorem lattice_price_out_of_the_money (S K T r sigma : R) (steps : nat) :
  (1 <= steps)%nat -> 0 < T -> 0 < sigma -> 0 <= S ->
  S * u T sigma steps ^ steps <= K ->
  calculateBinomialPrice S K T r sigma steps = Some 0.
Proof.
  intros _ _ Hs0 HS Htop. assert (Hs : 0 <= sigma) by lra.
  destruct (JS.lt (p T r sigma steps) 0 || JS.gt (p T r sigma steps) 1)
    eqn:Hguard.
  - unfold calculateBinomialPrice. now rewrite Hguard.
  - rewrite lattice_loops by exact Hguard. f_equal.
    unfold lattice_root.
    assert (Hall : Forall (eq 0) (root_layer S K T r sigma steps)).
    { unfold root_layer. apply iter_roll_back_zero.
      unfold terminal_layer. apply Forall_forall. intros x Hx.
      apply in_map_iff in Hx. destruct Hx as [i [<- Hi]].
      apply in_seq in Hi.
      pose proof (node_price_bounds S (u T sigma steps) (d T sigma steps)
                    steps i HS (up_factor_ge_1 T sigma steps Hs)
                    (down_factor_bounds T sigma steps Hs) ltac:(lia))
        as [_ Hhi].
      rewrite Rmax_left; [reflexivity | lra]. }
    destruct (root_layer S K T r sigma steps) as [| v t]; simpl; [reflexivity |].
    inversion Hall; subst. reflexivity.
Qed.

Lemma roll_back_map_seq (disc pp : R) (f : nat -> R) (c : nat) :
  forall s,
    roll_back disc pp (map f (seq s (S c)))
    = map (fun i => disc * (pp * f i + (1 - pp) * f (S i))) (seq s c).
Proof.
  induction c as [| c IH]; intros s.
  - reflexivity.
  - specialize (IH (S s)).
    cbn [seq map roll_back] in IH |- *.
    now rewrite IH.
Qed.

(** One roll-back of a forward layer under the martingale identity
    [disc * (p*u + (1-p)*d) = 1] discounts the strike part only. *)
Lemma roll_back_forward_layer (disc pp S0 uu dd B : R) (m : nat) :
  disc * (pp * uu + (1 - pp) * dd) = 1 ->
  roll_back disc pp (forward_layer S0 uu dd B (S m))
  = forward_layer S0 uu dd (disc * B) m.
Proof.
  intros Hmart. unfold forward_layer.
  replace (S m + 1)%nat with (S (m + 1)) by lia.
  rewrite roll_back_map_seq. apply map_ext_in.
  intros i Hi. apply in_seq in Hi.
  replace (S m - i)%nat with (S (m - i)) by lia.
  replace (S m - S i)%nat with (m - i)%nat by lia.
  cbn [pow].
  transitivity (S0 * uu ^ (m - i) * dd ^ i
                * (disc * (pp * uu + (1 - pp) * dd)) - disc * B).
  - ring.
  - rewrite Hmart. ring.
Qed.

Lemma iter_roll_back_forward_layer (disc pp S0 uu dd : R) (c : nat) :
  disc * (pp * uu + (1 - pp) * dd) = 1 ->
  forall B,
    Nat.iter c (roll_back disc pp) (forward_layer S0 uu dd B c)
    = forward_layer S0 uu dd (disc ^ c * B) 0.
Proof.
  intros Hmart. induction c as [| c IH]; intros B.
  - simpl. unfold forward_layer. simpl. f_equal. lra.
  - rewrite Nat.iter_succ_r, roll_back_forward_layer by exact Hmart.
    rewrite IH. cbn [pow]. f_equal. ring.
Qed.

Lemma martingale_identity (T r sigma : R) (steps : nat) :
  u T sigma steps <> d T sigma steps ->
  exp (- r * dt T steps)
  * (p T r sigma steps * u T sigma steps
     + (1 - p T r sigma steps) * d T sigma steps) = 1.
Proof.
  intros Hud. unfold p.
  set (uu := u T sigma steps) in *. set (dd := d T sigma steps) in *.
  replace ((exp (r * dt T steps) - dd) / (uu - dd) * uu
           + (1 - (exp (r * dt T steps) - dd) / (uu - dd)) * dd)
    with (exp (r * dt T steps)) by (field; lra).
  rewrite <- exp_plus. replace (- r * dt T steps + r * dt T steps) with 0 by ring.
  apply exp_0.
Qed.

(** X4.  Deep in the money: with at least one step, positive maturity and
    volatility, a non-negative spot and a valid probability, if even the
    lowest terminal node [S * d^steps] is worth at least the strike, the
    lattice returns the discounted forward value [S - K * exp(-r*T)]. *)
Theorem lattice_price_in_the_money (S K T r sigma : R) (steps : nat) :
  (1 <= steps)%nat -> 0 < T -> 0 < sigma -> 0 <= S ->
  0 <= p T r sigma steps <= 1 ->
  K <= S * d T sigma steps ^ steps ->
  calculateBinomialPrice S K T r sigma steps = Some (S - K * exp (- r * T)).
Proof.
  intros Hn HT Hs HS Hp Hlow.
  rewrite lattice_loops by now apply guard_passes.
  f_equal. unfold lattice_root, root_layer.
  assert (Hsteps : 0 < INR steps) by (apply lt_0_INR; lia).
  assert (Hdt : 0 < dt T steps) by (unfold dt; now apply Rdiv_lt_0_compat).
  assert (Hu : 1 < u T sigma steps).
  { unfold u. rewrite <- exp_0. apply exp_increasing.
    apply Rmult_lt_0_compat; [exact Hs | now apply sqrt_lt_R0]. }
  pose proof (down_factor_bounds T sigma steps ltac:(lra)) as Hd.
  assert (Hd1 : d T sigma steps < 1).
  { unfold d, Rdiv. rewrite Rmult_1_l, <- Rinv_1.
    apply Rinv_0_lt_contravar; lra. }
  assert (Hterm : terminal_layer S K (u T sigma steps) (d T sigma steps) steps
                  = forward_layer S (u T sigma steps) (d T sigma steps) K steps).
  { unfold terminal_layer, forward_layer. apply map_ext_in.
    intros i Hi. apply in_seq in Hi.
    pose proof (node_price_bounds S (u T sigma steps) (d T sigma steps)
                  steps i HS ltac:(lra) Hd ltac:(lia)) as [Hlo _].
    apply Rmax_right. lra. }
  rewrite Hterm, iter_roll_back_forward_layer
    by (apply martingale_identity; lra).
  unfold forward_layer. simpl.
  rewrite exp_pow_INR.
  replace (INR steps * (- r * dt T steps)) with (- r * T)
    by (unfold dt; field; lra).
  lra.
Qed.

Lemma lattice_price_in_the_money_witness :
  calculateBinomialPrice 100 10 1 0 1 1 = Some (100 - 10 * exp (- 0 * 1)).
Proof.
  apply (lattice_price_in_the_money 100 10 1 0 1 1); try lra; try lia.
  - exact p_valid_example.
  - unfold d, u. rewrite dt_one_step, sqrt_1, Rmult_1_l.
    pose proof exp_le_3 as H3. pose proof (exp_pos 1) as He.
    simpl. rewrite Rmult_1_r. unfold Rdiv. rewrite Rmult_1_l.
    assert (/ 3 <= / exp 1) by (apply Rinv_le_contravar; lra).
    lra.
Defined.

Lemma lattice_price_out_of_the_money_witness :
  calculateBinomialPrice 1 100 1 0 1 1 = Some 0.
Proof.
  apply (lattice_price_out_of_the_money 1 100 1 0 1 1); try lra; try lia.
  unfold u. rewrite dt_one_step, sqrt_1.
  replace (1 * 1) with 1 by lra.
  pose proof exp_le_3 as H3. simpl. lra.
Defined.

End LatticeClosedForms.

(* ------------------------------------------------------------------ *)
(** ** The risk block: quantile symmetry, histogram, means *)

Section RiskExtras.

Import VaRCVaRModel.

Lemma opp_div (a b : R) : - a / b = - (a / b).
Proof. unfold Rdiv. ring. Qed.

Lemma mul_opp_div (a x b : R) : a * - x / b = - (a * x / b).
Proof. unfold Rdiv. ring. Qed.

(** X5.  The inverse normal CDF is odd about one half: for every
    probability [q] strictly between 0 and 1,
    [normalInverseCDF(1 - q) = - normalInverseCDF(q)], on the central
    branch and on both tail branches. *)
Theorem normalInverseCDF_reflect (q : R) :
  0 < q < 1 ->
  normalInverseCDF (1 - q) = - normalInverseCDF q.
Proof.
  intros _. unfold normalInverseCDF. cbv zeta.
  replace (1 - (1 - q)) with q by lra.
  replace (1 - q - 0.5) with (- (q - 0.5)) by lra.
  rewrite Rmult_opp_opp.
  cmp;
    first [ apply opp_div
          | apply mul_opp_div
          | rewrite opp_div; now rewrite Ropp_involutive
          | exfalso; lra ].
Qed.

Lemma normalInverseCDF_reflect_witness : normalInverseCDF (1 / 2) = 0.
Proof.
  pose proof (normalInverseCDF_reflect (1 / 2) ltac:(lra)) as H.
  replace (1 - 1 / 2) with (1 / 2) in H by lra. lra.
Defined.

End RiskExtras.

Section Histogram.

Import VaRCVaRModel.

(** X6.  When the returns are not all equal, the histogram of the risk
    block is built without a failing increment: it has 20 bins whose left
    edges are [min + i * width], every return is counted in exactly one
    bin (the counts add up to the number of returns), and the clamp
    [Math.min(numBins - 1, ...)] puts the largest return into the last
    bin, index 19. *)
Theorem histogram_counts_every_return (dailyReturns : list R) :
  JS.min_of dailyReturns < JS.max_of dailyReturns ->
  let minReturn := JS.min_of dailyReturns in
  let binWidth := (JS.max_of dailyReturns - minReturn) / 20 in
  exists bins,
    histogram dailyReturns = Some bins
    /\ map range bins
       = map (fun i => minReturn + INR i * binWidth) (seq 0 20)
    /\ total_count bins = length dailyReturns
    /\ binIndex_of 20 minReturn binWidth (JS.max_of dailyReturns) = 19%Z.
Proof.
  intros Hlt. cbv zeta. unfold histogram. cbv zeta.
  assert (H20 : INR 20 = 20) by (simpl; lra).
  rewrite H20.
  set (w := (JS.max_of dailyReturns - JS.min_of dailyReturns) / 20).
  assert (Hw : 0 < w) by (unfold w; lra).
  destruct (count_returns 20 (JS.min_of dailyReturns) w dailyReturns
              ltac:(lia) Hw (min_of_below dailyReturns)
              (map (fun i => {| range := JS.min_of dailyReturns + INR i * w;
                                count := 0 |}) (seq 0 20)))
    as [bins [Hrun [Hr Hc]]].
  { now rewrite length_map, length_seq. }
  exists bins. split; [exact Hrun |]. split; [| split].
  - rewrite Hr, map_map. reflexivity.
  - rewrite Hc. reflexivity.
  - unfold binIndex_of.
    replace ((JS.max_of dailyReturns - JS.min_of dailyReturns) / w) with 20
      by (unfold w; field; lra).
    rewrite (ZfloorZ 20). reflexivity.
Qed.

Lemma histogram_example : JS.min_of [-1; 0] < JS.max_of [-1; 0].
Proof.
  unfold JS.min_of, JS.max_of. cbn [fold_left].
  rewrite Rmin_left, Rmax_right by lra. lra.
Qed.

Lemma histogram_counts_every_return_witness :
  exists bins,
    histogram [-1; 0] = Some bins /\ total_count bins = 2%nat.
Proof.
  destruct (histogram_counts_every_return [-1; 0] histogram_example)
    as [bins [Hrun [_ [Hc _]]]].
  exists bins. split; [exact Hrun | exact Hc].
Defined.

End Histogram.

Section RiskSeries.

Import VaRCVaRModel.

Lemma sorted_nth_le (xs : list R) :
  StronglySorted Rle xs ->
  forall i j, (i <= j)%nat -> (j < length xs)%nat ->
              nth i xs 0 <= nth j xs 0.
Proof.
  intros Hs. induction Hs as [| y ys Hys IH Hy]; intros i j Hij Hj.
  - simpl in Hj. lia.
  - destruct j as [| j].
    + assert (i = 0%nat) by lia. subst. lra.
    + destruct i as [| i].
      * cbn [nth]. apply (proj1 (Forall_forall _ _) Hy).
        apply nth_In. simpl in Hj. lia.
      * cbn [nth]. apply IH; simpl in Hj; lia.
Qed.

Lemma floor_index_antitone (x y : R) :
  x <= y -> (JS.floor_index x <= JS.floor_index y)%nat.
Proof.
  intros Hxy. unfold JS.floor_index.
  pose proof (Zfloor_le x y Hxy). lia.
Qed.

(** X7.  Raising the confidence level never lowers the historical VaR: for
    a non-empty return series, a horizon that is not negative and
    confidence levels [0 < c1 <= c2 <= 100] (percent), the historical VaR
    at [c1] is at most the historical VaR at [c2]. *)
Theorem historical_var_monotone (unsorted : list R) (c1 c2 horizon : R) :
  (1 <= length unsorted)%nat ->
  0 < c1 -> c1 <= c2 -> c2 <= 100 -> 0 <= horizon ->
  histVaR (riskMeasures unsorted c1 horizon)
  <= histVaR (riskMeasures unsorted c2 horizon).
Proof.
  intros Hlen Hc1 Hc12 Hc2 Hh.
  destruct (historical_values unsorted c1 horizon) as [-> _].
  destruct (historical_values unsorted c2 horizon) as [-> _].
  pose proof (var_index_in_range unsorted c1 ltac:(lia) Hc1) as Hr1.
  assert (Hidx : (var_index unsorted c2 <= var_index unsorted c1)%nat).
  { unfold var_index. apply floor_index_antitone.
    apply Rmult_le_compat_r; [apply pos_INR | lra]. }
  pose proof (sorted_nth_le (JS.sort unsorted) (sort_sorted unsorted)
                (var_index unsorted c2) (var_index unsorted c1) Hidx
                ltac:(now rewrite sort_length)) as Hnth.
  pose proof (sqrt_pos horizon) as Hsq.
  apply Rmult_le_compat_r; [exact Hsq | lra].
Qed.

Lemma historical_var_monotone_witness :
  histVaR (riskMeasures [-1; 0] 50 1) <= histVaR (riskMeasures [-1; 0] 95 1).
Proof.
  apply (historical_var_monotone [-1; 0] 50 95 1); try lra.
  simpl. lia.
Defined.

Lemma sum_fold_right (xs : list R) :
  forall acc, fold_left Rplus xs acc = acc + fold_right Rplus 0 xs.
Proof.
  induction xs as [| x xs IH]; intros acc; cbn [fold_left fold_right].
  - lra.
  - rewrite IH. lra.
Qed.

Lemma sum_insert_sorted (x : R) (xs : list R) :
  fold_right Rplus 0 (JS.insert_sorted x xs) = x + fold_right Rplus 0 xs.
Proof.
  induction xs as [| y ys IH]; cbn [JS.insert_sorted fold_right].
  - reflexivity.
  - destruct (JS.le x y); cbn [fold_right]; [reflexivity |].
    rewrite IH. lra.
Qed.

Lemma sum_sort (xs : list R) : JS.sum (JS.sort xs) = JS.sum xs.
Proof.
  unfold JS.sum. rewrite !sum_fold_right. f_equal.
  induction xs as [| x xs IH]; [reflexivity |].
  cbn [JS.sort fold_right]. fold (JS.sort xs).
  now rewrite sum_insert_sorted, IH.
Qed.

Lemma ln_ratio (x y : R) : 0 < x -> 0 < y -> ln (x / y) = ln x - ln y.
Proof.
  intros Hx Hy. unfold Rdiv.
  rewrite ln_mult by (try assumption; now apply Rinv_0_lt_compat).
  rewrite ln_Rinv by assumption. lra.
Qed.

Lemma last_cons {A : Type} (a d : A) (l : list A) :
  last (a :: l) d = last l a.
Proof.
  revert a d. induction l as [| b l IH]; intros a d; [reflexivity |].
  change (last (a :: b :: l) d) with (last (b :: l) d).
  now rewrite (IH b d), (IH b a).
Qed.

Lemma logReturns_telescope (rest : list StockDataPoint) :
  forall first,
    Forall (fun pt => 0 < price pt) (first :: rest) ->
    fold_right Rplus 0 (logReturns (first :: rest))
    = ln (price (last rest first)) - ln (price first)
    /\ length (logReturns (first :: rest)) = length rest.
Proof.
  induction rest as [| next rest IH]; intros first Hpos.
  - simpl. split; [lra | reflexivity].
  - inversion Hpos as [| ? ? Hf Hrest]; subst.
    destruct (IH next Hrest) as [Hsum Hlen].
    inversion Hrest as [| ? ? Hn _]; subst.
    change (logReturns (first :: next :: rest))
      with (ln (price next / price first) :: logReturns (next :: rest)).
    cbn [fold_right length].
    rewrite Hsum, Hlen, ln_ratio, last_cons by assumption.
    split; [lra | reflexivity].
Qed.

(** X8.  For a table of positive prices, the return series of the risk
    block has one entry fewer than the table and its entries add up to
    [ln(last price) - ln(first price)]: sorting does not change the sum,
    and the log returns telescope. *)
Theorem log_returns_sum (first : StockDataPoint) (rest : list StockDataPoint)
        (confidence horizon : R) :
  Forall (fun pt => 0 < price pt) (first :: rest) ->
  let rm := VaRCVaRModel (first :: rest) confidence horizon in
  length (returns rm) = length rest
  /\ JS.sum (returns rm) = ln (price (last rest first)) - ln (price first).
Proof.
  intros Hpos. cbv zeta. unfold VaRCVaRModel, riskMeasures, riskMeasures_at.
  cbn [returns].
  destruct (logReturns_telescope rest first Hpos) as [Hsum Hlen].
  split.
  - now rewrite sort_length.
  - rewrite sum_sort. unfold JS.sum. rewrite sum_fold_right, Hsum. lra.
Qed.

Lemma log_returns_sum_witness :
  JS.sum (returns (VaRCVaRModel
                     [ {| date := "2024-01-02"; price := 100 |};
                       {| date := "2024-01-03"; price := 110 |};
                       {| date := "2024-01-04"; price := 105 |} ] 95 1))
  = ln 105 - ln 100.
Proof.
  apply (log_returns_sum {| date := "2024-01-02"; price := 100 |}
           [ {| date := "2024-01-03"; price := 110 |};
             {| date := "2024-01-04"; price := 105 |} ] 95 1).
  repeat constructor; simpl; lra.
Defined.

End RiskSeries.

(* ------------------------------------------------------------------ *)
(** ** The GARCH forecast rows *)

Section GarchRows.

Import GarchModel.

Lemma seedVariance_nonneg (returns : list R) : 0 <= seedVariance returns.
Proof.
  unfold seedVariance.
  assert (Hsum : forall xs acc, 0 <= acc ->
            0 <= fold_left (fun acc val => acc + val * val) xs acc).
  { induction xs as [| x xs IH]; intros acc Hacc; cbn [fold_left].
    - exact Hacc.
    - apply IH. nra. }
  apply Rmult_le_pos; [apply Hsum; lra |].
  destruct (length returns) as [| n].
  - simpl. rewrite Rinv_0. lra.
  - left. apply Rinv_0_lt_compat. apply lt_0_INR. lia.
Qed.

Lemma forecast_days (returns : list R) (lastPrice : R) (n : nat) :
  forall start st,
    map day (volForecast
               (JS.loop_up (forecast_body returns lastPrice) start n st))
    = map day (volForecast st) ++ seq start n
    /\ map cone_day (priceForecast
                       (JS.loop_up (forecast_body returns lastPrice) start n st))
       = map cone_day (priceForecast st) ++ seq start n.
Proof.
  induction n as [| n IH]; intros start st.
  - cbn. now rewrite !app_nil_r.
  - cbn [JS.loop_up seq].
    destruct (IH (S start) (forecast_body returns lastPrice start st))
      as [-> ->].
    cbn [forecast_body volForecast priceForecast].
    rewrite !map_app, <- !app_assoc. split; reflexivity.
Qed.

Lemma forecast_body_keeps (returns : list R) (lastPrice : R)
      (i : nat) (st : ForecastState) :
  0 <= lastPrice ->
  0 <= lastVariance st
  /\ Forall (fun pt => 0 < volatility pt) (volForecast st)
  /\ Forall (fun c => fst (range c) <= lastPrice <= snd (range c)
                      /\ fst (range c) + snd (range c) = 2 * lastPrice)
       (priceForecast st) ->
  let st' := forecast_body returns lastPrice i st in
  0 <= lastVariance st'
  /\ Forall (fun pt => 0 < volatility pt) (volForecast st')
  /\ Forall (fun c => fst (range c) <= lastPrice <= snd (range c)
                      /\ fst (range c) + snd (range c) = 2 * lastPrice)
       (priceForecast st').
Proof.
  intros HP [Hv [Hvol Hcone]]. cbv zeta. unfold forecast_body.
  cbn [lastVariance volForecast priceForecast].
  set (v' := omega + alpha * JS.last_elt returns ^ 2 + beta * lastVariance st).
  assert (Hv' : 0 < v').
  { unfold v', omega, alpha, beta.
    pose proof (pow2_ge_0 (JS.last_elt returns)). nra. }
  assert (Hann : 0 < sqrt v' * sqrt 252).
  { apply Rmult_lt_0_compat; apply sqrt_lt_R0; lra. }
  split; [lra |]. split.
  - apply Forall_snoc; [exact Hvol |]. cbn. lra.
  - apply Forall_snoc; [exact Hcone |]. cbn.
    assert (0 <= lastPrice * (sqrt v' * sqrt 252) * sqrt (INR i / 252)).
    { apply Rmult_le_pos; [| apply sqrt_pos].
      apply Rmult_le_pos; lra. }
    lra.
Qed.

(** X9.  For a non-empty return series and a non-negative last price, the
    forecast loop run for [n] days yields exactly [n] volatility rows and
    [n] cone rows, for the days [1, ..., n] in order; every forecast
    volatility is strictly positive, and every cone range is centred on
    the last price, [low <= lastPrice <= high] with
    [low + high = 2 * lastPrice]. *)
Theorem forecast_rows (returns : list R) (lastPrice : R) (n : nat) :
  returns <> [] -> 0 <= lastPrice ->
  let st := forecast returns lastPrice n in
  map day (volForecast st) = seq 1 n
  /\ map cone_day (priceForecast st) = seq 1 n
  /\ Forall (fun pt => 0 < volatility pt) (volForecast st)
  /\ Forall (fun c => fst (range c) <= lastPrice <= snd (range c)
                      /\ fst (range c) + snd (range c) = 2 * lastPrice)
       (priceForecast st).
Proof.
  intros _ HP. cbv zeta. unfold forecast.
  match goal with
  | |- context [JS.loop_up ?body 1 n ?s0] =>
      destruct (forecast_days returns lastPrice n 1 s0) as [Hd Hc];
      pose proof (loop_up_invariant
        (fun st => 0 <= lastVariance st
           /\ Forall (fun pt => 0 < volatility pt) (volForecast st)
           /\ Forall (fun c => fst (range c) <= lastPrice <= snd (range c)
                               /\ fst (range c) + snd (range c) = 2 * lastPrice)
                (priceForecast st))
        body
        (fun i s H => forecast_body_keeps returns lastPrice i s HP H)
        n 1%nat s0) as Hinv
  end.
  split; [exact Hd |]. split; [exact Hc |].
  apply Hinv. cbn. split; [apply seedVariance_nonneg |].
  split; constructor.
Qed.

Lemma forecast_rows_witness :
  map day (volForecast (forecast [0.01; 0] 100 3)) = [1; 2; 3]%nat.
Proof.
  apply (forecast_rows [0.01; 0] 100 3); [discriminate | lra].
Defined.

Lemma beta_pow_bounds (n : nat) : 0 < beta ^ n <= 1 /\ beta ^ S n <= beta ^ n.
Proof.
  assert (Hb : 0 < beta < 1) by (unfold beta; lra).
  assert (Hpos : 0 < beta ^ n) by (apply pow_lt; lra).
  split; [split; [exact Hpos |] |].
  - rewrite <- (pow1 n). apply pow_incr. lra.
  - cbn [pow]. nra.
Qed.

(** X10.  The forecast variance moves monotonically from the seed toward
    the fixed point [L = (omega + alpha*e^2)/(1 - beta)] and never
    overshoots it: if the seed is at most [L], the estimates increase and
    stay at most [L]; if the seed is at least [L], they decrease and stay
    at least [L]. *)
Theorem forecast_variance_monotone (returns : list R) (lastPrice : R) (n : nat) :
  let L := (omega + alpha * (JS.last_elt returns ^ 2)) / (1 - beta) in
  let v := variance_after returns lastPrice in
  (v 0%nat <= L -> v n <= v (S n) /\ v (S n) <= L)
  /\ (L <= v 0%nat -> L <= v (S n) /\ v (S n) <= v n).
Proof.
  cbv zeta. fold (garch_limit returns).
  rewrite !variance_after_iter, !garch_closed_form.
  set (gap := seedVariance returns - garch_limit returns).
  destruct (beta_pow_bounds n) as [[Hn0 Hn1] Hstep].
  assert (Hs0 : 0 < beta ^ S n) by (apply pow_lt; unfold beta; lra).
  cbn [pow] in *. split; intros Hseed; nra.
Qed.

Lemma forecast_variance_monotone_witness :
  (omega + alpha * (JS.last_elt [0.01; 0] ^ 2)) / (1 - beta)
  <= variance_after [0.01; 0] 100 1
  /\ variance_after [0.01; 0] 100 1 <= variance_after [0.01; 0] 100 0.
Proof.
  apply (proj2 (forecast_variance_monotone [0.01; 0] 100 0)).
  rewrite variance_after_iter. cbn [Nat.iter nat_rect].
  unfold seedVariance, JS.last_elt, omega, alpha, beta. simpl. lra.
Defined.

End GarchRows.

(* ------------------------------------------------------------------ *)
(** ** The shape of the simulated paths *)

(** An inner simulation loop appends one point per step, stamped with the
    step's time. *)
Lemma path_loop_shape {St Pt : Type} (path : St -> list Pt) (time : Pt -> R)
      (body : nat -> St -> JS.Rand St) (dt : R) :
  (forall j s draws k,
      exists pt, path (fst (body j s draws k)) = path s ++ [pt]
                 /\ time pt = INR j * dt) ->
  forall count start s draws k,
    exists tail,
      path (fst (JS.for_rand body start count s draws k)) = path s ++ tail
      /\ map time tail = map (fun j => INR j * dt) (seq start count).
Proof.
  intros Hbody. induction count as [| c IH]; intros start s draws k.
  - exists []. cbn. now rewrite app_nil_r.
  - cbn [JS.for_rand]. unfold JS.bind.
    destruct (Hbody start s draws k) as [pt [Hpath Htime]].
    destruct (body start s draws k) as [s' k']. cbn [fst] in *.
    destruct (IH (S start) s' draws k') as [tail [Ht Hm]].
    exists (pt :: tail). rewrite Ht, Hpath, <- app_assoc.
    split; [reflexivity |]. cbn [map seq]. now rewrite Htime, Hm.
Qed.

(** An outer simulation loop appends one path per iteration. *)
Lemma paths_loop_shape {Acc Path : Type} (all : Acc -> list Path)
      (Q : Path -> Prop) (body : nat -> Acc -> JS.Rand Acc) :
  (forall i acc draws k,
      exists pth, all (fst (body i acc draws k)) = all acc ++ [pth] /\ Q pth) ->
  forall count start acc draws k,
    exists new,
      all (fst (JS.for_rand body start count acc draws k)) = all acc ++ new
      /\ length new = count /\ Forall Q new.
Proof.
  intros Hbody. induction count as [| c IH]; intros start acc draws k.
  - exists []. cbn. rewrite app_nil_r. repeat split. constructor.
  - cbn [JS.for_rand]. unfold JS.bind.
    destruct (Hbody start acc draws k) as [pth [Hall HQ]].
    destruct (body start acc draws k) as [acc' k']. cbn [fst] in *.
    destruct (IH (S start) acc' draws k') as [new [Hn [Hlen HF]]].
    exists (pth :: new). rewrite Hn, Hall, <- app_assoc.
    split; [reflexivity |]. split; [simpl; now rewrite Hlen |].
    constructor; assumption.
Qed.

Lemma slice_prefix_length {A : Type} (l : list A) (n : nat) :
  length (JS.slice l 0 n) = Nat.min n (length l).
Proof. rewrite slice_from_zero. apply length_firstn. Qed.

(** Run the inner loop of a path body and name the points it appended. *)
Ltac inner_shape path time dt :=
  match goal with
  | |- context [JS.for_rand ?body ?start ?count ?s ?draws ?k] =>
      let Hshape := fresh "Hshape" in
      assert (Hshape : exists tail,
                 path (fst (JS.for_rand body start count s draws k))
                 = path s ++ tail
                 /\ map time tail
                    = map (fun j => INR j * dt) (seq start count));
      [ apply path_loop_shape
      | let tail := fresh "tail" in
        let Hp := fresh "Hpath" in
        let Ht := fresh "Htimes" in
        destruct Hshape as [tail [Hp Ht]];
        let st := fresh "st" in
        let k' := fresh "k'" in
        destruct (JS.for_rand body start count s draws k) as [st k'];
        cbn [fst] in Hp ]
  end.

Lemma gbm_path_shape (S0 K dt drift diffusion : R) (steps i : nat)
      (acc : MonteCarloModel.Acc) (draws : nat -> R) (k : nat) :
  exists pth,
    MonteCarloModel.allPaths
      (fst (MonteCarloModel.path_body S0 K dt drift diffusion steps i acc
              draws k))
    = MonteCarloModel.allPaths acc ++ [pth]
    /\ well_timed MonteCarloModel.time MonteCarloModel.price S0 dt steps pth.
Proof.
  unfold MonteCarloModel.path_body, JS.bind.
  inner_shape MonteCarloModel.path MonteCarloModel.time dt.
  - intros j s d0 k0. eexists. split; reflexivity.
  - cbn [fst JS.ret MonteCarloModel.allPaths MonteCarloModel.path] in *.
    eexists. split; [reflexivity |].
    rewrite Hpath. eexists. exists tail.
    split; [reflexivity |]. repeat split. exact Htimes.
Qed.

Lemma portfolio_path_shape (initialValue mean vol dt : R) (steps i : nat)
      (acc : PortfolioSimulator.Acc) (draws : nat -> R) (k : nat) :
  exists pth,
    PortfolioSimulator.allPaths
      (fst (PortfolioSimulator.path_body initialValue mean vol dt steps i acc
              draws k))
    = PortfolioSimulator.allPaths acc ++ [pth]
    /\ well_timed PortfolioSimulator.time PortfolioSimulator.value
         initialValue dt steps pth.
Proof.
  unfold PortfolioSimulator.path_body, JS.bind.
  inner_shape PortfolioSimulator.path PortfolioSimulator.time dt.
  - intros j s d0 k0. eexists. split; reflexivity.
  - cbn [fst JS.ret PortfolioSimulator.allPaths PortfolioSimulator.path] in *.
    eexists. split; [reflexivity |].
    rewrite Hpath. eexists. exists tail.
    split; [reflexivity |]. repeat split. exact Htimes.
Qed.

Lemma jump_path_shape (S0 r sigma lambda mu delta dt : R) (steps i : nat)
      (paths : list (list MertonJumpDiffusionModel.PathPoint))
      (draws : nat -> R) (k : nat) :
  exists pth,
    fst (MertonJumpDiffusionModel.path_body S0 r sigma lambda mu delta dt
           steps i paths draws k)
    = paths ++ [pth]
    /\ well_timed MertonJumpDiffusionModel.time MertonJumpDiffusionModel.price
         S0 dt steps pth.
Proof.
  unfold MertonJumpDiffusionModel.path_body, JS.bind.
  inner_shape MertonJumpDiffusionModel.path MertonJumpDiffusionModel.time dt.
  - intros j s d0 k0.
    unfold MertonJumpDiffusionModel.step_body, JS.bind, JS.Math_random.
    destruct (JS.lt (d0 k0) (lambda * dt)); eexists; split; reflexivity.
  - cbn [fst JS.ret MertonJumpDiffusionModel.path] in *.
    eexists. split; [reflexivity |].
    rewrite Hpath. eexists. exists tail.
    split; [reflexivity |]. repeat split. exact Htimes.
Qed.

Lemma cir_path_shape (r0 a b sigma dt : R) (steps i : nat)
      (paths : list (list InterestRateModel.PathPoint))
      (draws : nat -> R) (k : nat) :
  exists pth,
    fst (InterestRateModel.path_body r0 a b sigma dt steps i paths draws k)
    = paths ++ [pth]
    /\ well_timed InterestRateModel.time InterestRateModel.rate
         r0 dt steps pth.
Proof.
  unfold InterestRateModel.path_body, JS.bind.
  inner_shape InterestRateModel.path InterestRateModel.time dt.
  - intros j s d0 k0. eexists. split; reflexivity.
  - cbn [fst JS.ret InterestRateModel.path] in *.
    eexists. split; [reflexivity |].
    rewrite Hpath. eexists. exists tail.
    split; [reflexivity |]. repeat split. exact Htimes.
Qed.

(** X11.  On every run, each simulator returns paths of the promised
    shape.  The GBM simulator returns [min(25, paths)] paths of
    [steps + 1] points, the portfolio simulator [min(50, paths)] paths of
    101 points, the jump-diffusion simulator 20 paths and the CIR
    simulator 25 paths of 253 points each; every path starts at time [0]
    with the initial value, and its [j]-th later point carries the time
    [j * dt]. *)
Theorem simulated_paths_shape (draws : nat -> R) (k : nat) :
  (forall S0 K T r sigma steps paths,
      let out := MonteCarloModel.chartPaths
                   (fst (MonteCarloModel.generatePaths S0 K T r sigma steps
                           paths draws k)) in
      length out = Nat.min 25 paths
      /\ Forall (well_timed MonteCarloModel.time MonteCarloModel.price
                   S0 (T / INR steps) steps) out)
  /\ (forall initialValue mean vol T npaths,
      let out := PortfolioSimulator.paths
                   (fst (PortfolioSimulator.generatePortfolioPaths
                           initialValue mean vol T npaths draws k)) in
      length out = Nat.min 50 npaths
      /\ Forall (well_timed PortfolioSimulator.time PortfolioSimulator.value
                   initialValue (T / INR 100) 100) out)
  /\ (forall S0 T r sigma lambda mu delta,
      let out := fst (MertonJumpDiffusionModel.generateJumpPaths S0 T r sigma
                        lambda mu delta draws k) in
      length out = 20%nat
      /\ Forall (well_timed MertonJumpDiffusionModel.time
                   MertonJumpDiffusionModel.price S0 (T / INR 252) 252) out)
  /\ (forall r0 a b sigma T,
      let out := fst (InterestRateModel.generateCIRPaths r0 a b sigma T
                        draws k) in
      length out = 25%nat
      /\ Forall (well_timed InterestRateModel.time InterestRateModel.rate
                   r0 (T / INR 252) 252) out).
Proof.
  split; [| split; [| split]].
  - intros S0 K T r sigma steps paths. cbv zeta.
    unfold MonteCarloModel.generatePaths, JS.bind.
    match goal with
    | |- context [JS.for_rand ?body 0 paths ?a draws k] =>
        destruct (paths_loop_shape MonteCarloModel.allPaths
                    (well_timed MonteCarloModel.time MonteCarloModel.price
                       S0 (T / INR steps) steps) body
                    (fun i acc d0 k0 =>
                       gbm_path_shape S0 K _ _ _ steps i acc d0 k0)
                    paths 0%nat a draws k) as [new [Hall [Hlen HF]]];
        destruct (JS.for_rand body 0 paths a draws k) as [acc k']
    end.
    cbn [fst JS.ret MonteCarloModel.chartPaths MonteCarloModel.allPaths] in *.
    rewrite Hall. cbn [app].
    split; [now rewrite slice_prefix_length, Hlen | now apply Forall_slice].
  - intros initialValue mean vol T npaths. cbv zeta.
    unfold PortfolioSimulator.generatePortfolioPaths, JS.bind.
    match goal with
    | |- context [JS.for_rand ?body 0 npaths ?a draws k] =>
        destruct (paths_loop_shape PortfolioSimulator.allPaths
                    (well_timed PortfolioSimulator.time PortfolioSimulator.value
                       initialValue (T / INR 100) 100) body
                    (fun i acc d0 k0 =>
                       portfolio_path_shape initialValue mean vol _ 100 i acc
                         d0 k0)
                    npaths 0%nat a draws k) as [new [Hall [Hlen HF]]];
        destruct (JS.for_rand body 0 npaths a draws k) as [acc k']
    end.
    cbn [fst JS.ret PortfolioSimulator.paths PortfolioSimulator.allPaths] in *.
    rewrite Hall. cbn [app].
    split; [now rewrite slice_prefix_length, Hlen | now apply Forall_slice].
  - intros S0 T r sigma lambda mu delta. cbv zeta.
    unfold MertonJumpDiffusionModel.generateJumpPaths.
    match goal with
    | |- context [JS.for_rand ?body 0 20 ?a draws k] =>
        destruct (paths_loop_shape (fun ps => ps)
                    (well_timed MertonJumpDiffusionModel.time
                       MertonJumpDiffusionModel.price S0 (T / INR 252) 252)
                    body
                    (fun i acc d0 k0 =>
                       jump_path_shape S0 r sigma lambda mu delta _ 252 i acc
                         d0 k0)
                    20%nat 0%nat a draws k) as [new [Hall [Hlen HF]]]
    end.
    rewrite Hall. cbn [app]. split; assumption.
  - intros r0 a b sigma T. cbv zeta.
    unfold InterestRateModel.generateCIRPaths.
    match goal with
    | |- context [JS.for_rand ?body 0 25 ?a0 draws k] =>
        destruct (paths_loop_shape (fun ps => ps)
                    (well_timed InterestRateModel.time InterestRateModel.rate
                       r0 (T / INR 252) 252)
                    body
                    (fun i acc d0 k0 =>
                       cir_path_shape r0 a b sigma _ 252 i acc d0 k0)
                    25%nat 0%nat a0 draws k) as [new [Hall [Hlen HF]]]
    end.
    rewrite Hall. cbn [app]. split; assumption.
Qed.

(* ------------------------------------------------------------------ *)
(** ** Simulators at their edges *)






Lemma cir_step_no_noise (a b dt lo hi : R) (j : nat)
      (st : InterestRateModel.PathState) (draws : nat -> R) (k : nat) :
  0 <= a * dt <= 1 -> 0 <= lo -> lo <= b <= hi ->
  lo <= InterestRateModel.currentRate st <= hi
  /\ Forall (fun pt => lo <= InterestRateModel.rate pt <= hi)
       (InterestRateModel.path st) ->
  let st' := fst (InterestRateModel.step_body a b 0 dt j st draws k) in
  lo <= InterestRateModel.currentRate st' <= hi
  /\ Forall (fun pt => lo <= InterestRateModel.rate pt <= hi)
       (InterestRateModel.path st').
Proof.
  intros Ha Hlo Hb [Hcur Hpath]. cbv zeta.
  unfold InterestRateModel.step_body, JS.bind, JS.randomNormal, JS.ret.
  cbn [fst InterestRateModel.currentRate InterestRateModel.path].
  set (cur := InterestRateModel.currentRate st) in *.
  set (next := cur + (a * (b - cur) * dt
                      + 0 * sqrt (Rmax 0 cur) * (draws k * sqrt dt))).
  assert (Hnext : lo <= next <= hi).
  { unfold next.
    replace (cur + (a * (b - cur) * dt
                    + 0 * sqrt (Rmax 0 cur) * (draws k * sqrt dt)))
      with ((1 - a * dt) * cur + a * dt * b) by ring.
    split; nra. }
  assert (Hclamp : Rmax 0 next = next) by (apply Rmax_right; lra).
  rewrite Hclamp. split; [exact Hnext |].
  apply Forall_snoc; [exact Hpath |]. cbn. exact Hnext.
Qed.

(** X14.  Without noise ([sigma = 0]), with a horizon that is not
    negative, non-negative initial rate and long-run mean and a
    mean-reversion step [0 <= a * T/252 <= 1], every simulated CIR rate
    lies between the initial rate and the long-run mean; the clamp at
    zero never acts. *)
Theorem cir_no_noise_bounded (r0 a b T : R) (draws : nat -> R) (k : nat) :
  0 <= T -> 0 <= r0 -> 0 <= b -> 0 <= a * (T / INR 252) <= 1 ->
  Forall (Forall (fun pt =>
                    Rmin r0 b <= InterestRateModel.rate pt <= Rmax r0 b))
    (fst (InterestRateModel.generateCIRPaths r0 a b 0 T draws k)).
Proof.
  intros _ Hr0 Hb Ha. unfold InterestRateModel.generateCIRPaths.
  pose proof (Rmin_l r0 b) as Hm1. pose proof (Rmin_r r0 b) as Hm2.
  pose proof (Rmax_l r0 b) as HM1. pose proof (Rmax_r r0 b) as HM2.
  assert (Hlo : 0 <= Rmin r0 b) by (apply Rmin_glb; assumption).
  apply (for_rand_invariant
           (Forall (Forall (fun pt => Rmin r0 b <= InterestRateModel.rate pt
                                      <= Rmax r0 b)))); [| constructor].
  intros i acc d0 k0 Hacc.
  unfold InterestRateModel.path_body, JS.bind.
  inner_loop (fun st =>
    Rmin r0 b <= InterestRateModel.currentRate st <= Rmax r0 b
    /\ Forall (fun pt => Rmin r0 b <= InterestRateModel.rate pt <= Rmax r0 b)
         (InterestRateModel.path st)).
  cbn [fst JS.ret].
  apply Forall_snoc; [exact Hacc |].
  apply Hin.
  - intros j s d1 k1 Hs.
    apply (cir_step_no_noise a b (T / INR 252) (Rmin r0 b) (Rmax r0 b));
      try assumption; lra.
  - cbn. split; [lra |]. constructor; [cbn; lra | constructor].
Qed.

Lemma cir_no_noise_bounded_witness :
  Forall (Forall (fun pt =>
                    Rmin 0.02 0.03 <= InterestRateModel.rate pt
                    <= Rmax 0.02 0.03))
    (fst (InterestRateModel.generateCIRPaths 0.02 0.3 0.03 0 5
            (fun _ => 0) 0%nat)).
Proof.
  apply (cir_no_noise_bounded 0.02 0.3 0.03 5); try lra.
  assert (H : INR 252 = 252) by (rewrite INR_IZR_INZ; reflexivity).
  rewrite H. lra.
Defined.

(* ------------------------------------------------------------------ *)
(** ** The portfolio simulator: percentiles and cone *)

Lemma portfolio_final_value (initialValue mean vol dt : R) (steps i : nat)
      (acc : PortfolioSimulator.Acc) (draws : nat -> R) (k : nat) :
  0 <= initialValue ->
  exists v,
    PortfolioSimulator.finalValues
      (fst (PortfolioSimulator.path_body initialValue mean vol dt steps i acc
              draws k))
    = PortfolioSimulator.finalValues acc ++ [v]
    /\ 0 <= v.
Proof.
  intros Hiv. unfold PortfolioSimulator.path_body, JS.bind.
  inner_loop (fun st => 0 <= PortfolioSimulator.currentValue st
                /\ nonneg_path PortfolioSimulator.value
                     (PortfolioSimulator.path st)).
  cbn [fst JS.ret PortfolioSimulator.finalValues].
  eexists. split; [reflexivity |].
  apply Hin.
  - intros j s d0 k0. apply portfolio_step_nonneg.
  - cbn. split; [exact Hiv |]. constructor; [exact Hiv | constructor].
Qed.

Lemma sort_Forall (P : R -> Prop) (xs : list R) :
  Forall P xs -> Forall P (JS.sort xs).
Proof.
  intros H. induction H as [| x xs Hx Hxs IH]; [constructor |].
  cbn [JS.sort fold_right]. now apply insert_sorted_Forall.
Qed.

(** X15.  With at least one path, a non-negative initial value and a
    horizon that is not negative, the three percentiles reported by the
    portfolio simulator are ordered and non-negative on every run:
    [0 <= p5 <= p50 <= p95]. *)
Theorem portfolio_percentiles_ordered (initialValue mean vol T : R)
        (npaths : nat) (draws : nat -> R) (k : nat) :
  (1 <= npaths)%nat -> 0 <= initialValue -> 0 <= T ->
  let pc := PortfolioSimulator.percentiles
              (fst (PortfolioSimulator.generatePortfolioPaths initialValue
                      mean vol T npaths draws k)) in
  0 <= PortfolioSimulator.p5 pc
  /\ PortfolioSimulator.p5 pc <= PortfolioSimulator.p50 pc
  /\ PortfolioSimulator.p50 pc <= PortfolioSimulator.p95 pc.
Proof.
  intros Hn Hiv _. cbv zeta.
  unfold PortfolioSimulator.generatePortfolioPaths, JS.bind.
  match goal with
  | |- context [JS.for_rand ?body 0 npaths ?a draws k] =>
      destruct (paths_loop_shape PortfolioSimulator.finalValues (Rle 0) body
                  (fun i acc d0 k0 =>
                     portfolio_final_value initialValue mean vol _ 100 i acc
                       d0 k0 Hiv)
                  npaths 0%nat a draws k) as [new [Hall [Hlen HF]]];
      destruct (JS.for_rand body 0 npaths a draws k) as [acc k']
  end.
  cbn [fst JS.ret PortfolioSimulator.percentiles PortfolioSimulator.p5
       PortfolioSimulator.p50 PortfolioSimulator.p95
       PortfolioSimulator.finalValues] in *.
  rewrite Hall. cbn [app].
  pose proof (sort_sorted new) as Hsorted.
  pose proof (sort_Forall (Rle 0) new HF) as Hpos.
  assert (HN : 0 < INR npaths) by (apply lt_0_INR; lia).
  assert (H95 : (JS.floor_index (INR npaths * 0.95) < length (JS.sort new))%nat).
  { rewrite sort_length, Hlen. apply floor_index_below; [nra | lia]. }
  assert (H1 : (JS.floor_index (INR npaths * 0.05)
                <= JS.floor_index (INR npaths * 0.5))%nat)
    by (apply floor_index_antitone; nra).
  assert (H2 : (JS.floor_index (INR npaths * 0.5)
                <= JS.floor_index (INR npaths * 0.95))%nat)
    by (apply floor_index_antitone; nra).
  split; [| split].
  - apply (proj1 (Forall_forall _ _) Hpos). apply nth_In. lia.
  - apply sorted_nth_le; [exact Hsorted | exact H1 | lia].
  - apply sorted_nth_le; [exact Hsorted | exact H2 | exact H95].
Qed.

Lemma portfolio_percentiles_ordered_witness :
  0 <= PortfolioSimulator.p5
         (PortfolioSimulator.percentiles
            (fst (PortfolioSimulator.generatePortfolioPaths 1000000 0.1 0.2 1
                    2 (fun _ => 0) 0%nat))).
Proof.
  exact (proj1 (portfolio_percentiles_ordered 1000000 0.1 0.2 1 2
                  (fun _ => 0) 0%nat
                  ltac:(lia) ltac:(lra) ltac:(lra))).
Defined.

Lemma cone_loop (initialValue mean vol dt : R) (count : nat) :
  forall start acc,
    Forall (fun c => 0 <= fst (PortfolioSimulator.range c)
                     <= snd (PortfolioSimulator.range c)) acc ->
    0 <= initialValue -> 0 <= vol ->
    let out := JS.loop_up (PortfolioSimulator.cone_body initialValue mean vol dt)
                          start count acc in
    map PortfolioSimulator.cone_time out
    = map PortfolioSimulator.cone_time acc
      ++ map (fun j => INR j * dt) (seq start count)
    /\ Forall (fun c => 0 <= fst (PortfolioSimulator.range c)
                        <= snd (PortfolioSimulator.range c)) out.
Proof.
  induction count as [| c IH]; intros start acc Hacc Hiv Hvol; cbv zeta.
  - cbn. rewrite app_nil_r. split; [reflexivity | exact Hacc].
  - cbn [JS.loop_up seq map].
    destruct (IH (S start)
                (PortfolioSimulator.cone_body initialValue mean vol dt start acc))
      as [Ht Hr]; try assumption.
    + unfold PortfolioSimulator.cone_body.
      apply Forall_snoc; [exact Hacc |].
      cbn [PortfolioSimulator.range fst snd].
      set (center := initialValue * exp (mean * (INR start * dt))).
      set (width := center * vol * sqrt (INR start * dt) * 1.645).
      assert (Hc : 0 <= center).
      { unfold center. apply Rmult_le_pos; [exact Hiv | left; apply exp_pos]. }
      assert (Hw : 0 <= width).
      { unfold width. apply Rmult_le_pos; [| lra].
        apply Rmult_le_pos; [| apply sqrt_pos].
        now apply Rmult_le_pos. }
      split; [apply Rmax_l |]. apply Rmax_lub; lra.
    + split; [| exact Hr]. rewrite Ht.
      unfold PortfolioSimulator.cone_body at 1.
      rewrite map_app, <- app_assoc. reflexivity.
Qed.

(** X16.  For a non-negative initial value, volatility and horizon, the
    forecast cone of the portfolio simulator has 101 rows at the times
    [j * T/100], [j = 0..100], and in every row [0 <= low <= high]. *)
Theorem portfolio_cone_rows (initialValue mean vol T : R) (npaths : nat)
        (draws : nat -> R) (k : nat) :
  0 <= initialValue -> 0 <= vol -> 0 <= T ->
  let cone := PortfolioSimulator.coneData
                (fst (PortfolioSimulator.generatePortfolioPaths initialValue
                        mean vol T npaths draws k)) in
  map PortfolioSimulator.cone_time cone
  = map (fun j => INR j * (T / INR 100)) (seq 0 101)
  /\ Forall (fun c => 0 <= fst (PortfolioSimulator.range c)
                      <= snd (PortfolioSimulator.range c)) cone.
Proof.
  intros Hiv Hvol _. cbv zeta.
  unfold PortfolioSimulator.generatePortfolioPaths, JS.bind.
  destruct (JS.for_rand _ 0 npaths _ draws k) as [acc k'].
  cbn [fst JS.ret PortfolioSimulator.coneData].
  exact (cone_loop initialValue mean vol (T / INR 100) (100 + 1) 0 []
           (Forall_nil _) Hiv Hvol).
Qed.

Lemma portfolio_cone_rows_witness :
  Forall (fun c => 0 <= fst (PortfolioSimulator.range c)
                   <= snd (PortfolioSimulator.range c))
    (PortfolioSimulator.coneData
       (fst (PortfolioSimulator.generatePortfolioPaths 1000000 0.1 0.2 1
               2 (fun _ => 0) 0%nat))).
Proof.
  exact (proj2 (portfolio_cone_rows 1000000 0.1 0.2 1 2 (fun _ => 0) 0%nat
                  ltac:(lra) ltac:(lra) ltac:(lra))).
Defined.


(* ------------------------------------------------------------------ *)
(** ** The Merton allocation *)

Section Merton.

Import StochasticControlModel.

Lemma merton_fraction (gamma mu sigma r : R) :
  0 < sigma ->
  riskyFraction (allocate gamma mu sigma r)
  = (mu - r) / gamma * (100 / sigma ^ 2).
Proof.
  intros Hs. unfold allocate. cbn [riskyFraction].
  destruct (Req_dec gamma 0) as [-> | Hg].
  - unfold Rdiv. rewrite Rmult_0_l, !Rinv_0. ring.
  - field. split; lra.
Qed.

(** X17.  For positive risk aversion and volatility, the allocation shown
    by the stochastic-control panel has two rows whose values add up to 1;
    the risky share is the Merton fraction clamped to [[-1, 2]], so it
    equals the reported fraction exactly when that fraction lies in
    [[-1, 2]], and the reported fraction itself is never clamped: it is
    [(mu - r)/100 / (gamma * (sigma/100)^2)]. *)
Theorem merton_allocation (gamma mu sigma r : R) :
  0 < gamma -> 0 < sigma ->
  let res := allocate gamma mu sigma r in
  let f := (mu / 100 - r / 100) / (gamma * (sigma / 100) ^ 2) in
  riskyFraction res = f
  /\ exists risky bonds,
       map value (allocation res) = [risky; bonds]
       /\ risky + bonds = 1
       /\ -1 <= risky <= 2
       /\ (risky = f <-> -1 <= f <= 2).
Proof.
  intros _ _. cbv zeta. split; [reflexivity |].
  unfold allocate. cbn [allocation map value].
  set (f := (mu / 100 - r / 100) / (gamma * (sigma / 100) ^ 2)).
  exists (Rmax (-1) (Rmin 2 f)), (1 - Rmax (-1) (Rmin 2 f)).
  split; [reflexivity |]. split; [lra |].
  assert (Hcap : -1 <= Rmax (-1) (Rmin 2 f) <= 2).
  { split; [apply Rmax_l |]. apply Rmax_lub; [lra | apply Rmin_l]. }
  split; [exact Hcap |]. split.
  - intros Heq. rewrite <- Heq. exact Hcap.
  - intros [Hlo Hhi]. rewrite Rmin_right, Rmax_right by lra. reflexivity.
Qed.

Lemma merton_allocation_witness :
  riskyFraction (allocate 3 8 20 3)
  = (8 / 100 - 3 / 100) / (3 * (20 / 100) ^ 2).
Proof.
  apply (merton_allocation 3 8 20 3); lra.
Defined.

(** X18.  For positive risk aversion and volatility the reported Merton
    fraction is positive exactly when the expected return exceeds the
    risk-free rate, and it is inversely proportional to the risk
    aversion: multiplying [gamma] by [c > 0] divides the fraction by
    [c]. *)
Theorem merton_fraction_sign (gamma mu sigma r c : R) :
  0 < gamma -> 0 < sigma -> 0 < c ->
  (0 < riskyFraction (allocate gamma mu sigma r) <-> r < mu)
  /\ riskyFraction (allocate (c * gamma) mu sigma r)
     = riskyFraction (allocate gamma mu sigma r) / c.
Proof.
  intros Hg Hs Hc. rewrite !merton_fraction by assumption.
  assert (Hs2 : 0 < 100 / sigma ^ 2).
  { apply Rdiv_lt_0_compat; [lra |]. apply pow_lt. exact Hs. }
  assert (Hig : 0 < / gamma) by now apply Rinv_0_lt_compat.
  split.
  - unfold Rdiv at 1. split; intros H.
    + assert (0 < (mu - r) * / gamma) by nra. nra.
    + apply Rmult_lt_0_compat; [| exact Hs2].
      apply Rmult_lt_0_compat; lra.
  - field. split; [| split]; lra.
Qed.

Lemma merton_fraction_sign_witness :
  0 < riskyFraction (allocate 3 8 20 3).
Proof.
  apply (proj1 (merton_fraction_sign 3 8 20 3 1 ltac:(lra) ltac:(lra)
                  ltac:(lra))).
  lra.
Defined.

End Merton.

(* ------------------------------------------------------------------ *)
(** ** Portfolio statistics *)

Section PortfolioStats.

Import PortfolioSimulator.

Lemma list_sum_fold_left (xs : list R) :
  forall acc, fold_left Rplus xs acc = acc + list_sum xs.
Proof. intros acc. apply sum_fold_right. Qed.

Lemma list_sum_linear (f g : nat -> R) (a b : R) (l : list nat) :
  list_sum (map (fun j => a * f j + b * g j) l)
  = a * list_sum (map f l) + b * list_sum (map g l).
Proof.
  induction l as [| x l IH]; cbn [map list_sum fold_right] in *.
  - lra.
  - unfold list_sum in IH. rewrite IH. ring.
Qed.

Lemma list_sum_diagonal (i : nat) (x : R) (c : nat) :
  forall s,
    list_sum (map (fun j => if (i =? j)%nat then x else 0) (seq s c))
    = if (s <=? i)%nat && (i <? s + c)%nat then x else 0.
Proof.
  induction c as [| c IH]; intros s.
  - cbn [seq map list_sum fold_right].
    destruct (Nat.leb_spec s i), (Nat.ltb_spec i (s + 0));
      cbn [andb]; try reflexivity; lia.
  - cbn [seq map]. unfold list_sum in *. cbn [fold_right]. rewrite IH.
    destruct (Nat.eqb_spec i s), (Nat.leb_spec (S s) i),
      (Nat.ltb_spec i (S s + c)), (Nat.leb_spec s i),
      (Nat.ltb_spec i (s + S c));
      cbn [andb]; try lra; exfalso; lia.
Qed.

(** The exposure of the asset at index [j]. *)
Lemma exposures_nth (stats : list AssetStat) :
  forall j,
    nth j (exposures stats) 0
    = stat_weight (nth j stats no_stat) * annualVol (nth j stats no_stat).
Proof.
  induction stats as [| st stats IH]; intros j.
  - destruct j; cbn; lra.
  - destruct j as [| j]; [reflexivity |]. apply IH.
Qed.

Lemma map_nth_seq (xs : list R) :
  map (fun j => nth j xs 0) (seq 0 (length xs)) = xs.
Proof.
  induction xs as [| x xs IH]; [reflexivity |].
  cbn [length seq map nth]. f_equal.
  rewrite <- seq_shift, map_map. exact IH.
Qed.

Lemma inner_variance_loop (stats : list AssetStat) (i c : nat) :
  forall s acc,
    JS.loop_up (variance_body stats i) s c acc
    = acc
      + list_sum
          (map (fun j => 0.4 * (nth i (exposures stats) 0
                                * nth j (exposures stats) 0)
                         + 0.6 * (if (i =? j)%nat
                                  then nth i (exposures stats) 0 ^ 2 else 0))
               (seq s c)).
Proof.
  induction c as [| c IH]; intros s acc.
  - cbn. lra.
  - cbn [JS.loop_up seq map list_sum fold_right]. rewrite IH.
    unfold list_sum. unfold variance_body at 1. cbv zeta.
    rewrite !exposures_nth.
    match goal with
    | |- context [fold_right Rplus 0 ?l] => generalize (fold_right Rplus 0 l)
    end.
    intros rest.
    destruct (i =? s)%nat eqn:Heq.
    + apply Nat.eqb_eq in Heq. subst s. nra.
    + nra.
Qed.

Lemma list_sum_scale (a : R) (f : nat -> R) (l : list nat) :
  list_sum (map (fun j => a * f j) l) = a * list_sum (map f l).
Proof.
  induction l as [| x l IH]; cbn [map list_sum fold_right] in *.
  - lra.
  - unfold list_sum in IH. rewrite IH. ring.
Qed.

Lemma outer_variance_loop (stats : list AssetStat) (c : nat) :
  forall s acc,
    JS.loop_up
      (fun i => JS.loop_up (variance_body stats i) 0 (length stats)) s c acc
    = acc
      + list_sum
          (map (fun i =>
                  0.4 * (nth i (exposures stats) 0 * list_sum (exposures stats))
                  + 0.6 * (if (i <? length stats)%nat
                           then nth i (exposures stats) 0 ^ 2 else 0))
               (seq s c)).
Proof.
  induction c as [| c IH]; intros s acc.
  - cbn. lra.
  - cbn [JS.loop_up seq map]. rewrite IH.
    rewrite inner_variance_loop.
    rewrite (list_sum_linear
               (fun j => nth s (exposures stats) 0 * nth j (exposures stats) 0)
               (fun j => if (s =? j)%nat
                         then nth s (exposures stats) 0 ^ 2 else 0)).
    rewrite list_sum_diagonal. cbn [Nat.leb andb plus].
    rewrite (list_sum_scale (nth s (exposures stats) 0)
               (fun j => nth j (exposures stats) 0)).
    replace (length stats) with (length (exposures stats))
      by (unfold exposures; apply length_map).
    rewrite map_nth_seq.
    unfold list_sum. cbn [fold_right]. lra.
Qed.

Lemma portfolioVariance_closed (stats : list AssetStat) :
  portfolioVariance stats
  = 0.4 * list_sum (exposures stats) ^ 2
    + 0.6 * list_sum (map (fun e => e ^ 2) (exposures stats)).
Proof.
  assert (Hlen : length (exposures stats) = length stats)
    by (unfold exposures; apply length_map).
  unfold portfolioVariance. rewrite outer_variance_loop.
  rewrite (list_sum_linear
             (fun i => nth i (exposures stats) 0 * list_sum (exposures stats))
             (fun i => if (i <? length stats)%nat
                       then nth i (exposures stats) 0 ^ 2 else 0)).
  replace (list_sum
             (map (fun i => nth i (exposures stats) 0
                            * list_sum (exposures stats))
                  (seq 0 (length stats))))
    with (list_sum (exposures stats) * list_sum (exposures stats)).
  - replace (map (fun i => if (i <? length stats)%nat
                           then nth i (exposures stats) 0 ^ 2 else 0)
                 (seq 0 (length stats)))
      with (map (fun e => e ^ 2) (exposures stats)); [lra |].
    rewrite <- (map_nth_seq (exposures stats)) at 1.
    rewrite map_map, Hlen.
    apply map_ext_in. intros i Hi. apply in_seq in Hi.
    destruct (Nat.ltb_spec i (length stats)); [reflexivity | lia].
  - rewrite <- (map_nth_seq (exposures stats)) at 2.
    rewrite Hlen.
    generalize (list_sum (exposures stats)). intros t.
    generalize (seq 0 (length stats)). intros l.
    induction l as [| x l IHl]; cbn [map list_sum fold_right] in *.
    + lra.
    + unfold list_sum in IHl. rewrite <- IHl. ring.
Qed.

Lemma list_sum_squares_nonneg (xs : list R) :
  0 <= list_sum (map (fun e => e ^ 2) xs).
Proof.
  induction xs as [| x xs IH]; cbn [map list_sum fold_right] in *.
  - lra.
  - unfold list_sum in IH. pose proof (pow2_ge_0 x). lra.
Qed.

Lemma portfolioVariance_nonneg (stats : list AssetStat) :
  0 <= portfolioVariance stats.
Proof.
  rewrite portfolioVariance_closed.
  pose proof (list_sum_squares_nonneg (exposures stats)).
  pose proof (pow2_ge_0 (list_sum (exposures stats))). lra.
Qed.

Lemma mean_fold (stats : list AssetStat) :
  forall acc,
    fold_left (fun acc stat => acc + annualReturn stat * stat_weight stat)
              stats acc
    = acc + list_sum (map (fun s => annualReturn s * stat_weight s) stats).
Proof.
  induction stats as [| st stats IH]; intros acc;
    cbn [fold_left map list_sum fold_right].
  - lra.
  - rewrite IH. unfold list_sum. lra.
Qed.

Lemma assetStat_scale (D : string -> option (list StockDataPoint))
      (c : R) (a : PortfolioAsset) :
  let s := assetStat D a in
  let s' := assetStat D {| ticker := ticker a; weight := c * weight a |} in
  stat_weight s' = c * stat_weight s
  /\ annualReturn s' = annualReturn s /\ annualVol s' = annualVol s.
Proof.
  unfold assetStat. cbn [ticker weight].
  destruct (D (ticker a)) as [assetData |]; [| cbn; auto].
  destruct (length assetData <? 2)%nat; [cbn; auto |].
  destruct (length (VaRCVaRModel.logReturns assetData) <? 2)%nat; cbn; auto.
Qed.

Lemma exposures_scale (D : string -> option (list StockDataPoint))
      (c : R) (pf : list PortfolioAsset) :
  exposures (map (assetStat D) (scale_weights c pf))
  = map (fun e => c * e) (exposures (map (assetStat D) pf)).
Proof.
  unfold exposures, scale_weights. rewrite !map_map.
  apply map_ext. intros a.
  destruct (assetStat_scale D c a) as (Hw & _ & Hv).
  rewrite Hw, Hv. ring.
Qed.

Lemma list_sum_map_scale (c : R) (xs : list R) :
  list_sum (map (fun e => c * e) xs) = c * list_sum xs.
Proof.
  induction xs as [| x xs IH]; cbn [map list_sum fold_right] in *.
  - lra.
  - unfold list_sum in IH. rewrite IH. ring.
Qed.

Lemma list_sum_squares_scale (c : R) (xs : list R) :
  list_sum (map (fun e => e ^ 2) (map (fun e => c * e) xs))
  = c ^ 2 * list_sum (map (fun e => e ^ 2) xs).
Proof.
  induction xs as [| x xs IH]; cbn [map list_sum fold_right] in *.
  - lra.
  - unfold list_sum in IH. rewrite IH. ring.
Qed.

(** X19. The volatility [calculatePortfolioStats] reports for a
    non-empty portfolio is the square root of
    [0.4 * (sum of e)^2 + 0.6 * (sum of e^2)], where [e] runs over the
    exposures [weight * annualVol] of the assets: the double loop adds
    the constant correlation 0.4 off the diagonal and 1 on it.  That
    quantity is never negative, so the [Math.max(0, .)] clamp leaves the
    variance as it is. *)
Theorem portfolio_volatility_closed_form
        (D : string -> option (list StockDataPoint))
        (pf : list PortfolioAsset) :
  pf <> [] ->
  let e := exposures (map (assetStat D) pf) in
  Rmax 0 (portfolioVariance (map (assetStat D) pf))
  = portfolioVariance (map (assetStat D) pf)
  /\ vol (calculatePortfolioStats D pf)
     = sqrt (0.4 * list_sum e ^ 2 + 0.6 * list_sum (map (fun x => x ^ 2) e)).
Proof.
  intros Hne e.
  assert (Hmax : Rmax 0 (portfolioVariance (map (assetStat D) pf))
                 = portfolioVariance (map (assetStat D) pf))
    by (apply Rmax_right, portfolioVariance_nonneg).
  split; [exact Hmax |].
  unfold calculatePortfolioStats.
  destruct pf as [| a pf]; [congruence |].
  cbn [length Nat.eqb vol]. rewrite Hmax, portfolioVariance_closed.
  reflexivity.
Qed.

Lemma portfolio_volatility_closed_form_witness :
  let D := fun _ : string => @None (list StockDataPoint) in
  let pf := [ {| ticker := "AAPL"%string; weight := 1 |} ] in
  let e := exposures (map (assetStat D) pf) in
  Rmax 0 (portfolioVariance (map (assetStat D) pf))
  = portfolioVariance (map (assetStat D) pf)
  /\ vol (calculatePortfolioStats D pf)
     = sqrt (0.4 * list_sum e ^ 2 + 0.6 * list_sum (map (fun x => x ^ 2) e)).
Proof.
  exact (portfolio_volatility_closed_form
           (fun _ => None) [ {| ticker := "AAPL"%string; weight := 1 |} ]
           ltac:(discriminate)).
Defined.

(** X20. The portfolio statistics are homogeneous in the weights:
    multiplying every weight by the same [c >= 0] multiplies both the
    mean return and the volatility that [calculatePortfolioStats]
    returns by [c], whatever the price table holds. *)
Theorem portfolio_stats_scale
        (D : string -> option (list StockDataPoint))
        (c : R) (pf : list PortfolioAsset) :
  0 <= c ->
  mean (calculatePortfolioStats D (scale_weights c pf))
  = c * mean (calculatePortfolioStats D pf)
  /\ vol (calculatePortfolioStats D (scale_weights c pf))
     = c * vol (calculatePortfolioStats D pf).
Proof.
  intros Hc. unfold calculatePortfolioStats.
  destruct pf as [| a pf].
  - cbn. split; lra.
  - assert (Hlen : (length (scale_weights c (a :: pf)) =? 0)%nat = false)
      by reflexivity.
    rewrite Hlen. cbn [length Nat.eqb mean vol]. split.
    + rewrite !mean_fold.
      unfold scale_weights. rewrite !map_map.
      replace (map (fun x => annualReturn (assetStat D {| ticker := ticker x;
                                                          weight := c * weight x |})
                             * stat_weight (assetStat D {| ticker := ticker x;
                                                           weight := c * weight x |}))
                   (a :: pf))
        with (map (fun r => c * r)
                  (map (fun x => annualReturn (assetStat D x)
                                 * stat_weight (assetStat D x)) (a :: pf))).
      * rewrite list_sum_map_scale. lra.
      * rewrite map_map. apply map_ext. intros x.
        destruct (assetStat_scale D c x) as (Hw & Hr & _).
        rewrite Hw, Hr. ring.
    + rewrite !Rmax_right by apply portfolioVariance_nonneg.
      rewrite !portfolioVariance_closed, exposures_scale.
      rewrite list_sum_map_scale, list_sum_squares_scale.
      set (e := exposures (map (assetStat D) (a :: pf))).
      pose proof (list_sum_squares_nonneg e) as Hsq.
      pose proof (pow2_ge_0 (list_sum e)) as Hs.
      replace (0.4 * (c * list_sum e) ^ 2
               + 0.6 * (c ^ 2 * list_sum (map (fun x => x ^ 2) e)))
        with (c * c * (0.4 * list_sum e ^ 2
                       + 0.6 * list_sum (map (fun x => x ^ 2) e)))
        by ring.
      rewrite sqrt_mult; [| nra | lra].
      rewrite sqrt_square by exact Hc. reflexivity.
Qed.

Lemma portfolio_stats_scale_witness :
  let D := fun _ : string => @None (list StockDataPoint) in
  let pf := [ {| ticker := "AAPL"%string; weight := 1 |} ] in
  mean (calculatePortfolioStats D (scale_weights 2 pf))
  = 2 * mean (calculatePortfolioStats D pf)
  /\ vol (calculatePortfolioStats D (scale_weights 2 pf))
     = 2 * vol (calculatePortfolioStats D pf).
Proof.
  exact (portfolio_stats_scale
           (fun _ => None) 2 [ {| ticker := "AAPL"%string; weight := 1 |} ]
           ltac:(lra)).
Defined.

(** ** The portfolio editor *)

Lemma totalWeight_fold (assets : list PortfolioAsset) :
  forall acc,
    fold_left (fun sum a => sum + weight a) assets acc
    = acc + list_sum (map weight assets).
Proof.
  induction assets as [| a assets IH]; intros acc;
    cbn [fold_left map list_sum fold_right].
  - lra.
  - rewrite IH. unfold list_sum. lra.
Qed.

Lemma totalWeight_sum (assets : list PortfolioAsset) :
  totalWeight assets = list_sum (map weight assets).
Proof. unfold totalWeight. rewrite totalWeight_fold. lra. Qed.

Lemma totalWeight_divided (assets : list PortfolioAsset) (t : R) :
  totalWeight
    (map (fun a => {| ticker := ticker a; weight := weight a / t |}) assets)
  = totalWeight assets / t.
Proof.
  rewrite !totalWeight_sum, map_map. cbn [weight].
  induction assets as [| a assets IH]; cbn [map list_sum fold_right] in *.
  - unfold Rdiv. lra.
  - unfold list_sum in IH. rewrite IH. unfold Rdiv. lra.
Qed.

Lemma normalizeWeights_tickers (assets : list PortfolioAsset) :
  map ticker (normalizeWeights assets) = map ticker assets.
Proof.
  unfold normalizeWeights. destruct (JS.gt (totalWeight assets) 0).
  - rewrite map_map. reflexivity.
  - reflexivity.
Qed.

Lemma normalizeWeights_positive (assets : list PortfolioAsset) :
  0 < totalWeight assets ->
  totalWeight (normalizeWeights assets) = 1.
Proof.
  intros Hpos. unfold normalizeWeights.
  destruct (JS.gt (totalWeight assets) 0) eqn:Hgt.
  - rewrite totalWeight_divided. field. lra.
  - revert Hgt. cmp; [discriminate | intros _; lra].
Qed.

Lemma NoDup_snoc (A : Type) (l : list A) (x : A) :
  NoDup l -> ~ In x l -> NoDup (l ++ [x]).
Proof.
  induction 1 as [| y l Hy Hl IH]; intros Hx; cbn [app].
  - constructor; [intros [] | constructor].
  - constructor.
    + rewrite in_app_iff. intros [Hin | [Heq | []]].
      * exact (Hy Hin).
      * apply Hx. left. symmetry. exact Heq.
    + apply IH. intros Hin. apply Hx. right. exact Hin.
Qed.

(** X21. When the weights of a portfolio sum to a positive total,
    [normalizeWeights] sets a portfolio with the same tickers in the
    same order whose weights sum to 1. *)
Theorem normalizeWeights_sums_to_one (assets : list PortfolioAsset) :
  0 < totalWeight assets ->
  totalWeight (normalizeWeights assets) = 1
  /\ map ticker (normalizeWeights assets) = map ticker assets.
Proof.
  intros Hpos. split.
  - apply normalizeWeights_positive, Hpos.
  - apply normalizeWeights_tickers.
Qed.

Lemma normalizeWeights_sums_to_one_witness :
  let assets := [ {| ticker := "AAPL"%string; weight := 1 |};
                  {| ticker := "MSFT"%string; weight := 3 |} ] in
  totalWeight (normalizeWeights assets) = 1
  /\ map ticker (normalizeWeights assets) = map ticker assets.
Proof.
  exact (normalizeWeights_sums_to_one
           [ {| ticker := "AAPL"%string; weight := 1 |};
             {| ticker := "MSFT"%string; weight := 3 |} ]
           ltac:(unfold totalWeight; cbn; lra)).
Defined.

(** X22. Normalising twice is the same as normalising once: a
    portfolio that [normalizeWeights] has set is left as it is by a
    second call, whether or not the first call rescaled it. *)
Theorem normalizeWeights_idempotent (assets : list PortfolioAsset) :
  normalizeWeights (normalizeWeights assets) = normalizeWeights assets.
Proof.
  destruct (Rlt_dec 0 (totalWeight assets)) as [Hpos | Hnpos].
  - pose proof (normalizeWeights_positive assets Hpos) as Hone.
    unfold normalizeWeights at 1. rewrite Hone.
    replace (JS.gt 1 0) with true by (cmp; [reflexivity | lra]).
    rewrite <- (map_id (normalizeWeights assets)) at 2.
    apply map_ext. intros [t w]. cbn [ticker weight]. f_equal. field.
  - unfold normalizeWeights at 2.
    replace (JS.gt (totalWeight assets) 0) with false
      by (cmp; [lra | reflexivity]).
    unfold normalizeWeights.
    replace (JS.gt (totalWeight assets) 0) with false
      by (cmp; [lra | reflexivity]).
    reflexivity.
Qed.

(** X23. [handleAddAsset] keeps the tickers of the portfolio distinct,
    and a ticker it adds is one the price table knows: every ticker of
    the portfolio it sets was in the portfolio before or has an entry in
    [STOCK_DATA]. *)
Theorem handleAddAsset_keeps_tickers_distinct
        (toUpperCase : string -> string)
        (D : string -> option (list StockDataPoint)) (st : EditorState) :
  NoDup (map ticker (portfolio st)) ->
  NoDup (map ticker (portfolio (handleAddAsset toUpperCase D st)))
  /\ forall t,
       In t (map ticker (portfolio (handleAddAsset toUpperCase D st))) ->
       In t (map ticker (portfolio st)) \/ D t <> None.
Proof.
  intros Hnd. unfold handleAddAsset.
  set (T := toUpperCase (newTicker st)).
  destruct (negb (String.eqb T EmptyString)); cbn [andb];
    [| split; [exact Hnd | intros t Ht; left; exact Ht]].
  destruct (D T) as [d |] eqn:HD; cbn [andb];
    [| split; [exact Hnd | intros t Ht; left; exact Ht]].
  destruct (find (fun a => String.eqb (ticker a) T) (portfolio st))
    as [a |] eqn:Hfind; cbn [negb];
    [split; [exact Hnd | intros t Ht; left; exact Ht] |].
  cbn [portfolio]. rewrite normalizeWeights_tickers, map_app.
  cbn [map ticker]. split.
  - apply NoDup_snoc; [exact Hnd |].
    intros Hin. apply in_map_iff in Hin. destruct Hin as (a & Ha & Hin).
    pose proof (find_none _ _ Hfind a Hin) as Hf. cbn beta in Hf.
    rewrite Ha, String.eqb_refl in Hf. discriminate.
  - intros t Ht. apply in_app_iff in Ht. destruct Ht as [Ht | [Ht | []]].
    + left. exact Ht.
    + right. subst t. rewrite HD. discriminate.
Qed.

Lemma handleAddAsset_keeps_tickers_distinct_witness :
  let up := fun s : string => s in
  let D := fun t : string =>
             if String.eqb t "MSFT" then Some (@nil StockDataPoint) else None in
  let st := {| portfolio := [ {| ticker := "AAPL"%string; weight := 1 |} ];
               newTicker := "MSFT"%string |} in
  NoDup (map ticker (portfolio (handleAddAsset up D st)))
  /\ forall t,
       In t (map ticker (portfolio (handleAddAsset up D st))) ->
       In t (map ticker (portfolio st)) \/ D t <> None.
Proof.
  exact (handleAddAsset_keeps_tickers_distinct
           (fun s => s)
           (fun t => if String.eqb t "MSFT"
                     then Some (@nil StockDataPoint) else None)
           {| portfolio := [ {| ticker := "AAPL"%string; weight := 1 |} ];
              newTicker := "MSFT"%string |}
           ltac:(cbn; constructor; [intros [] | constructor])).
Defined.

(** X24. [handleRemoveAsset] removes exactly the named ticker: the
    tickers of the portfolio it sets are those of the portfolio before
    other than the one removed. *)
Theorem handleRemoveAsset_tickers (t u : string) (st : EditorState) :
  In u (map ticker (portfolio (handleRemoveAsset t st)))
  <-> In u (map ticker (portfolio st)) /\ u <> t.
Proof.
  unfold handleRemoveAsset. cbn [portfolio].
  rewrite normalizeWeights_tickers, !in_map_iff. split.
  - intros (a & Ha & Hin). apply filter_In in Hin. destruct Hin as [Hin Hf].
    split; [exists a; auto |].
    subst u. apply negb_true_iff, String.eqb_neq in Hf. exact Hf.
  - intros [(a & Ha & Hin) Hne]. exists a. split; [exact Ha |].
    apply filter_In. split; [exact Hin |].
    apply negb_true_iff, String.eqb_neq. subst u. exact Hne.
Qed.

End PortfolioStats.

(* ------------------------------------------------------------------ *)
(** ** The pairs-trading loop *)

Section PairsRows.

Import PairsTradingModel.

Lemma loop_up_invariant_indexed {St : Type} (P : nat -> St -> Prop)
      (body : nat -> St -> St) :
  (forall i s, P i s -> P (S i) (body i s)) ->
  forall count start s,
    P start s -> P (start + count)%nat (JS.loop_up body start count s).
Proof.
  intros Hbody. induction count as [| c IH]; intros start s Hs;
    cbn [JS.loop_up].
  - rewrite Nat.add_0_r. exact Hs.
  - rewrite <- Nat.add_succ_comm. apply IH, Hbody, Hs.
Qed.

Lemma signal_logic_cases (entryZ exitZ : R) (d : string) (zs rt : R)
      (pos : Position) (sigs : list TradeSignal) :
  snd (signal_logic entryZ exitZ d zs rt pos sigs) = sigs
  \/ exists ty,
       snd (signal_logic entryZ exitZ d zs rt pos sigs)
       = sigs ++ [{| sdate := d; type := ty; z := zs; ratio := rt |}]
       /\ beyond_entry entryZ
            {| sdate := d; type := ty; z := zs; ratio := rt |}.
Proof.
  unfold signal_logic, beyond_entry.
  destruct pos; cmp; cbn [snd type z]; auto;
    right; eexists; (split; [reflexivity |]); cbn [type z]; auto; lra.
Qed.

Lemma loop_body_signals (lookback : nat) (entryZ exitZ : R)
      (mergedData : list Merged) (i : nat) (st : LoopState) :
  tradeSignals (loop_body lookback entryZ exitZ mergedData i st)
  = tradeSignals st
  \/ (lookback - 1 <= i)%nat
     /\ exists ty,
          tradeSignals (loop_body lookback entryZ exitZ mergedData i st)
          = tradeSignals st ++ [signal_at lookback mergedData i ty]
          /\ beyond_entry entryZ (signal_at lookback mergedData i ty).
Proof.
  destruct (Nat.le_gt_cases (lookback - 1) i) as [Hin | Hout].
  - pose proof (loop_body_in_window lookback entryZ exitZ mergedData i st Hin)
      as Hstep.
    apply (f_equal snd) in Hstep. cbn [snd] in Hstep. rewrite Hstep.
    destruct (signal_logic_cases entryZ exitZ
                (mdate (nth i mergedData no_data))
                (zScore_at lookback mergedData i)
                (ratio_of (nth i mergedData no_data))
                (inTrade st) (tradeSignals st)) as [Hsame | (ty & Hpush & Hz)].
    + left. exact Hsame.
    + right. split; [exact Hin |]. exists ty. split; assumption.
  - left. apply loop_body_before_window, Hout.
Qed.

Lemma loop_body_rows (lookback : nat) (entryZ exitZ : R)
      (mergedData : list Merged) (i : nat) (st : LoopState) :
  exists r,
    spreadAnalysisData (loop_body lookback entryZ exitZ mergedData i st)
    = spreadAnalysisData st ++ [r]
    /\ pdate r = mdate (nth i mergedData no_data)
    /\ pratio r = ratio_of (nth i mergedData no_data)
    /\ ma r = (if (lookback - 1 <=? i)%nat
               then Some (movingAvg_at lookback mergedData i) else None)
    /\ zScore r = (if (lookback - 1 <=? i)%nat
                   then Some (zScore_at lookback mergedData i) else None)
    /\ ((i < lookback - 1)%nat -> upperBand r = None /\ lowerBand r = None).
Proof.
  unfold loop_body.
  destruct (lookback - 1 <=? i)%nat eqn:Hwin.
  - destruct (signal_logic _ _ _ _ _ _ _) as [pos sigs].
    eexists. split; [reflexivity |]. cbn [pdate pratio ma zScore].
    repeat split; try reflexivity.
    all: apply Nat.leb_le in Hwin; lia.
  - eexists. split; [reflexivity |]. cbn.
    repeat split; reflexivity.
Qed.

(** X25. Every signal the pairs-trading loop emits is stamped with the
    date, the ratio and the z-score of a point whose window is full, and
    an entry signal lies beyond the entry threshold: a SHORT carries a
    z-score above [entryZ], a LONG one below [-entryZ]. *)
Theorem signals_stamped (lookback : nat) (entryZ exitZ : R)
        (mergedData : list Merged) :
  Forall (fun sg =>
            exists i, (lookback - 1 <= i < length mergedData)%nat
                      /\ sg = signal_at lookback mergedData i (type sg)
                      /\ beyond_entry entryZ sg)
         (tradeSignals (run lookback entryZ exitZ mergedData)).
Proof.
  unfold run.
  refine (loop_up_invariant_indexed
           (fun n st =>
              Forall (fun sg =>
                        exists i, (lookback - 1 <= i < n)%nat
                                  /\ sg = signal_at lookback mergedData i (type sg)
                                  /\ beyond_entry entryZ sg)
                     (tradeSignals st))
           (loop_body lookback entryZ exitZ mergedData)
           _ (length mergedData) 0%nat initial _).
  - intros i st Hst.
    assert (Hweak : Forall (fun sg =>
                      exists k, (lookback - 1 <= k < S i)%nat
                                /\ sg = signal_at lookback mergedData k (type sg)
                                /\ beyond_entry entryZ sg)
                           (tradeSignals st)).
    { eapply Forall_impl; [| exact Hst].
      intros sg (k & Hk & Hsg & Hz). exists k. split; [lia | auto]. }
    destruct (loop_body_signals lookback entryZ exitZ mergedData i st)
      as [Hsame | (Hin & ty & Hpush & Hz)].
    + rewrite Hsame. exact Hweak.
    + rewrite Hpush. apply Forall_app. split; [exact Hweak |].
      constructor; [| constructor].
      exists i. split; [lia |]. split; [reflexivity | exact Hz].
  - constructor.
Qed.

(** X26. The loop emits at most one signal per point with a full
    window: there are never more signals than [length - (lookback - 1)],
    and none at all when the merged series is shorter than the
    lookback. *)
Theorem signal_count_bound (lookback : nat) (entryZ exitZ : R)
        (mergedData : list Merged) :
  (length (tradeSignals (run lookback entryZ exitZ mergedData))
   <= length mergedData - (lookback - 1))%nat.
Proof.
  unfold run.
  refine (loop_up_invariant_indexed
           (fun n st => (length (tradeSignals st) <= n - (lookback - 1))%nat)
           (loop_body lookback entryZ exitZ mergedData)
           _ (length mergedData) 0%nat initial _).
  - intros i st Hst.
    destruct (loop_body_signals lookback entryZ exitZ mergedData i st)
      as [Hsame | (Hin & ty & Hpush & _)].
    + rewrite Hsame. lia.
    + rewrite Hpush, length_app. cbn [length]. lia.
  - cbn. lia.
Qed.

Lemma null_before_window {A : Type} (lookback i : nat) (v : A) :
  (if (lookback - 1 <=? i)%nat then Some v else None) = None
  <-> (i < lookback - 1)%nat.
Proof.
  destruct (Nat.leb_spec (lookback - 1) i); split; intros H0;
    try discriminate; try reflexivity; lia.
Qed.

(** X27. The spread table has one row per merged point, in order, each
    with the date of its point.  The moving average and the z-score of a
    row are null exactly when the index of the row is below
    [lookback - 1], and such a row carries no bands either. *)
Theorem spread_rows (lookback : nat) (entryZ exitZ : R)
        (mergedData : list Merged) :
  let rows := spreadAnalysisData (run lookback entryZ exitZ mergedData) in
  length rows = length mergedData
  /\ forall i r,
       nth_error rows i = Some r ->
       pdate r = mdate (nth i mergedData no_data)
       /\ (ma r = None <-> (i < lookback - 1)%nat)
       /\ (zScore r = None <-> (i < lookback - 1)%nat)
       /\ ((i < lookback - 1)%nat -> upperBand r = None /\ lowerBand r = None).
Proof.
  cbv zeta. unfold run.
  refine (loop_up_invariant_indexed
           (fun n st =>
              length (spreadAnalysisData st) = n
              /\ forall i r,
                   nth_error (spreadAnalysisData st) i = Some r ->
                   pdate r = mdate (nth i mergedData no_data)
                   /\ (ma r = None <-> (i < lookback - 1)%nat)
                   /\ (zScore r = None <-> (i < lookback - 1)%nat)
                   /\ ((i < lookback - 1)%nat ->
                       upperBand r = None /\ lowerBand r = None))
           (loop_body lookback entryZ exitZ mergedData)
           _ (length mergedData) 0%nat initial _).
  - intros n st [Hlen Hrows].
    destruct (loop_body_rows lookback entryZ exitZ mergedData n st)
      as (r0 & Hpush & Hdate & _ & Hma & Hz & Hbands).
    rewrite Hpush. split.
    + rewrite length_app. cbn [length]. lia.
    + intros i r Hnth.
      destruct (Nat.lt_ge_cases i (length (spreadAnalysisData st)))
        as [Hlt | Hge].
      * rewrite nth_error_app1 in Hnth by exact Hlt. apply Hrows, Hnth.
      * rewrite nth_error_app2 in Hnth by exact Hge.
        destruct (i - length (spreadAnalysisData st))%nat as [| m] eqn:Hm.
        -- cbn in Hnth. injection Hnth as <-.
           replace i with n by lia.
           rewrite Hma, Hz.
           split; [exact Hdate |].
           split; [apply null_before_window |].
           split; [apply null_before_window | exact Hbands].
        -- cbn in Hnth. destruct m; discriminate.
  - split; [reflexivity |]. intros i r Hnth.
    destruct i; discriminate.
Qed.

Lemma spread_rows_witness :
  let rows := spreadAnalysisData (run 2 1 0.5 two_points) in
  length rows = length two_points
  /\ forall i r,
       nth_error rows i = Some r ->
       pdate r = mdate (nth i two_points no_data)
       /\ (ma r = None <-> (i < 2 - 1)%nat)
       /\ (zScore r = None <-> (i < 2 - 1)%nat)
       /\ ((i < 2 - 1)%nat -> upperBand r = None /\ lowerBand r = None).
Proof.
  exact (spread_rows 2 1 0.5 two_points).
Defined.

Lemma merge_fold (data2 : list StockDataPoint) (data1 : list StockDataPoint) :
  forall acc,
    fold_left
      (fun mergedData p1 =>
         match find (fun p => String.eqb (date p) (date p1)) data2 with
         | Some p2 => mergedData ++ [{| mdate := date p1;
                                        price1 := price p1;
                                        price2 := price p2 |}]
         | None => mergedData
         end)
      data1 acc
    = acc ++ merge data1 data2.
Proof.
  unfold merge.
  induction data1 as [| p1 data1 IH]; intros acc; cbn [fold_left].
  - rewrite app_nil_r. reflexivity.
  - rewrite IH. rewrite (IH (match find _ data2 with
                              | Some _ => _ | None => _ end)).
    destruct (find (fun p => String.eqb (date p) (date p1)) data2);
      cbn [app]; [rewrite <- app_assoc |]; reflexivity.
Qed.

Lemma find_has_date (data2 : list StockDataPoint) (d : string) :
  has_date data2 d
  = match find (fun p => String.eqb (date p) d) data2 with
    | Some _ => true | None => false end.
Proof.
  unfold has_date.
  induction data2 as [| p data2 IH]; cbn [existsb find]; [reflexivity |].
  destruct (String.eqb (date p) d); cbn [orb]; [reflexivity | exact IH].
Qed.

(** X28. Merging keeps, in the order of the first table, exactly the
    rows of the first table whose date also occurs in the second, with
    the first table's price as [price1]; so the merged series is never
    longer than the first table. *)
Theorem merge_dates (data1 data2 : list StockDataPoint) :
  map mdate (merge data1 data2)
  = filter (has_date data2) (map date data1)
  /\ map price1 (merge data1 data2)
     = map price (filter (fun p => has_date data2 (date p)) data1)
  /\ (length (merge data1 data2) <= length data1)%nat.
Proof.
  induction data1 as [| p1 data1 (IHd & IHp & IHl)].
  - cbn. auto.
  - unfold merge. cbn [fold_left]. rewrite merge_fold.
    cbn [map filter length]. rewrite (find_has_date data2 (date p1)).
    destruct (find (fun p => String.eqb (date p) (date p1)) data2) as [p2 |].
    + cbn [app map length]. rewrite IHd, IHp. repeat split. lia.
    + cbn [app]. rewrite IHd, IHp. repeat split. lia.
Qed.

(** X29. For a merged series whose first point has positive prices,
    both rebased series start at 100, every row keeps its date, and a
    rebased value is at least 100 exactly when the price is at least the
    first price. *)
Theorem normalized_series (first : Merged) (rest : list Merged) :
  0 < price1 first -> 0 < price2 first ->
  let rows := normalizedPriceData (first :: rest) in
  (exists r rs, rows = r :: rs /\ ko r = 100 /\ pep r = 100)
  /\ Forall2 (fun d r =>
                ndate r = mdate d
                /\ (100 <= ko r <-> price1 first <= price1 d)
                /\ (100 <= pep r <-> price2 first <= price2 d))
             (first :: rest) rows.
Proof.
  intros H1 H2. cbv zeta. unfold normalizedPriceData. cbn [nth].
  split.
  - cbn [map]. eexists. eexists. split; [reflexivity |].
    cbn [ko pep]. split; field; lra.
  - generalize (first :: rest). intros l.
    induction l as [| d l IH]; cbn [map]; constructor; [| exact IH].
    cbn [ndate ko pep]. split; [reflexivity |].
    assert (Hscale : forall a b, 0 < b -> (100 <= a / b * 100 <-> b <= a)).
    { intros a b Hb.
      assert (Ha : a = a / b * b) by (field; lra).
      revert Ha. generalize (a / b). intros q Ha. subst a.
      split; intros H; nra. }
    split; apply Hscale; assumption.
Qed.

Lemma normalized_series_witness :
  let first := {| mdate := "2024-01-02"%string; price1 := 1; price2 := 1 |} in
  let rest := [ {| mdate := "2024-01-03"%string; price1 := 3; price2 := 1 |} ] in
  let rows := normalizedPriceData (first :: rest) in
  (exists r rs, rows = r :: rs /\ ko r = 100 /\ pep r = 100)
  /\ Forall2 (fun d r =>
                ndate r = mdate d
                /\ (100 <= ko r <-> price1 first <= price1 d)
                /\ (100 <= pep r <-> price2 first <= price2 d))
             (first :: rest) rows.
Proof.
  exact (normalized_series
           {| mdate := "2024-01-02"%string; price1 := 1; price2 := 1 |}
           [ {| mdate := "2024-01-03"%string; price1 := 3; price2 := 1 |} ]
           ltac:(cbn; lra) ltac:(cbn; lra)).
Defined.

End PairsRows.

(* ------------------------------------------------------------------ *)
(** ** The early-exercise boundary *)

Section Boundary.

Import AmericanOptionsModel.

Lemma insert_by_length {A : Type} (key : A -> R) (x : A) (xs : list A) :
  length (JS.insert_by key x xs) = S (length xs).
Proof.
  induction xs as [| y ys IH]; cbn [JS.insert_by length].
  - reflexivity.
  - destruct (JS.le (key x) (key y)); cbn [length]; [reflexivity | now rewrite IH].
Qed.

Lemma sort_by_length {A : Type} (key : A -> R) (xs : list A) :
  length (JS.sort_by key xs) = length xs.
Proof.
  induction xs as [| x xs IH]; cbn [JS.sort_by fold_right length].
  - reflexivity.
  - fold (JS.sort_by key xs). now rewrite insert_by_length, IH.
Qed.

Lemma insert_by_Forall {A : Type} (key : A -> R) (P : A -> Prop)
      (x : A) (xs : list A) :
  P x -> Forall P xs -> Forall P (JS.insert_by key x xs).
Proof.
  intros Hx Hxs. induction Hxs as [| y ys Hy Hys IH]; cbn [JS.insert_by].
  - constructor; [exact Hx | constructor].
  - destruct (JS.le (key x) (key y)).
    + constructor; [exact Hx |]. constructor; assumption.
    + constructor; assumption.
Qed.

Lemma sort_by_Forall {A : Type} (key : A -> R) (P : A -> Prop) (xs : list A) :
  Forall P xs -> Forall P (JS.sort_by key xs).
Proof.
  induction 1 as [| x xs Hx Hxs IH]; cbn [JS.sort_by fold_right].
  - constructor.
  - apply insert_by_Forall; assumption.
Qed.

Lemma insert_by_sorted {A : Type} (key : A -> R) (x : A) (xs : list A) :
  StronglySorted (fun a b => key a <= key b) xs ->
  StronglySorted (fun a b => key a <= key b) (JS.insert_by key x xs).
Proof.
  intros Hs. induction Hs as [| y ys Hys IH Hy]; cbn [JS.insert_by].
  - constructor; constructor.
  - destruct (JS.le (key x) (key y)) eqn:Hxy.
    + apply le_true_iff in Hxy. constructor.
      * constructor; assumption.
      * constructor; [exact Hxy |].
        eapply Forall_impl; [| exact Hy]. intros z Hz. cbn beta in Hz. lra.
    + apply le_false_iff in Hxy. constructor; [exact IH |].
      apply insert_by_Forall; [lra | exact Hy].
Qed.

Lemma sort_by_sorted {A : Type} (key : A -> R) (xs : list A) :
  StronglySorted (fun a b => key a <= key b) (JS.sort_by key xs).
Proof.
  induction xs as [| x xs IH]; cbn [JS.sort_by fold_right].
  - constructor.
  - now apply insert_by_sorted.
Qed.

(** The quadratic root of the approximation exceeds 1. *)
Lemma q2_above_one (N Kv : R) :
  0 < N -> 0 < Kv < 1 ->
  1 < (- (N - 1) + sqrt ((N - 1) ^ 2 + 4 * N / Kv)) / 2.
Proof.
  intros HN [HK0 HK1].
  assert (Hq : 4 * N < 4 * N / Kv).
  { unfold Rdiv. rewrite <- (Rmult_1_r (4 * N)) at 1.
    apply Rmult_lt_compat_l; [lra |].
    rewrite <- Rinv_1. apply Rinv_lt_contravar; lra. }
  assert (Hs : N + 1 < sqrt ((N - 1) ^ 2 + 4 * N / Kv)).
  { rewrite <- (sqrt_square (N + 1)) at 1 by lra.
    apply sqrt_lt_1; nra. }
  lra.
Qed.

Lemma boundary_body_row (K T r sigma : R) (i : nat)
      (data : list BoundaryPoint) :
  0 < K -> 0 < T -> 0 < r -> 0 < sigma -> (i <= 50)%nat ->
  exists row,
    boundary_body K T r sigma i data = data ++ [row]
    /\ 0 <= time row <= T
    /\ 0 < point row <= K
    /\ (time row < T -> point row < K)
    /\ (time row = T -> point row = K).
Proof.
  intros HK HT Hr Hs Hi. unfold boundary_body. cbv zeta.
  assert (Hi0 : 0 <= INR i <= 50).
  { split; [apply pos_INR |].
    replace 50 with (INR 50) by (cbn; lra). apply le_INR, Hi. }
  destruct (Req_dec_T (INR i / 50 * T) 0) as [Hz | Hnz].
  - eexists. split; [reflexivity |]. cbn [time point].
    repeat split; try lra.
  - eexists. split; [reflexivity |]. cbn [time point].
    set (t := INR i / 50 * T) in *.
    assert (Ht : 0 < t <= T).
    { assert (H0 : 0 <= t) by (unfold t; apply Rmult_le_pos; lra).
      assert (H1 : t <= 1 * T)
        by (unfold t; apply Rmult_le_compat_r; lra).
      lra. }
    set (N := 2 * r / (sigma * sigma)).
    assert (HN : 0 < N).
    { unfold N. apply Rdiv_lt_0_compat; [lra | nra]. }
    set (Kv := 1 - exp (- r * t)).
    assert (HKv : 0 < Kv < 1).
    { unfold Kv. pose proof (exp_pos (- r * t)) as Hp.
      assert (exp (- r * t) < exp 0) by (apply exp_increasing; nra).
      rewrite exp_0 in *. lra. }
    pose proof (q2_above_one N Kv HN HKv) as Hq.
    set (q2 := (- (N - 1) + sqrt ((N - 1) ^ 2 + 4 * N / Kv)) / 2) in *.
    assert (Hfrac : 0 < (q2 - 1) / q2 < 1).
    { split.
      - apply Rdiv_lt_0_compat; lra.
      - apply (Rmult_lt_reg_r q2); [lra |].
        unfold Rdiv. rewrite Rmult_assoc, Rinv_l by lra. lra. }
    replace (K * (q2 - 1) / q2) with (K * ((q2 - 1) / q2))
      by (unfold Rdiv; ring).
    repeat split; try lra; try nra.
Qed.

(** X30. For a positive strike, maturity, rate and volatility,
    [generateBoundary] returns 51 rows in ascending order of time, all
    with a time in [[0, T]].  The critical price of every row is
    positive and at most the strike; it equals the strike on a row at
    the maturity and lies strictly below the strike on every earlier
    row. *)
Theorem exercise_boundary (K T r sigma : R) :
  0 < K -> 0 < T -> 0 < r -> 0 < sigma ->
  let data := generateBoundary K T r sigma in
  length data = 51%nat
  /\ StronglySorted (fun a b => time a <= time b) data
  /\ Forall (fun row =>
               0 <= time row <= T
               /\ 0 < point row <= K
               /\ (time row < T -> point row < K)
               /\ (time row = T -> point row = K))
            data.
Proof.
  intros HK HT Hr Hs. cbv zeta. unfold generateBoundary.
  assert (Hloop :
            length (JS.loop_up (boundary_body K T r sigma) 0 51 []) = 51%nat
            /\ ((51 <= 51)%nat ->
                Forall (fun row =>
                          0 <= time row <= T
                          /\ 0 < point row <= K
                          /\ (time row < T -> point row < K)
                          /\ (time row = T -> point row = K))
                       (JS.loop_up (boundary_body K T r sigma) 0 51 []))).
  { refine (loop_up_invariant_indexed
              (fun n data =>
                 length data = n
                 /\ ((n <= 51)%nat ->
                     Forall (fun row =>
                               0 <= time row <= T
                               /\ 0 < point row <= K
                               /\ (time row < T -> point row < K)
                               /\ (time row = T -> point row = K))
                            data))
              (boundary_body K T r sigma) _ 51 0%nat [] _).
    - intros i data [Hlen Hall].
      destruct (Nat.le_gt_cases i 50) as [Hi | Hi].
      + destruct (boundary_body_row K T r sigma i data HK HT Hr Hs Hi)
          as (row & Hpush & Hrow).
        rewrite Hpush. split.
        * rewrite length_app. cbn [length]. lia.
        * intros _. apply Forall_app. split; [apply Hall; lia |].
          constructor; [exact Hrow | constructor].
      + split; [| intros; lia].
        unfold boundary_body. cbv zeta.
        destruct (Req_dec_T _ _); rewrite length_app; cbn [length]; lia.
    - split; [reflexivity | constructor]. }
  destruct Hloop as [Hlen Hall].
  split; [rewrite sort_by_length; exact Hlen |].
  split; [apply sort_by_sorted |].
  apply sort_by_Forall, Hall. lia.
Qed.

Lemma exercise_boundary_witness :
  let data := generateBoundary 100 1 0.05 0.3 in
  length data = 51%nat
  /\ StronglySorted (fun a b => time a <= time b) data
  /\ Forall (fun row =>
               0 <= time row <= 1
               /\ 0 < point row <= 100
               /\ (time row < 1 -> point row < 100)
               /\ (time row = 1 -> point row = 100))
            data.
Proof.
  exact (exercise_boundary 100 1 0.05 0.3
           ltac:(lra) ltac:(lra) ltac:(lra) ltac:(lra)).
Defined.

End Boundary.
